(** * api-picker: the schema engine of [src/openapi.ts]

    A shallow embedding of the OpenAPI field-flattening module and the
    properties its specification states about it.

    The module works on a document obtained from [JSON.parse], so the data
    model is the JSON tree itself; the TypeScript types of the source are
    erased casts and every read is a dynamic property read.  The embedding
    follows the runtime: reads return [option json] ([None] is JavaScript's
    [undefined]), truthiness, [??], [typeof] and string conversion are the
    language's, and a read that raises a [TypeError] is the outcome [Throw].

    Limits of the data model: numbers are integers; a character of a Rocq
    string stands for one string element of the source (the functions below
    only look for the ASCII characters [#], [/] and the letters of the HTTP
    method names); [String.prototype.localeCompare], whose result belongs to
    the host's collation tables, is a parameter.

    The report builder of the same file and the selection state of the
    component [App], which feeds it, follow in modules of their own, and so
    does the reference resolver over objects held by address, where what a
    call writes can be stated. *)

From Stdlib Require Import String Ascii List ZArith NArith Bool Arith Lia.
From Stdlib Require Import Permutation Sorted DecimalString OrderedTypeEx.
Import ListNotations.
Local Open Scope string_scope.

(** ** Outcomes of a call *)

(** A call of the source returns, raises a [TypeError], or recurses deeper
    than the model's budget allows.  A call that is [OutOfFuel] for every
    budget overflows the stack of the runtime. *)
Inductive outcome (A : Type) : Type :=
| Ret (a : A)
| Throw
| OutOfFuel.

Arguments Ret {A} a.
Arguments Throw {A}.
Arguments OutOfFuel {A}.

Definition bind {A B : Type} (c : outcome A) (k : A -> outcome B) : outcome B :=
  match c with
  | Ret a => k a
  | Throw => Throw
  | OutOfFuel => OutOfFuel
  end.

Notation "x <- c ;; k" := (bind c (fun x => k))
  (at level 61, c at next level, right associativity).

(** [xs.map(f)] for a callback that may itself raise or run out of budget. *)
Fixpoint mapM {A B : Type} (f : A -> outcome B) (l : list A) : outcome (list B) :=
  match l with
  | [] => Ret []
  | x :: r => y <- f x ;; ys <- mapM f r ;; Ret (y :: ys)
  end.

(** ** JavaScript values of a parsed document *)

Module JS.

#[warnings="-register-all"]
Inductive json : Type :=
| JNull
| JBool (b : bool)
| JNum (n : Z)
| JStr (s : string)
| JArr (items : list json)
| JObj (fields : list (string * json)).

(** A possibly-[undefined] value. *)
Definition value : Type := option json.

(** ToBoolean. *)
Definition truthy (v : value) : bool :=
  match v with
  | None | Some JNull => false
  | Some (JBool b) => b
  | Some (JNum n) => negb (n =? 0)%Z
  | Some (JStr s) => negb (s =? "")
  | Some (JArr _) | Some (JObj _) => true
  end.

Definition nullish (v : value) : bool :=
  match v with
  | None | Some JNull => true
  | _ => false
  end.

(** [a ?? b]. *)
Definition coalesce (a b : value) : value := if nullish a then b else a.

Infix "??" := coalesce (at level 45, right associativity).

(** [typeof v === 'object'] ([null] included). *)
Definition typeof_object (v : value) : bool :=
  match v with
  | Some JNull | Some (JArr _) | Some (JObj _) => true
  | _ => false
  end.

(** [a === 'text'] against a string literal. *)
Definition is_str (v : value) (lit : string) : bool :=
  match v with
  | Some (JStr s) => s =? lit
  | _ => false
  end.

(** *** Strings *)

Definition digit_of (c : ascii) : option N :=
  let n := N_of_ascii c in
  if ((48 <=? n) && (n <=? 57))%N then Some (n - 48)%N else None.

Fixpoint digits_value (acc : N) (s : string) : option N :=
  match s with
  | EmptyString => Some acc
  | String c r =>
      match digit_of c with
      | Some d => digits_value (10 * acc + d)%N r
      | None => None
      end
  end.

(** The number a canonical numeric string denotes: decimal digits with no
    leading zero ([0] itself apart). *)
Definition parse_index (s : string) : option N :=
  match s with
  | EmptyString => None
  | String "0" EmptyString => Some 0%N
  | String "0" _ => None
  | _ => digits_value 0 s
  end.

(** An array index of the language: a canonical numeric string below
    [2^32 - 1].  Own keys of this form are enumerated first. *)
Definition array_index (k : string) : option N :=
  match parse_index k with
  | Some n => if (n <? 4294967295)%N then Some n else None
  | None => None
  end.

Definition string_of_nat (n : nat) : string :=
  NilZero.string_of_uint (Nat.to_uint n).

Definition lower_ascii (c : ascii) : ascii :=
  let n := N_of_ascii c in
  if ((65 <=? n) && (n <=? 90))%N then ascii_of_N (n + 32) else c.

(** [s.toLowerCase()] on the ASCII letters. *)
Fixpoint toLowerCase (s : string) : string :=
  match s with
  | EmptyString => EmptyString
  | String c r => String (lower_ascii c) (toLowerCase r)
  end.

(** [s.startsWith(p)]. *)
Definition startsWith (s p : string) : bool := prefix p s.

(** [s.slice(n)]. *)
Fixpoint slice (n : nat) (s : string) : string :=
  match n, s with
  | O, _ => s
  | S m, String _ r => slice m r
  | S _, EmptyString => EmptyString
  end.

(** [s.split(sep)] for a one-character separator: never empty. *)
Fixpoint split (sep : ascii) (s : string) : list string :=
  match s with
  | EmptyString => [EmptyString]
  | String c r =>
      if Ascii.eqb c sep then EmptyString :: split sep r
      else match split sep r with
           | [] => [String c EmptyString]
           | w :: ws => String c w :: ws
           end
  end.

(** [s.lastIndexOf(c)], [None] standing for [-1]. *)
Fixpoint lastIndexOf (c : ascii) (s : string) : option nat :=
  match s with
  | EmptyString => None
  | String d r =>
      match lastIndexOf c r with
      | Some i => Some (S i)
      | None => if Ascii.eqb d c then Some 0 else None
      end
  end.

(** The elements of a string, each as a one-character string. *)
Definition chars (s : string) : list json :=
  map (fun c => JStr (String c EmptyString)) (list_ascii_of_string s).

(** *** Objects

    The fields of [JObj] are the own properties in creation order, each key
    once. *)

Fixpoint lookup (k : string) (kvs : list (string * json)) : value :=
  match kvs with
  | [] => None
  | (k', v) :: r => if k' =? k then Some v else lookup k r
  end.

Definition unique_keys (kvs : list (string * json)) : Prop :=
  NoDup (map fst kvs).

(** [o[k] = v]: an existing key keeps its place. *)
Fixpoint obj_set (k : string) (v : json) (kvs : list (string * json))
  : list (string * json) :=
  match kvs with
  | [] => [(k, v)]
  | (k', v') :: r =>
      if k' =? k then (k, v) :: r else (k', v') :: obj_set k v r
  end.

(** [delete o[k]]. *)
Definition obj_delete (k : string) (kvs : list (string * json))
  : list (string * json) :=
  filter (fun kv => negb (fst kv =? k)) kvs.

Fixpoint indexed (i : nat) (l : list json) : list (string * json) :=
  match l with
  | [] => []
  | x :: r => (string_of_nat i, x) :: indexed (S i) r
  end.

Fixpoint insert_by_index (e : N * (string * json))
  (l : list (N * (string * json))) : list (N * (string * json)) :=
  match l with
  | [] => [e]
  | e' :: r =>
      if (fst e <? fst e')%N then e :: e' :: r
      else e' :: insert_by_index e r
  end.

Definition index_entries (kvs : list (string * json))
  : list (N * (string * json)) :=
  fold_right
    (fun kv acc =>
       match array_index (fst kv) with
       | Some n => insert_by_index (n, kv) acc
       | None => acc
       end) [] kvs.

Definition is_index_key (k : string) : bool :=
  match array_index k with Some _ => true | None => false end.

(** The order in which the own properties of an object are enumerated:
    array-index keys in ascending numeric order, then the other keys in
    creation order. *)
Definition enumerate (kvs : list (string * json)) : list (string * json) :=
  map snd (index_entries kvs)
    ++ filter (fun kv => negb (is_index_key (fst kv))) kvs.

(** [Object.entries(v)] for a value that is neither [null] nor
    [undefined]. *)
Definition entries (v : json) : list (string * json) :=
  match v with
  | JObj kvs => enumerate kvs
  | JArr l => indexed 0 l
  | JStr s => indexed 0 (chars s)
  | _ => []
  end.

(** [Object.keys(v)]. *)
Definition keys (v : json) : list string := map fst (entries v).

(** [{ ...target, ...source }], one source at a time. *)
Definition spread (target : list (string * json)) (source : json)
  : list (string * json) :=
  fold_left (fun acc kv => obj_set (fst kv) (snd kv) acc) (entries source) target.

(** The element of a list at a numeric key. *)
Definition at_index (l : list json) (k : string) : value :=
  match array_index k with
  | Some n =>
      if (n <? N.of_nat (List.length l))%N then nth_error l (N.to_nat n)
      else None
  | None => None
  end.

(** [v[k]] where [k] names data: an own property, an element of an array or
    of a string.  Inherited members are not data of the document; the one
    place that reads an arbitrary key, [resolveRef], deals with them
    itself. *)
Definition prop (v : json) (k : string) : value :=
  match v with
  | JObj kvs => lookup k kvs
  | JArr l => at_index l k
  | JStr s => at_index (chars s) k
  | _ => None
  end.

(** [v?.length] read for its truth value. *)
Definition has_length (v : value) : bool :=
  match v with
  | Some (JArr l) => negb (Nat.eqb (List.length l) 0)
  | Some (JStr s) => negb (s =? "")
  | Some (JObj kvs) => truthy (lookup "length" kvs)
  | _ => false
  end.

(** The receiver of [.map(...)]: only an array has the method. *)
Definition as_array (v : value) : outcome (list json) :=
  match v with
  | Some (JArr l) => Ret l
  | _ => Throw
  end.

(** The values an iteration ([for ... of], [new Set(...)]) visits: the
    elements of an array or of a string; other values are not iterable. *)
Definition iterate (v : value) : outcome (list json) :=
  match v with
  | Some (JArr l) => Ret l
  | Some (JStr s) => Ret (chars s)
  | _ => Throw
  end.

(** [set.has(key)] for a string key, the set given by its elements. *)
Definition set_has (elems : list json) (key : string) : bool :=
  existsb (fun e => match e with JStr s => s =? key | _ => false end) elems.

(** ToString, as [String(v)], template literals and [join] apply it. *)
Fixpoint to_string (v : json) : string :=
  match v with
  | JNull => "null"
  | JBool true => "true"
  | JBool false => "false"
  | JNum n => NilZero.string_of_int (Z.to_int n)
  | JStr s => s
  | JArr l =>
      String.concat ","
        (map (fun x => match x with JNull => "" | _ => to_string x end) l)
  | JObj _ => "[object Object]"
  end.

End JS.
Import JS.

(** ** The module [openapi.ts] *)

Module OpenApi.

(** [v ?? {}] and [v ?? []]: the value itself unless it is nullish. *)
Definition or_empty (v : value) : json :=
  match v with
  | None | Some JNull => JObj []
  | Some j => j
  end.

(** [v?.k]. *)
Definition opt_prop (v : value) (k : string) : value :=
  match v with
  | None | Some JNull => None
  | Some j => prop j k
  end.

(** [${v}] for a value that may be [undefined]. *)
Definition text (v : value) : string :=
  match v with
  | None => "undefined"
  | Some j => to_string j
  end.

Record ApiOperation : Type := {
  id : string;
  path : string;
  method : string;
  tags : value;
  summary : value;
  operation : json
}.

(** The rendered [type] is a string in every use the module makes of it:
    where [schemaToTypeText] returns the schema's own [type] value, its
    callers interpolate it, and the model converts it at once. *)
Record FieldInfo : Type := {
  name : string;
  type : string;
  required : bool;
  description : value
}.

Definition httpMethods : list string :=
  ["get"; "post"; "put"; "delete"; "patch"; "head"; "options"; "trace"].

Definition has (set : list string) (k : string) : bool :=
  existsb (String.eqb k) set.

(** *** Reference resolution *)

(** What [cur] holds while [resolveRef] walks a pointer: a value of the
    document ([None] for [undefined] and for anything that is not data, such
    as an inherited method), or one of the two prototype objects that the
    key [__proto__] reaches when it is not an own key. *)
Inductive cursor : Type :=
| Data (v : value)
| ObjectPrototype
| ArrayPrototype.

(** [!cur || typeof cur !== 'object'], negated. *)
Definition is_object (cur : cursor) : bool :=
  match cur with
  | Data v => truthy v && typeof_object v
  | ObjectPrototype | ArrayPrototype => true
  end.

(** [cur[p]] for an object [cur]. *)
Definition member (cur : cursor) (p : string) : cursor :=
  match cur with
  | Data (Some (JObj kvs)) =>
      match lookup p kvs with
      | Some v => Data (Some v)
      | None => if p =? "__proto__" then ObjectPrototype else Data None
      end
  | Data (Some (JArr l)) =>
      match at_index l p with
      | Some v => Data (Some v)
      | None => if p =? "__proto__" then ArrayPrototype else Data None
      end
  | ArrayPrototype => if p =? "__proto__" then ObjectPrototype else Data None
  | _ => Data None
  end.

(** The loop of [resolveRef]; [None] is its early [return undefined]. *)
Fixpoint follow (cur : cursor) (parts : list string) : option cursor :=
  match parts with
  | [] => Some cur
  | p :: r => if is_object cur then follow (member cur p) r else None
  end.

(** A prototype object has no own enumerable property: for the spread that
    consumes the result it is the empty object. *)
Definition resolveRef (doc : json) (ref : string) : value :=
  if negb (startsWith ref "#/") then None
  else
    let parts := split "/" (slice 2 ref) in
    match follow (Data (Some doc)) parts with
    | Some cur =>
        if is_object cur then
          match cur with
          | Data v => v
          | ObjectPrototype | ArrayPrototype => Some (JObj [])
          end
        else None
    | None => None
    end.

Definition resolveSchema (doc schema : json) : outcome json :=
  match schema with
  | JNull => Throw
  | _ =>
      let ref := prop schema "$ref" in
      if negb (truthy ref) then Ret schema
      else
        match ref with
        | Some (JStr ref) =>
            match resolveRef doc ref with
            | None => Ret schema
            | Some direct =>
                let merged := spread (spread [] direct) schema in
                Ret (JObj (obj_delete "$ref" merged))
            end
        | _ => Throw
        end
  end.

Definition refToName (ref : string) : string :=
  match lastIndexOf "/" ref with
  | Some idx => slice (S idx) ref
  | None => ref
  end.

(** *** Type rendering *)

Definition isArray (v : value) : bool :=
  match v with Some (JArr _) => true | _ => false end.

Fixpoint schemaToTypeText (fuel : nat) (doc : json) (schema : value)
  : outcome string :=
  match fuel with
  | O => OutOfFuel
  | S fuel =>
      match schema with
      | None => Ret "unknown"
      | Some sch =>
          if negb (truthy schema) then Ret "unknown"
          else
            s <- resolveSchema doc sch ;;
            let type := prop s "type" in
            let render := fun x => schemaToTypeText fuel doc (Some x) in
            if negb (truthy type) then
              if has_length (prop s "allOf") then
                xs <- as_array (prop s "allOf") ;;
                ts <- mapM render xs ;;
                Ret (String.concat " & " ts)
              else if has_length (prop s "oneOf") then
                xs <- as_array (prop s "oneOf") ;;
                ts <- mapM render xs ;;
                Ret (String.concat " | " ts)
              else if has_length (prop s "anyOf") then
                xs <- as_array (prop s "anyOf") ;;
                ts <- mapM render xs ;;
                Ret (String.concat " | " ts)
              else if truthy (prop s "properties") then Ret "object"
              else if truthy (prop s "$ref") then
                match prop s "$ref" with
                | Some (JStr ref) => Ret (refToName ref)
                | _ => Throw
                end
              else Ret "unknown"
            else if is_str type "integer"
                    && (is_str (prop s "format") "int64"
                        || is_str (prop s "format") "uint64")
            then Ret "string"
            else if is_str type "array" then
              t <- schemaToTypeText fuel doc (prop s "items") ;;
              Ret (t ++ "[]")
            else if is_str type "object" then
              if typeof_object (prop s "additionalProperties") then
                t <- schemaToTypeText fuel doc (prop s "additionalProperties") ;;
                Ret ("Record<string, " ++ t ++ ">")
              else Ret "object"
            else if is_str type "string" && isArray (prop s "enum")
                    && has_length (prop s "enum")
            then
              xs <- as_array (prop s "enum") ;;
              Ret ("string(enum: " ++ String.concat ", " (map to_string xs) ++ ")")
            else if truthy (prop s "format") then
              Ret (text type ++ "(" ++ text (prop s "format") ++ ")")
            else Ret (text type)
      end
  end.

(** *** Flattening *)

(** The two objects [walkSchema] mutates: the result array and the set of
    references, both created once by [flattenSchemaFields] and shared by
    every call of one run. *)
Record walk_state : Type := {
  out : list FieldInfo;
  visitedRefs : list string
}.

Definition push (f : FieldInfo) (st : walk_state) : walk_state :=
  {| out := (out st ++ [f])%list; visitedRefs := visitedRefs st |}.

Definition add (ref : string) (st : walk_state) : walk_state :=
  {| out := out st; visitedRefs := ref :: visitedRefs st |}.

(** A [for ... of] loop whose body updates the state. *)
Fixpoint forEach {A S : Type} (body : A -> S -> outcome S) (l : list A) (st : S)
  : outcome S :=
  match l with
  | [] => Ret st
  | x :: r => st' <- body x st ;; forEach body r st'
  end.

(** [prefix || '(root)']. *)
Definition rootName (prefix : string) : string :=
  if prefix =? "" then "(root)" else prefix.

(** [prefix ? `${prefix}.${key}` : key]. *)
Definition childName (prefix key : string) : string :=
  if prefix =? "" then key else prefix ++ "." ++ key.

(** [new Set(required ?? [])], by its elements. *)
Definition newSet (v : value) : outcome (list json) :=
  match v with
  | None | Some JNull => Ret []
  | _ => iterate v
  end.

Fixpoint walkSchema (fuel : nat) (doc : json) (schema : value)
  (prefix : string) (parentRequired : bool) (st : walk_state)
  : outcome walk_state :=
  match fuel with
  | O => OutOfFuel
  | S fuel =>
      match schema with
      | None => Ret st
      | Some sch =>
          if negb (truthy schema) then Ret st
          else if truthy (prop sch "$ref") then
            match prop sch "$ref" with
            | Some (JStr ref) =>
                if has (visitedRefs st) ref then Ret st
                else
                  let st := add ref st in
                  resolved <- resolveSchema doc sch ;;
                  walkSchema fuel doc (Some resolved) prefix parentRequired st
            | _ => Throw
            end
          else if has_length (prop sch "allOf") then
            parts <- iterate (prop sch "allOf") ;;
            forEach
              (fun part st =>
                 resolved <- resolveSchema doc part ;;
                 walkSchema fuel doc (Some resolved) prefix parentRequired st)
              parts st
          else if has_length (prop sch "oneOf") || has_length (prop sch "anyOf")
          then
            union <- as_array
                       (prop sch "oneOf" ?? prop sch "anyOf" ?? Some (JArr [])) ;;
            ts <- mapM (fun u => schemaToTypeText fuel doc (Some u)) union ;;
            Ret (push {| name := rootName prefix;
                         type := String.concat " | " ts;
                         required := parentRequired;
                         description := prop sch "description" |} st)
          else
            let type := prop sch "type" in
            if is_str type "object"
               || (negb (truthy type) && truthy (prop sch "properties"))
            then
              requiredSet <- newSet (prop sch "required") ;;
              let props := or_empty (prop sch "properties") in
              let propEntries := entries props in
              match propEntries with
              | [] =>
                  t <- schemaToTypeText fuel doc schema ;;
                  Ret (push {| name := rootName prefix;
                               type := t;
                               required := parentRequired;
                               description := prop sch "description" |} st)
              | _ =>
                  forEach
                    (fun kv st =>
                       let key := fst kv in
                       let child := snd kv in
                       let childPrefix := childName prefix key in
                       let required := parentRequired && set_has requiredSet key in
                       resolvedChild <- resolveSchema doc child ;;
                       let isLeaf :=
                         negb (truthy (prop resolvedChild "$ref"))
                         && negb (truthy (prop resolvedChild "properties"))
                         && negb (is_str (prop resolvedChild "type") "object")
                         && negb (is_str (prop resolvedChild "type") "array") in
                       if isLeaf then
                         t <- schemaToTypeText fuel doc (Some resolvedChild) ;;
                         Ret (push {| name := childPrefix;
                                      type := t;
                                      required := required;
                                      description :=
                                        prop resolvedChild "description" |} st)
                       else if is_str (prop resolvedChild "type") "array" then
                         t <- schemaToTypeText fuel doc (Some resolvedChild) ;;
                         Ret (push {| name := childPrefix;
                                      type := t;
                                      required := required;
                                      description :=
                                        prop resolvedChild "description" |} st)
                       else
                         walkSchema fuel doc (Some resolvedChild) childPrefix
                           required st)
                    propEntries st
              end
            else
              t <- schemaToTypeText fuel doc schema ;;
              Ret (push {| name := rootName prefix;
                           type := t;
                           required := parentRequired;
                           description := prop sch "description" |} st)
      end
  end.

Definition flattenSchemaFields (fuel : nat) (doc schema : json)
  : outcome (list FieldInfo) :=
  resolved <- resolveSchema doc schema ;;
  st <- walkSchema fuel doc (Some resolved) "" true
          {| out := []; visitedRefs := [] |} ;;
  Ret (out st).

(** *** The response section of a report *)

Definition firstResponse (responses : json) : value :=
  match keys responses with
  | [] => None
  | k :: _ => prop responses k
  end.

(** The content entry both extractors read:
    [content['application/json'] ?? content['*/*'] ?? content['application/*+json']]. *)
Definition jsonContent (content : json) : value :=
  prop content "application/json" ?? prop content "*/*"
    ?? prop content "application/*+json".

Definition extractRequestBodySchema (op : json) : value :=
  match prop op "requestBody" with
  | Some rb =>
      if negb (truthy (Some rb)) then None
      else opt_prop (jsonContent (or_empty (prop rb "content"))) "schema"
  | None => None
  end.

Definition extractResponseSchema (resp : json) : value :=
  let content := or_empty (prop resp "content") in
  let json := jsonContent content in
  if truthy (opt_prop json "schema") then opt_prop json "schema"
  else if truthy (prop resp "schema") then prop resp "schema"
  else None.

(** The local [preferred] of [buildResponseLines]. *)
Definition preferredResponse (responses : json) : value :=
  prop responses "200" ?? prop responses "201" ?? prop responses "default"
    ?? firstResponse responses.

Definition fieldLine (f : FieldInfo) : string :=
  "- " ++ name f ++ ": " ++ type f
    ++ (if required f then " (必填)" else "")
    ++ (if truthy (description f) then " " ++ text (description f) else "").

Definition buildResponseLines (fuel : nat) (doc op : json)
  : outcome (list string) :=
  match op with
  | JNull => Throw
  | _ =>
      let responses := or_empty (prop op "responses") in
      match preferredResponse responses with
      | Some preferred =>
          if negb (truthy (Some preferred)) then Ret []
          else
            match extractResponseSchema preferred with
            | Some schema =>
                fields <- flattenSchemaFields fuel doc schema ;;
                match fields with
                | [] =>
                    t <- schemaToTypeText fuel doc (Some schema) ;;
                    Ret ["- " ++ t]
                | _ => Ret (map fieldLine fields)
                end
            | None => Ret []
            end
      | None => Ret []
      end
  end.

(** *** Operations *)

Section Collation.

(** [a.localeCompare(b)]: negative, zero or positive. *)
Variable localeCompare : string -> string -> Z.

(** The comparator handed to [out.sort]. *)
Definition compareOperations (a b : ApiOperation) : Z :=
  if path a =? path b then localeCompare (method a) (method b)
  else localeCompare (path a) (path b).

(** [Array.prototype.sort] is stable; for a consistent comparator the
    result of a stable sort is unique, and insertion computes it. *)
Fixpoint insertSorted (x : ApiOperation) (l : list ApiOperation)
  : list ApiOperation :=
  match l with
  | [] => [x]
  | y :: r =>
      if (compareOperations x y <? 0)%Z then x :: y :: r
      else y :: insertSorted x r
  end.

Definition sort (l : list ApiOperation) : list ApiOperation :=
  fold_left (fun acc x => insertSorted x acc) l [].

(** The body of the inner loop of [buildOperations] for one key of a path
    entry. *)
Definition eachMethod (pathKey : string) (kv : string * json)
  (out : list ApiOperation) : outcome (list ApiOperation) :=
  let method := fst kv in
  let opUnknown := snd kv in
  if negb (has httpMethods (toLowerCase method)) then Ret out
  else
    match opUnknown with
    | JNull => Throw
    | _ =>
        let operation := opUnknown in
        let id :=
          if truthy (prop operation "operationId")
          then method ++ ":" ++ pathKey ++ ":" ++ text (prop operation "operationId")
          else method ++ ":" ++ pathKey in
        Ret (out ++ [{| id := id;
                        path := pathKey;
                        method := toLowerCase method;
                        tags := prop operation "tags";
                        summary := prop operation "summary";
                        operation := operation |}])%list
    end.

(** The body of the outer loop, for one entry of [paths]. *)
Definition eachPath (kv : string * json) (out : list ApiOperation)
  : outcome (list ApiOperation) :=
  let pathKey := fst kv in
  let methods := snd kv in
  if negb (truthy (Some methods)) || negb (typeof_object (Some methods))
  then Ret out
  else forEach (eachMethod pathKey) (entries methods) out.

Definition buildOperations (doc : json) : outcome (list ApiOperation) :=
  match doc with
  | JNull => Throw
  | _ =>
      let paths := or_empty (prop doc "paths") in
      out <- forEach eachPath (entries paths) [] ;;
      Ret (sort out)
  end.

End Collation.

End OpenApi.

(** ** The report builder of [openapi.ts] *)

Module Report.

Import OpenApi.

(** *** Text

    The text of a report is held as UTF-8, as the literals of the source
    are in this file. *)

Definition upper_ascii (c : ascii) : ascii :=
  let n := N_of_ascii c in
  if ((97 <=? n) && (n <=? 122))%N then ascii_of_N (n - 32) else c.

(** [s.toUpperCase()] on the ASCII letters, which is all a method name made
    by [buildOperations] holds. *)
Fixpoint toUpperCase (s : string) : string :=
  match s with
  | EmptyString => EmptyString
  | String c r => String (upper_ascii c) (toUpperCase r)
  end.

Definition newline : string := String (ascii_of_nat 10) EmptyString.

(** The white space and line terminators of one byte: tab, line feed,
    vertical tab, form feed, carriage return, space. *)
Definition space1 (c : ascii) : bool :=
  let n := N_of_ascii c in
  (((9 <=? n) && (n <=? 13)) || (n =? 32))%N.

(** U+00A0, as its two bytes. *)
Definition space2 (a b : ascii) : bool :=
  ((N_of_ascii a =? 194) && (N_of_ascii b =? 160))%N.

(** The white space and line terminators of three bytes: U+1680,
    U+2000 to U+200A, U+2028, U+2029, U+202F, U+205F, U+3000, U+FEFF. *)
Definition space3 (a b c : ascii) : bool :=
  let x := N_of_ascii a in
  let y := N_of_ascii b in
  let z := N_of_ascii c in
  (((x =? 225) && (y =? 154) && (z =? 128))
   || ((x =? 226) && (y =? 128)
       && (((128 <=? z) && (z <=? 138)) || (z =? 168) || (z =? 169)
           || (z =? 175)))
   || ((x =? 226) && (y =? 129) && (z =? 159))
   || ((x =? 227) && (y =? 128) && (z =? 128))
   || ((x =? 239) && (y =? 187) && (z =? 191)))%N.

(** White space dropped from the front of a text given last byte first. *)
Fixpoint dropSpaces (l : list ascii) : list ascii :=
  match l with
  | [] => []
  | c :: r =>
      if space1 c then dropSpaces r
      else
        match r with
        | [] => l
        | b :: r' =>
            if space2 b c then dropSpaces r'
            else
              match r' with
              | [] => l
              | a :: r'' => if space3 a b c then dropSpaces r'' else l
              end
        end
  end.

(** [s.trimEnd()]. *)
Definition trimEnd (s : string) : string :=
  string_of_list_ascii (rev (dropSpaces (rev (list_ascii_of_string s)))).

(** [xs.join(sep)]: [null] joins as the empty text. *)
Definition join (sep : string) (xs : list json) : string :=
  String.concat sep
    (map (fun x => match x with JNull => "" | _ => to_string x end) xs).

(** *** Request lines *)

(** The members every object literal inherits: reading one of these keys
    from [{}] gives a function, or the prototype itself, not [undefined]. *)
Definition objectPrototypeNames : list string :=
  ["constructor"; "hasOwnProperty"; "isPrototypeOf"; "propertyIsEnumerable";
   "toLocaleString"; "toString"; "valueOf"; "__proto__";
   "__defineGetter__"; "__defineSetter__"; "__lookupGetter__";
   "__lookupSetter__"].

(** The values a [for ... of] over [v ?? []] visits. *)
Definition elements (v : value) : outcome (list json) :=
  match v with
  | None | Some JNull => Ret []
  | _ => iterate v
  end.

(** The object [{ type: p.type, format: p.format, items: p.items }] holds
    its three keys even when a value is [undefined]; such a key reads as a
    missing one, and the object is only ever read. *)
Definition field (k : string) (v : value) : list (string * json) :=
  match v with
  | Some j => [(k, j)]
  | None => []
  end.

Definition normalizeParameterSchema (p : json) : value :=
  if truthy (prop p "schema") then prop p "schema"
  else if truthy (prop p "type") then
    Some (JObj (field "type" (prop p "type")
                ++ field "format" (prop p "format")
                ++ field "items" (prop p "items")))
  else None.

(** The local [groups]: its own properties in creation order, each with
    the array it holds. *)
Definition groups : Type := list (string * list json).

(** [groups[key].push(p)] after [groups[key] = groups[key] ?? []], for a
    key that is not inherited. *)
Fixpoint pushTo (key : string) (p : json) (gs : groups) : groups :=
  match gs with
  | [] => [(key, [p])]
  | (k, ps) :: r =>
      if k =? key then (k, (ps ++ [p])%list) :: r
      else (k, ps) :: pushTo key p r
  end.

(** [p.in ?? 'unknown'], as the property key it is used for. *)
Definition locationOf (p : json) : string :=
  text (prop p "in" ?? Some (JStr "unknown")).

(** The body of the grouping loop.  Under an inherited key [groups[key]]
    is not nullish, nothing is stored in its place, and the value found
    there has no [push]. *)
Definition groupStep (p : json) (gs : groups) : outcome groups :=
  match p with
  | JNull => Throw
  | _ =>
      let key := locationOf p in
      if has objectPrototypeNames key then Throw
      else Ret (pushTo key p gs)
  end.

Definition groupParameters (params : list json) : outcome groups :=
  forEach groupStep params [].

Fixpoint insertKey (k : string) (l : list string) : list string :=
  match l with
  | [] => [k]
  | y :: r => if String.ltb k y then k :: y :: r else y :: insertKey k r
  end.

(** [keys.sort()] with the default order: element by element, which on
    UTF-8 is the order of the code points.  The source compares UTF-16
    code units, which is the same order except between a character above
    U+FFFF and one from U+E000 to U+FFFF. *)
Definition sortKeys (l : list string) : list string :=
  fold_left (fun acc k => insertKey k acc) l [].

Definition groupOf (key : string) (gs : groups) : list json :=
  match find (fun g => fst g =? key) gs with
  | Some g => snd g
  | None => []
  end.

Definition parameterLine (fuel : nat) (doc p : json) : outcome string :=
  let name := text (prop p "name" ?? Some (JStr "(unnamed)")) in
  let required := truthy (prop p "required") in
  let schema := normalizeParameterSchema p in
  typeText <- schemaToTypeText fuel doc schema ;;
  let desc :=
    if truthy (prop p "description") then " " ++ text (prop p "description")
    else "" in
  Ret ("  - " ++ name ++ ": " ++ typeText
       ++ (if required then " (必填)" else "") ++ desc).

(** The lines of one location. *)
Definition groupLines (fuel : nat) (doc : json) (gs : groups) (key : string)
  (lines : list string) : outcome (list string) :=
  forEach
    (fun p lines =>
       line <- parameterLine fuel doc p ;;
       Ret (lines ++ [line])%list)
    (groupOf key gs) (lines ++ [("- " ++ key ++ ":")%string])%list.

Definition bodyFieldLine (f : FieldInfo) : string :=
  "  - " ++ name f ++ ": " ++ type f
    ++ (if required f then " (必填)" else "")
    ++ (if truthy (description f) then " " ++ text (description f) else "").

Definition buildRequestLines (fuel : nat) (doc op : json)
  : outcome (list string) :=
  match op with
  | JNull => Throw
  | _ =>
      params <- elements (prop op "parameters") ;;
      gs <- groupParameters params ;;
      lines <- forEach (groupLines fuel doc gs) (sortKeys (map fst gs)) [] ;;
      match extractRequestBodySchema op with
      | Some bodySchema =>
          if negb (truthy (Some bodySchema)) then Ret lines
          else
            fields <- flattenSchemaFields fuel doc bodySchema ;;
            let lines := (lines ++ ["- body:"])%list in
            match fields with
            | [] =>
                t <- schemaToTypeText fuel doc (Some bodySchema) ;;
                Ret (lines ++ [("  - " ++ t)%string])%list
            | _ => Ret (lines ++ map bodyFieldLine fields)%list
            end
      | None => Ret lines
      end
  end.

(** *** The report *)

(** The body of the loop of [buildExportText]: the lines of one
    operation, added to [lines]. *)
Definition exportBlock (fuel : nat) (doc : json) (op : ApiOperation)
  (lines : list string) : outcome (list string) :=
  let lines :=
    (lines ++ [("[" ++ toUpperCase (method op) ++ "] " ++ path op)%string])%list in
  let lines :=
    if truthy (summary op)
    then (lines ++ [("摘要: " ++ text (summary op))%string])%list
    else lines in
  lines <- (if has_length (tags op) then
              ts <- as_array (tags op) ;;
              Ret (lines ++ [("标签: " ++ join ", " ts)%string])%list
            else Ret lines) ;;
  reqLines <- buildRequestLines fuel doc (operation op) ;;
  let lines := (lines ++ ["请求参数:"])%list in
  let lines :=
    match reqLines with
    | [] => (lines ++ ["- 无"])%list
    | _ => (lines ++ reqLines)%list
    end in
  respLines <- buildResponseLines fuel doc (operation op) ;;
  let lines := (lines ++ ["响应参数:"])%list in
  let lines :=
    match respLines with
    | [] => (lines ++ ["- 无"])%list
    | _ => (lines ++ respLines)%list
    end in
  Ret (lines ++ [""])%list.

Definition buildExportText (fuel : nat) (doc : json) (ops : list ApiOperation)
  : outcome string :=
  match ops with
  | [] => Ret ""
  | _ =>
      lines <- forEach (exportBlock fuel doc) ops [] ;;
      Ret (trimEnd (String.concat newline lines))
  end.

End Report.

(** ** The selection state of the component [App] *)

Module App.

Import OpenApi Report.

(** The state [selected]: the own properties of an object from operation
    identifier to boolean. *)
Definition selection : Type := list (string * json).

(** [Boolean(selected[id])].  A key that is not an own property is looked
    up among the inherited members, which are all truthy. *)
Definition isSelected (selected : selection) (id : string) : bool :=
  match lookup id selected with
  | Some v => truthy (Some v)
  | None => has objectPrototypeNames id
  end.

(** The updater of [toggle]: [{ ...prev, [opId]: checked }]. *)
Definition toggle (opId : string) (checked : bool) (prev : selection)
  : selection :=
  obj_set opId (JBool checked) (spread [] (JObj prev)).

(** [next[k] = v] for a boolean [v].  The key [__proto__], when it is not
    an own property, reaches the inherited setter, which ignores a
    boolean. *)
Definition assign (k : string) (v : json) (next : selection) : selection :=
  match lookup k next with
  | None => if k =? "__proto__" then next else obj_set k v next
  | Some _ => obj_set k v next
  end.

(** The updater of [setVisibleChecked], given the operations on display. *)
Definition setVisibleChecked (visibleOperations : list ApiOperation)
  (checked : bool) (prev : selection) : selection :=
  fold_left (fun next op => assign (id op) (JBool checked) next)
    visibleOperations (spread [] (JObj prev)).

(** [Object.values(selected).filter(Boolean).length]. *)
Definition selectedCount (selected : selection) : nat :=
  List.length (filter (fun kv => truthy (Some (snd kv))) (enumerate selected)).

(** The local [chosen] of [onExport]. *)
Definition chosen (operations : list ApiOperation) (selected : selection)
  : list ApiOperation :=
  filter (fun op => isSelected selected (id op)) operations.

(** [onExport], with the memoised [operations] of the same document: the
    text it stores, or the text already there when no document is
    loaded. *)
Definition onExport (fuel : nat) (localeCompare : string -> string -> Z)
  (doc : value) (selected : selection) (exportText : string)
  : outcome string :=
  match doc with
  | Some d =>
      if negb (truthy doc) then Ret exportText
      else
        operations <- buildOperations localeCompare d ;;
        buildExportText fuel d (chosen operations selected)
  | None => Ret exportText
  end.

End App.

(** ** The resolver, with objects held by reference

    [resolveSchema] builds an object and deletes a key of it.  Whether that
    writes to the document or to the node it is given is a question about
    the identity of objects, which the trees of the other modules do not
    have.  Here an object is an address of a heap, a property holds a
    primitive or an address, and a write is a write to the heap. *)

Module Heap.

Inductive hval : Type :=
| HNull
| HBool (b : bool)
| HNum (n : Z)
| HStr (s : string)
| HRef (address : nat).

(** An object or an array, by its own properties in creation order; the
    own properties of an array are its elements, keyed by their indices. *)
Record object : Type := {
  isArray : bool;
  own : list (string * hval)
}.

Definition heap : Type := list object.

Definition truthy (v : option hval) : bool :=
  match v with
  | None | Some HNull => false
  | Some (HBool b) => b
  | Some (HNum n) => negb (n =? 0)%Z
  | Some (HStr s) => negb (s =? "")
  | Some (HRef _) => true
  end.

Fixpoint get (k : string) (kvs : list (string * hval)) : option hval :=
  match kvs with
  | [] => None
  | (k', v) :: r => if k' =? k then Some v else get k r
  end.

(** [o[k] = v] on the own properties: an existing key keeps its place. *)
Fixpoint set (k : string) (v : hval) (kvs : list (string * hval))
  : list (string * hval) :=
  match kvs with
  | [] => [(k, v)]
  | (k', v') :: r => if k' =? k then (k, v) :: r else (k', v') :: set k v r
  end.

(** [delete o[k]] on the own properties. *)
Definition remove (k : string) (kvs : list (string * hval))
  : list (string * hval) :=
  filter (fun kv => negb (fst kv =? k)) kvs.

Fixpoint insert_by_index (e : N * (string * hval))
  (l : list (N * (string * hval))) : list (N * (string * hval)) :=
  match l with
  | [] => [e]
  | e' :: r =>
      if (fst e <? fst e')%N then e :: e' :: r
      else e' :: insert_by_index e r
  end.

(** The own properties in the order a spread copies them: array-index
    keys in ascending order, then the other keys in creation order. *)
Definition enumerate (kvs : list (string * hval)) : list (string * hval) :=
  map snd
    (fold_right
       (fun kv acc =>
          match array_index (fst kv) with
          | Some n => insert_by_index (n, kv) acc
          | None => acc
          end) [] kvs)
    ++ filter (fun kv => negb (is_index_key (fst kv))) kvs.

(** The object at an address, changed by [f]; the other objects stay. *)
Fixpoint update (a : nat) (f : object -> object) (h : heap) : heap :=
  match h, a with
  | [], _ => []
  | o :: r, O => f o :: r
  | o :: r, S a' => o :: update a' f r
  end.

Definition setProperty (a : nat) (k : string) (v : hval) (h : heap) : heap :=
  update a (fun o => {| isArray := isArray o; own := set k v (own o) |}) h.

Definition deleteProperty (a : nat) (k : string) (h : heap) : heap :=
  update a (fun o => {| isArray := isArray o; own := remove k (own o) |}) h.

(** What [cur] holds while [resolveRef] walks a pointer: a value, or one
    of the two prototype objects. *)
Inductive cursor : Type :=
| At (v : option hval)
| ObjectPrototype
| ArrayPrototype.

(** [!cur || typeof cur !== 'object'], negated. *)
Definition is_object (cur : cursor) : bool :=
  match cur with
  | At (Some (HRef _)) => true
  | At _ => false
  | ObjectPrototype | ArrayPrototype => true
  end.

(** [cur[p]] for an object [cur].  What is inherited and is not an object
    (a method, the length of an array) ends the walk as [undefined]
    does. *)
Definition member (h : heap) (cur : cursor) (p : string) : cursor :=
  match cur with
  | At (Some (HRef a)) =>
      match nth_error h a with
      | Some o =>
          match get p (own o) with
          | Some v => At (Some v)
          | None =>
              if p =? "__proto__"
              then if isArray o then ArrayPrototype else ObjectPrototype
              else At None
          end
      | None => At None
      end
  | ArrayPrototype => if p =? "__proto__" then ObjectPrototype else At None
  | _ => At None
  end.

Fixpoint follow (h : heap) (cur : cursor) (parts : list string)
  : option cursor :=
  match parts with
  | [] => Some cur
  | p :: r => if is_object cur then follow h (member h cur p) r else None
  end.

Definition resolveRef (h : heap) (doc : hval) (ref : string) : option cursor :=
  if negb (startsWith ref "#/") then None
  else
    match follow h (At (Some doc)) (split "/" (slice 2 ref)) with
    | Some cur => if is_object cur then Some cur else None
    | None => None
    end.

(** The own enumerable properties a spread copies from [cur]: those of an
    object of the heap; a prototype has none. *)
Definition spreadable (h : heap) (cur : cursor) : list (string * hval) :=
  match cur with
  | At (Some (HRef a)) =>
      match nth_error h a with
      | Some o => enumerate (own o)
      | None => []
      end
  | _ => []
  end.

(** [target[k] = v] for each property of [source], in order. *)
Definition assignAll (target : nat) (source : list (string * hval)) (h : heap)
  : heap :=
  fold_left (fun h kv => setProperty target (fst kv) (snd kv) h) source h.

(** [schema.$ref]: an own property of an object, [undefined] on a
    primitive. *)
Definition refOf (h : heap) (schema : hval) : option hval :=
  match schema with
  | HRef a =>
      match nth_error h a with
      | Some o => get "$ref" (own o)
      | None => None
      end
  | _ => None
  end.

(** [resolveSchema]: the heap after the call and the value returned.  The
    object literal [{ ...direct, ...schema }] is a new object, at the
    first free address, that receives the properties of [direct] and then
    those of [schema]; [delete merged.$ref] is a write to it. *)
Definition resolveSchema (h : heap) (doc schema : hval)
  : outcome (heap * hval) :=
  match schema with
  | HNull => Throw
  | _ =>
      let ref := refOf h schema in
      if negb (truthy ref) then Ret (h, schema)
      else
        match ref with
        | Some (HStr ref) =>
            match resolveRef h doc ref with
            | None => Ret (h, schema)
            | Some direct =>
                let merged := List.length h in
                let h := (h ++ [{| isArray := false; own := [] |}])%list in
                let h := assignAll merged (spreadable h direct) h in
                let h := assignAll merged (spreadable h (At (Some schema))) h in
                let h := deleteProperty merged "$ref" h in
                Ret (h, HRef merged)
            end
        | _ => Throw
        end
  end.

End Heap.

Import OpenApi.

(** ** Definitions of the specification

    What the properties below are stated with: the entries and records of a
    document, the order of the result, the containment chain of a field,
    and the relations between two runs. *)

(** Not [undefined] and not [null]: what [??] keeps. *)
Definition present (v : value) : bool := negb (nullish v).

Definition isNull (j : json) : bool :=
  match j with JNull => true | _ => false end.

(** A key of a path entry that names an HTTP method, whatever its case. *)
Definition recognised (kv : string * json) : bool :=
  has httpMethods (toLowerCase (fst kv)).

(** The (path, method key, operation) entries under one path. *)
Definition methodsOf (kv : string * json) : list (string * string * json) :=
  if negb (truthy (Some (snd kv))) || negb (typeof_object (Some (snd kv)))
  then []
  else map (fun mo => (fst kv, fst mo, snd mo))
         (filter recognised (entries (snd kv))).

(** The (path, method key, operation) entries of a document, in the order
    its objects enumerate them. *)
Definition methodEntries (doc : json) : list (string * string * json) :=
  flat_map methodsOf (entries (or_empty (prop doc "paths"))).

(** The record the specification describes for one entry: the identifier is
    [method:path], followed by [:operationId] when the operation has one,
    the method being the key as the document spells it; the [method]
    attribute is that key in lower case. *)
Definition recordOf (e : string * string * json) : ApiOperation :=
  let '(pathKey, methodKey, operation) := e in
  {| id := if truthy (prop operation "operationId")
           then methodKey ++ ":" ++ pathKey ++ ":"
                ++ text (prop operation "operationId")
           else methodKey ++ ":" ++ pathKey;
     path := pathKey;
     method := toLowerCase methodKey;
     tags := prop operation "tags";
     summary := prop operation "summary";
     operation := operation |}.

(** What the sort compares: the path and the lower-cased method. *)
Definition entryKey (e : string * string * json) : string * string :=
  (fst (fst e), toLowerCase (snd (fst e))).

Definition nullOperation (e : string * string * json) : bool := isNull (snd e).

(** [a] is not after [b] for the collation [lc]: by path, and by method on
    the same path. *)
Definition inOrder (lc : string -> string -> Z) (a b : ApiOperation) : Prop :=
  (path a = path b /\ (lc (method a) (method b) <= 0)%Z)
  \/ (path a <> path b /\ (lc (path a) (path b) <= 0)%Z).

(** A collation for the examples: element by element. *)
Definition codeUnitCompare (a b : string) : Z :=
  match String.compare a b with
  | Lt => (-1)%Z
  | Eq => 0%Z
  | Gt => 1%Z
  end.

(** The containment chain of a node: for every enclosing object between
    the root and the node, the elements of that object's [required] list
    and the property name under which the walk left it. *)
Definition containment : Type := list (list json * string).

(** The rule of the specification: a field is required when the root is
    and every enclosing object lists the property on the path to it. *)
Definition requiredOf (rootRequired : bool) (chain : containment) : bool :=
  rootRequired && forallb (fun e => set_has (fst e) (snd e)) chain.

(** The walk of [walkSchema], carrying the containment chain in place of
    the flag and applying the rule of the specification where a descriptor
    is emitted. *)
Fixpoint walkChain (fuel : nat) (doc : json) (schema : value)
  (prefix : string) (rootRequired : bool) (chain : containment)
  (st : walk_state) : outcome walk_state :=
  match fuel with
  | O => OutOfFuel
  | S fuel =>
      match schema with
      | None => Ret st
      | Some sch =>
          if negb (truthy schema) then Ret st
          else if truthy (prop sch "$ref") then
            match prop sch "$ref" with
            | Some (JStr ref) =>
                if has (visitedRefs st) ref then Ret st
                else
                  let st := add ref st in
                  resolved <- resolveSchema doc sch ;;
                  walkChain fuel doc (Some resolved) prefix rootRequired chain st
            | _ => Throw
            end
          else if has_length (prop sch "allOf") then
            parts <- iterate (prop sch "allOf") ;;
            forEach
              (fun part st =>
                 resolved <- resolveSchema doc part ;;
                 walkChain fuel doc (Some resolved) prefix rootRequired chain st)
              parts st
          else if has_length (prop sch "oneOf") || has_length (prop sch "anyOf")
          then
            union <- as_array
                       (prop sch "oneOf" ?? prop sch "anyOf" ?? Some (JArr [])) ;;
            ts <- mapM (fun u => schemaToTypeText fuel doc (Some u)) union ;;
            Ret (push {| name := rootName prefix;
                         type := String.concat " | " ts;
                         required := requiredOf rootRequired chain;
                         description := prop sch "description" |} st)
          else
            let type := prop sch "type" in
            if is_str type "object"
               || (negb (truthy type) && truthy (prop sch "properties"))
            then
              requiredSet <- newSet (prop sch "required") ;;
              let props := or_empty (prop sch "properties") in
              let propEntries := entries props in
              match propEntries with
              | [] =>
                  t <- schemaToTypeText fuel doc schema ;;
                  Ret (push {| name := rootName prefix;
                               type := t;
                               required := requiredOf rootRequired chain;
                               description := prop sch "description" |} st)
              | _ =>
                  forEach
                    (fun kv st =>
                       let key := fst kv in
                       let child := snd kv in
                       let childPrefix := childName prefix key in
                       let inner := (chain ++ [(requiredSet, key)])%list in
                       resolvedChild <- resolveSchema doc child ;;
                       let isLeaf :=
                         negb (truthy (prop resolvedChild "$ref"))
                         && negb (truthy (prop resolvedChild "properties"))
                         && negb (is_str (prop resolvedChild "type") "object")
                         && negb (is_str (prop resolvedChild "type") "array") in
                       if isLeaf then
                         t <- schemaToTypeText fuel doc (Some resolvedChild) ;;
                         Ret (push {| name := childPrefix;
                                      type := t;
                                      required := requiredOf rootRequired inner;
                                      description :=
                                        prop resolvedChild "description" |} st)
                       else if is_str (prop resolvedChild "type") "array" then
                         t <- schemaToTypeText fuel doc (Some resolvedChild) ;;
                         Ret (push {| name := childPrefix;
                                      type := t;
                                      required := requiredOf rootRequired inner;
                                      description :=
                                        prop resolvedChild "description" |} st)
                       else
                         walkChain fuel doc (Some resolvedChild) childPrefix
                           rootRequired inner st)
                    propEntries st
              end
            else
              t <- schemaToTypeText fuel doc schema ;;
              Ret (push {| name := rootName prefix;
                           type := t;
                           required := requiredOf rootRequired chain;
                           description := prop sch "description" |} st)
      end
  end.

Definition optional (fields : list FieldInfo) : Prop :=
  Forall (fun f => required f = false) fields.

(** [a] is [b] unless the budget ran out before [a] was known. *)
Definition below {A : Type} (a b : outcome A) : Prop := a = OutOfFuel \/ a = b.

(** Two runs agree on the fields: the second returns whenever the first
    does, with the same result array, and raises whenever the first
    does. *)
Definition sameFields (o1 o2 : outcome walk_state) : Prop :=
  match o1 with
  | Ret st1 => exists st2, o2 = Ret st2 /\ out st2 = out st1
  | Throw => o2 = Throw
  | OutOfFuel => True
  end.

(** A walk keeps [P] on the result array. *)
Definition keeps (P : list FieldInfo -> Prop) (o : outcome walk_state) : Prop :=
  match o with
  | Ret st => P (out st)
  | _ => True
  end.

(** A run keeps the references that were marked when it started. *)
Definition marksKept (st : walk_state) (o : outcome walk_state) : Prop :=
  match o with
  | Ret st' => incl (visitedRefs st) (visitedRefs st')
  | _ => True
  end.

Import Report App.

(** ** Further definitions of the properties *)

(** The character [c] does not occur in [s]. *)
Fixpoint lacks (c : ascii) (s : string) : bool :=
  match s with
  | EmptyString => true
  | String d r => negb (Ascii.eqb d c) && lacks c r
  end.

(** The pointer that spells a path of keys: [#/k1/k2/.../kn]. *)
Definition pointer (keys : list string) : string :=
  "#/" ++ String.concat "/" keys.

(** The value stored under a path of own keys of nested objects. *)
Fixpoint getPath (v : json) (keys : list string) : value :=
  match keys with
  | [] => Some v
  | k :: r =>
      match v with
      | JObj kvs =>
          match lookup k kvs with
          | Some x => getPath x r
          | None => None
          end
      | _ => None
      end
  end.

(** An object or an array: what [resolveRef] accepts as a definition. *)
Definition isObject (v : json) : bool :=
  match v with
  | JObj _ | JArr _ => true
  | _ => false
  end.

(** A field named for the node walked under [prefix], or for something
    below it. *)
Definition under (prefix : string) (f : FieldInfo) : Prop :=
  name f = rootName prefix \/ exists key, name f = childName prefix key.

(** [l] is [old] followed by fields under [prefix]. *)
Definition extends (prefix : string) (old l : list FieldInfo) : Prop :=
  exists new, l = (old ++ new)%list /\ Forall (under prefix) new.

(** A parameter the grouping loop of [buildRequestLines] can store: not
    [null], and with a location that is no inherited member of the object
    it is stored in. *)
Definition groupable (p : json) : bool :=
  negb (isNull p) && negb (has objectPrototypeNames (locationOf p)).

(** The parameters declared for one location, in declaration order. *)
Definition parametersIn (key : string) (params : list json) : list json :=
  filter (fun p => locationOf p =? key) params.

(** The parameter lines as the report lays them out: for each location of
    [keys] a header, then one line per parameter declared there. *)
Definition parameterSection (fuel : nat) (doc : json) (params : list json)
  (keys : list string) : outcome (list string) :=
  blocks <- mapM
              (fun key =>
                 ls <- mapM (parameterLine fuel doc) (parametersIn key params) ;;
                 Ret (("- " ++ key ++ ":") :: ls))
              keys ;;
  Ret (List.concat blocks).

(** The body lines as the report lays them out: nothing without a body
    schema; else the header [- body:] and one line per field of the
    flattened schema, or the rendered type when it has no field. *)
Definition bodySection (fuel : nat) (doc op : json) : outcome (list string) :=
  match extractRequestBodySchema op with
  | Some bodySchema =>
      if truthy (Some bodySchema) then
        fields <- flattenSchemaFields fuel doc bodySchema ;;
        match fields with
        | [] =>
            t <- schemaToTypeText fuel doc (Some bodySchema) ;;
            Ret ["- body:"; "  - " ++ t]
        | _ => Ret ("- body:" :: map bodyFieldLine fields)
        end
      else Ret []
  | None => Ret []
  end.

(** The header line of an operation's block. *)
Definition headerLine (op : ApiOperation) : string :=
  "[" ++ toUpperCase (method op) ++ "] " ++ path op.

(** A byte that occurs in the encoding of some white space character: a
    one-byte white space, or a byte of a longer sequence. *)
Definition spaceByte (c : ascii) : bool :=
  (space1 c || (128 <=? N_of_ascii c)%N).

(** A property the flattener does not descend into and has not to
    resolve: no reference, no properties of its own, and not typed as an
    object. *)
Definition plainProperty (child : json) : bool :=
  negb (isNull child)
  && negb (truthy (prop child "$ref"))
  && negb (truthy (prop child "properties"))
  && negb (is_str (prop child "type") "object").

(** The field of a property of the root object, given the elements of the
    object's [required] list. *)
Definition propertyField (fuel : nat) (doc : json) (requiredSet : list json)
  (kv : string * json) : outcome FieldInfo :=
  t <- schemaToTypeText fuel doc (Some (snd kv)) ;;
  Ret {| name := fst kv;
         type := t;
         required := set_has requiredSet (fst kv);
         description := prop (snd kv) "description" |}.

(** The second run does what the first does, on a result array that holds
    the fields [pre] before those of the first: it returns whenever the
    first does, with [pre] followed by the same fields, and raises whenever
    the first does. *)
Definition continues (pre : list FieldInfo) (o1 o2 : outcome walk_state)
  : Prop :=
  match o1 with
  | Ret st1 => exists st2, o2 = Ret st2 /\ out st2 = (pre ++ out st1)%list
  | Throw => o2 = Throw
  | OutOfFuel => True
  end.

(** A value [new Set(...)] cannot be built from: neither nullish nor an
    array or a string. *)
Definition notIterable (r : json) : bool :=
  match r with
  | JBool _ | JNum _ | JObj _ => true
  | _ => false
  end.

(** A collation that [Array.prototype.sort] can be given: the sign of
    [lc b a] is the opposite of the sign of [lc a b], and the order is
    transitive.  The language requires as much of [localeCompare]; it does
    not require that only equal strings compare as equal. *)
Definition consistent (lc : string -> string -> Z) : Prop :=
  (forall a b, (0 <= lc a b)%Z -> (lc b a <= 0)%Z)
  /\ (forall a b, (lc a b <= 0)%Z -> (0 <= lc b a)%Z)
  /\ (forall a b c, (lc a b <= 0)%Z -> (lc b c <= 0)%Z -> (lc a c <= 0)%Z).

(** The collation finds no two different strings of [l] equal. *)
Definition tellsApart (lc : string -> string -> Z) (l : list string) : Prop :=
  forall a b, In a l -> In b l -> lc a b = 0%Z -> a = b.

(** A value that is interpolated as it stands: a string, or a falsy value
    where only a truthy one is interpolated. *)
Definition plainText (v : value) : bool :=
  negb (truthy v) || match v with Some (JStr _) => true | _ => false end.

(** A text of ASCII characters: its bytes are its UTF-16 code units. *)
Definition asciiText (s : string) : bool :=
  forallb (fun c => (N_of_ascii c <? 128)%N) (list_ascii_of_string s).

(** A parameter whose location is absent, [null] or an ASCII name. *)
Definition namedLocation (p : json) : bool :=
  match prop p "in" with
  | None | Some JNull => true
  | Some (JStr s) => asciiText s
  | _ => false
  end.

(** What the document holds under a path of own keys, through objects and
    arrays. *)
Fixpoint valueAt (v : json) (keys : list string) : value :=
  match keys with
  | [] => Some v
  | k :: r =>
      match v with
      | JObj _ | JArr _ =>
          match prop v k with
          | Some x => valueAt x r
          | None => None
          end
      | _ => None
      end
  end.

(** The segments of a pointer [#/k1/.../kn]. *)
Definition segments (ref : string) : list string := split "/" (slice 2 ref).

(** The identifier of the specification, for an entry whose [operationId]
    is a string or is absent: the method key and the path, followed by
    the [operationId] when it is not empty. *)
Definition identifierOf (e : string * string * json) : string :=
  let '(pathKey, methodKey, operation) := e in
  match prop operation "operationId" with
  | Some (JStr o) =>
      if o =? "" then methodKey ++ ":" ++ pathKey
      else methodKey ++ ":" ++ pathKey ++ ":" ++ o
  | _ => methodKey ++ ":" ++ pathKey
  end.

(** ** Sample documents *)

Module Samples.

(** A document whose only content is the table [components.schemas]. *)
Definition components (schemas : list (string * json)) : json :=
  JObj [("components", JObj [("schemas", JObj schemas)])].

(** [{ $ref: '#/components/schemas/<name>' }]. *)
Definition ref (name : string) : json :=
  JObj [("$ref", JStr ("#/components/schemas/" ++ name))].

Definition string_t : json := JObj [("type", JStr "string")].
Definition integer_t : json := JObj [("type", JStr "integer")].

Definition object_t (required : list string) (properties : list (string * json))
  : json :=
  JObj [("type", JStr "object");
        ("required", JArr (map JStr required));
        ("properties", JObj properties)].

(** [Alias] is a reference to [Name], a chain of two references. *)
Definition chain_doc : json :=
  components [("Alias", ref "Name"); ("Name", string_t)].

(** [Named] carries a description and a type. *)
Definition named_doc : json :=
  components
    [("Named", JObj [("type", JStr "string"); ("description", JStr "a name")])].

(** A reference with a sibling keyword. *)
Definition ref_with_description : list (string * json) :=
  [("$ref", JStr "#/components/schemas/Named"); ("description", JStr "mine")].

(** A reference into another file, and one to a schema the document does
    not hold. *)
Definition external_ref : list (string * json) :=
  [("$ref", JStr "common.json#/Named")].

Definition missing_ref : list (string * json) :=
  [("$ref", JStr "#/components/schemas/Missing")].

(** The schema [A] of the specification's cycle example: an object whose
    property [self] is a reference to [A] itself. *)
Definition A : json :=
  JObj [("type", JStr "object"); ("properties", JObj [("self", ref "A")])].

Definition self_doc : json := components [("A", A)].

(** [Nested]: an array whose items are [Nested] again. *)
Definition Nested : json :=
  JObj [("type", JStr "array"); ("items", ref "Nested")].

Definition nested_doc : json := components [("Nested", Nested)].

(** A node whose [allOf] is a string, not a list of schemas. *)
Definition malformed_allOf : json := JObj [("allOf", JStr "x")].

(** The union of the specification: [{ oneOf: [string, integer] }]. *)
Definition union_node : json :=
  JObj [("oneOf", JArr [string_t; integer_t]); ("description", JStr "either")].

(** A node that carries both an [allOf] and a [oneOf]. *)
Definition allOf_and_oneOf : json :=
  JObj [("allOf", JArr [object_t [] [("a", string_t); ("b", integer_t)]]);
        ("oneOf", JArr [string_t; integer_t])].

Definition empty_doc : json := JObj [].

(** An operation whose [200] response has one content entry, keyed
    [application/hal+json]. *)
Definition hal_operation : json :=
  JObj [("responses",
         JObj [("200",
                JObj [("content",
                       JObj [("application/hal+json",
                              JObj [("schema", string_t)])])])])].

(** Responses declared in the order [404], [302], each with a bare
    schema. *)
Definition declared_404_302 : list (string * json) :=
  [("404", JObj [("schema", string_t)]);
   ("302", JObj [("schema", integer_t)])].

Definition error_operation : json :=
  JObj [("responses", JObj declared_404_302)].

(** The end-to-end document of the specification. *)
Definition getUser : json :=
  JObj [("operationId", JStr "getUser");
        ("parameters",
         JArr [JObj [("name", JStr "id"); ("in", JStr "path");
                     ("required", JBool true); ("schema", string_t)]]);
        ("responses",
         JObj [("200",
                JObj [("content",
                       JObj [("application/json",
                              JObj [("schema",
                                     object_t ["id"]
                                       [("id", string_t);
                                        ("age", integer_t)])])])])])].

Definition e2e_doc : json :=
  JObj [("paths", JObj [("/users/{id}", JObj [("get", getUser)])])].

(** One path entry declaring the same method under two spellings, and the
    same entry with the two keys in the other order. *)
Definition get_then_GET : json :=
  JObj [("paths", JObj [("/a", JObj [("get", JObj []); ("GET", JObj [])])])].

Definition GET_then_get : json :=
  JObj [("paths", JObj [("/a", JObj [("GET", JObj []); ("get", JObj [])])])].

(** Two paths, and the same document with the paths in the other order. *)
Definition pets_then_owners : json :=
  JObj [("paths",
         JObj [("/pets", JObj [("get", JObj [("operationId", JStr "listPets")])]);
               ("/owners", JObj [("post", JObj [])])])].

Definition owners_then_pets : json :=
  JObj [("paths",
         JObj [("/owners", JObj [("post", JObj [])]);
               ("/pets", JObj [("get", JObj [("operationId", JStr "listPets")])])])].

(** [Pair] refers to [Point] from two sibling properties and to a schema
    that does not exist from two more. *)
Definition Point : json := object_t ["x"] [("x", integer_t)].

Definition Pair : json :=
  object_t ["from"]
    [("from", ref "Point"); ("to", ref "Point");
     ("tag", ref "Missing"); ("label", ref "Missing")].

Definition pair_doc : json := components [("Point", Point); ("Pair", Pair)].

(** The required-propagation example of the specification: [A] requires
    [b], whose schema [B] requires [c]. *)
Definition B_requires_c : json := object_t ["c"] [("c", string_t)].

Definition A_requires_b : json := object_t ["b"] [("b", B_requires_c)].

(** A path entry whose [get] key holds [null], and one whose [get] key
    holds a string. *)
Definition null_operation_doc : json :=
  JObj [("paths", JObj [("/a", JObj [("get", JNull)])])].

Definition text_operation_doc : json :=
  JObj [("paths", JObj [("/a", JObj [("get", JStr "later")])])].

(** An empty [oneOf] beside an [anyOf] with one member. *)
Definition empty_oneOf_beside_anyOf : json :=
  JObj [("oneOf", JArr []); ("anyOf", JArr [string_t])].

Definition start : walk_state := {| out := []; visitedRefs := [] |}.

End Samples.

(** ** More sample documents *)

Module MoreSamples.

(** A table that holds a schema under a name with a slash in it. *)
Definition slash_doc : json :=
  Samples.components [("geo/Point", Samples.string_t)].

(** A reference into another file. *)
Definition external : json :=
  JObj [("$ref", JStr "common.json#/definitions/Pet")].

(** An operation whose only response is that reference. *)
Definition external_response : json :=
  JObj [("responses", JObj [("200", JObj [("schema", external)])])].

(** A path with an operation that has an identifier of its own, and the
    path spelt with that identifier after a colon. *)
Definition colon_doc (p key o : string) : json :=
  JObj [("paths",
         JObj [(p, JObj [(key, JObj [("operationId", JStr o)])]);
               (p ++ ":" ++ o, JObj [(key, JObj [])])])].

(** An operation with two query parameters around a path parameter. *)
Definition search_parameters : list json :=
  [JObj [("name", JStr "q"); ("in", JStr "query"); ("type", JStr "string")];
   JObj [("name", JStr "id"); ("in", JStr "path"); ("required", JBool true);
         ("schema", Samples.integer_t)];
   JObj [("name", JStr "page"); ("in", JStr "query");
         ("schema", Samples.integer_t)]].

Definition search : json := JObj [("parameters", JArr search_parameters)].

(** An operation one of whose parameters is located in [constructor]. *)
Definition inherited_location : json :=
  JObj [("parameters",
         JArr [JObj [("name", JStr "q"); ("in", JStr "constructor")]])].

(** A parameter described on the parameter itself, with an enumeration. *)
Definition sort_parameter : json :=
  JObj [("name", JStr "sort"); ("in", JStr "query"); ("type", JStr "string");
        ("enum", JArr [JStr "asc"; JStr "desc"])].

(** An operation that takes and returns the same object. *)
Definition user_schema : json :=
  Samples.object_t ["id"] [("id", Samples.string_t); ("age", Samples.integer_t)].

Definition user_content : json :=
  JObj [("content", JObj [("application/json", JObj [("schema", user_schema)])])].

Definition putUser : json :=
  JObj [("requestBody", user_content);
        ("responses", JObj [("200", user_content)])].

(** An object that marks itself as required with a flag, the way a
    property does in the older drafts of JSON Schema. *)
Definition flagged : json :=
  JObj [("type", JStr "object"); ("required", JBool true);
        ("properties", JObj [("id", Samples.string_t)])].

(** Two paths that differ in the case of a letter, the capital first. *)
Definition B_then_a : json :=
  JObj [("paths",
         JObj [("/B", JObj [("get", JObj [])]);
               ("/a", JObj [("get", JObj [])])])].

(** A node that points at a member the table [components] inherits. *)
Definition inherited_pointer : json :=
  JObj [("$ref", JStr "#/components/__proto__"); ("description", JStr "mine")].

(** A heap that holds the document of [Samples.named_doc] and a node that
    refers to [Named] with a description of its own: the document at
    address 0, [components] at 1, [schemas] at 2, [Named] at 3 and the
    node at 4. *)
Definition named_heap : Heap.heap :=
  [ {| Heap.isArray := false; Heap.own := [("components", Heap.HRef 1)] |};
    {| Heap.isArray := false; Heap.own := [("schemas", Heap.HRef 2)] |};
    {| Heap.isArray := false; Heap.own := [("Named", Heap.HRef 3)] |};
    {| Heap.isArray := false;
       Heap.own := [("type", Heap.HStr "string");
                    ("description", Heap.HStr "a name")] |};
    {| Heap.isArray := false;
       Heap.own := [("$ref", Heap.HStr "#/components/schemas/Named");
                    ("description", Heap.HStr "mine")] |} ].

End MoreSamples.

(** * Properties *)

(** ** Objects: reads after writes *)

Section ObjectFacts.

Implicit Types (k : string) (v : json) (kvs : list (string * json)).

Lemma lookup_obj_set k k' v kvs :
  lookup k (obj_set k' v kvs) = if k' =? k then Some v else lookup k kvs.
Proof.
  induction kvs as [|[k0 v0] r IH]; simpl.
  - destruct (k' =? k); reflexivity.
  - destruct (k0 =? k') eqn:E0; simpl.
    + apply String.eqb_eq in E0; subst k0.
      destruct (k' =? k); reflexivity.
    + rewrite IH. destruct (k0 =? k) eqn:E1; [|reflexivity].
      apply String.eqb_eq in E1; subst k0.
      now rewrite String.eqb_sym, E0.
Qed.

Lemma lookup_obj_delete k k' kvs :
  lookup k (obj_delete k' kvs) = if k' =? k then None else lookup k kvs.
Proof.
  unfold obj_delete.
  induction kvs as [|[k0 v0] r IH]; simpl.
  - destruct (k' =? k); reflexivity.
  - destruct (k0 =? k') eqn:E0; simpl.
    + apply String.eqb_eq in E0; subst k0. rewrite IH.
      destruct (k' =? k); reflexivity.
    + rewrite IH. destruct (k0 =? k) eqn:E1; [|reflexivity].
      apply String.eqb_eq in E1; subst k0.
      now rewrite String.eqb_sym, E0.
Qed.

Lemma lookup_In k v kvs : lookup k kvs = Some v -> In (k, v) kvs.
Proof.
  induction kvs as [|[k0 v0] r IH]; simpl; [discriminate|].
  destruct (k0 =? k) eqn:E.
  - apply String.eqb_eq in E. intros [= ->]. subst. now left.
  - intros H. right. now apply IH.
Qed.

Lemma In_lookup k v kvs :
  unique_keys kvs -> In (k, v) kvs -> lookup k kvs = Some v.
Proof.
  unfold unique_keys.
  induction kvs as [|[k0 v0] r IH]; simpl; [contradiction|].
  intros ND [E|HIn].
  - injection E as -> ->. now rewrite String.eqb_refl.
  - inversion ND as [|? ? Hnot ND']; subst.
    destruct (k0 =? k) eqn:E; [|now apply IH].
    apply String.eqb_eq in E; subst k0. exfalso. apply Hnot.
    change k with (fst (k, v)). now apply in_map.
Qed.

(** A read depends on the set of properties only, not on their order. *)
Lemma lookup_Permutation k kvs kvs' :
  unique_keys kvs -> Permutation kvs kvs' -> lookup k kvs = lookup k kvs'.
Proof.
  intros ND P.
  assert (ND' : unique_keys kvs').
  { unfold unique_keys in *. eapply Permutation_NoDup; [|exact ND].
    now apply Permutation_map. }
  destruct (lookup k kvs) as [v|] eqn:E.
  - symmetry. apply In_lookup; [exact ND'|].
    eapply Permutation_in; [exact P|]. now apply lookup_In.
  - destruct (lookup k kvs') as [v'|] eqn:E'; [|reflexivity].
    apply lookup_In in E'. apply Permutation_sym in P.
    eapply Permutation_in in E'; [|exact P].
    apply (In_lookup _ _ _ ND) in E'. congruence.
Qed.

Lemma insert_by_index_Permutation e l :
  Permutation (insert_by_index e l) (e :: l).
Proof.
  induction l as [|e' r IH]; simpl; [reflexivity|].
  destruct (fst e <? fst e')%N; [reflexivity|].
  rewrite IH. apply perm_swap.
Qed.

Lemma enumerate_Permutation kvs : Permutation (enumerate kvs) kvs.
Proof.
  unfold enumerate, is_index_key.
  induction kvs as [|kv r IH]; simpl; [reflexivity|].
  destruct (array_index (fst kv)) as [n|]; simpl.
  - rewrite insert_by_index_Permutation. simpl. now apply perm_skip.
  - apply Permutation_sym, Permutation_cons_app, Permutation_sym, IH.
Qed.

Lemma enumerate_unique kvs : unique_keys kvs -> unique_keys (enumerate kvs).
Proof.
  unfold unique_keys. intros ND.
  eapply Permutation_NoDup; [|exact ND].
  apply Permutation_map, Permutation_sym, enumerate_Permutation.
Qed.

Lemma lookup_enumerate k kvs :
  unique_keys kvs -> lookup k (enumerate kvs) = lookup k kvs.
Proof.
  intros ND. symmetry. apply lookup_Permutation; [exact ND|].
  apply Permutation_sym, enumerate_Permutation.
Qed.

Lemma lookup_assign k (es : list (string * json)) :
  unique_keys es ->
  forall target,
    lookup k (fold_left (fun acc kv => obj_set (fst kv) (snd kv) acc) es target)
    = match lookup k es with
      | Some v => Some v
      | None => lookup k target
      end.
Proof.
  unfold unique_keys.
  induction es as [|[k0 v0] r IH]; simpl; intros ND target; [reflexivity|].
  inversion ND as [|? ? Hnot ND']; subst.
  rewrite (IH ND'), lookup_obj_set.
  destruct (k0 =? k) eqn:E; [|reflexivity].
  apply String.eqb_eq in E; subst k0.
  destruct (lookup k r) as [v|] eqn:Er; [|reflexivity].
  exfalso. apply Hnot. apply lookup_In in Er.
  change k with (fst (k, v)). now apply in_map.
Qed.

(** [{ ...target, ...source }] read at one key: the source wins. *)
Lemma lookup_spread k target skvs :
  unique_keys skvs ->
  lookup k (spread target (JObj skvs))
  = match lookup k skvs with
    | Some v => Some v
    | None => lookup k target
    end.
Proof.
  intros ND. unfold spread, entries.
  rewrite lookup_assign by now apply enumerate_unique.
  now rewrite lookup_enumerate.
Qed.

End ObjectFacts.

(** ** The reference resolver *)

(** A node that has a property is an object, an array or a string, and is
    truthy unless it is the empty string, which has no property. *)
Lemma prop_Some_truthy (s : json) (k : string) (v : json) :
  prop s k = Some v -> truthy (Some s) = true.
Proof.
  destruct s as [| | |str| |]; simpl; try discriminate; try reflexivity.
  destruct str; [|reflexivity].
  unfold at_index. destruct (array_index k); [|discriminate].
  simpl. destruct n; discriminate.
Qed.

Lemma resolveSchema_resolved doc s ref direct :
  prop s "$ref" = Some (JStr ref) ->
  resolveRef doc ref = Some direct ->
  resolveSchema doc s
  = Ret (JObj (obj_delete "$ref" (spread (spread [] direct) s))).
Proof.
  intros Hp Hr.
  assert (Hne : ref <> "").
  { intros ->. discriminate Hr. }
  unfold resolveSchema. rewrite Hp, Hr. simpl.
  destruct ref; [congruence|]. simpl.
  destruct s; try reflexivity. discriminate Hp.
Qed.

Lemma resolveSchema_unchanged doc s :
  s <> JNull ->
  (truthy (prop s "$ref") = false
   \/ exists ref, prop s "$ref" = Some (JStr ref) /\ resolveRef doc ref = None) ->
  resolveSchema doc s = Ret s.
Proof.
  intros Hn [Hf|(ref & Hp & Hr)]; unfold resolveSchema.
  - rewrite Hf. simpl. now destruct s.
  - rewrite Hp, Hr. destruct s; try congruence; now destruct (truthy _).
Qed.

(** Only an object has a property under a key that is not numeric. *)
Lemma prop_Some_object (s : json) (k : string) (v : json) :
  array_index k = None -> prop s k = Some v -> exists kvs, s = JObj kvs.
Proof.
  intros Hk. destruct s; simpl; try discriminate.
  - unfold at_index. now rewrite Hk.
  - unfold at_index. now rewrite Hk.
  - intros _. now eexists.
Qed.

Lemma unique_keys_dec_true (kvs : list (string * json)) :
  (fix distinct (l : list string) : bool :=
     match l with
     | [] => true
     | k :: r => negb (existsb (String.eqb k) r) && distinct r
     end) (map fst kvs) = true ->
  unique_keys kvs.
Proof.
  unfold unique_keys. generalize (map fst kvs) as l.
  induction l as [|k r IH]; intros H; [constructor|].
  apply andb_true_iff in H as [Hk Hr]. constructor; [|now apply IH].
  intros HIn. apply negb_true_iff in Hk.
  assert (existsb (String.eqb k) r = true); [|congruence].
  apply existsb_exists. exists k. split; [exact HIn|apply String.eqb_refl].
Qed.

(** C10: once [resolveSchema] has resolved a reference, the node it returns
    carries no reference at all, whatever the referenced definition holds
    (a reference of its own included), and resolving that node again
    returns it unchanged: a chain of references is never followed. *)
Theorem resolved_node_carries_no_ref (doc s : json) (ref : string) (direct : json) :
  prop s "$ref" = Some (JStr ref) ->
  resolveRef doc ref = Some direct ->
  exists m,
    resolveSchema doc s = Ret m
    /\ prop m "$ref" = None
    /\ resolveSchema doc m = Ret m.
Proof.
  intros Hp Hr. eexists. split; [now apply (resolveSchema_resolved _ _ _ _ Hp Hr)|].
  assert (Hno : forall kvs, lookup "$ref" (obj_delete "$ref" kvs) = None).
  { intros kvs. now rewrite lookup_obj_delete, String.eqb_refl. }
  split; [apply Hno|].
  apply resolveSchema_unchanged; [discriminate|].
  left. simpl. now rewrite Hno.
Qed.

Lemma resolved_node_carries_no_ref_chain :
  exists m,
    resolveSchema Samples.chain_doc (Samples.ref "Alias") = Ret m
    /\ prop m "$ref" = None
    /\ resolveSchema Samples.chain_doc m = Ret m.
Proof.
  apply (resolved_node_carries_no_ref Samples.chain_doc (Samples.ref "Alias")
           "#/components/schemas/Alias" (Samples.ref "Name"));
    reflexivity.
Defined.

(** *** Pointers and the document *)

Lemma is_object_isObject (v : json) :
  is_object (Data (Some v)) = isObject v.
Proof. destruct v; simpl; rewrite ?andb_false_r; reflexivity. Qed.

(** A path of own keys is the path the loop of [resolveRef] follows. *)
Lemma follow_valueAt (keys : list string) :
  forall v x,
    valueAt v keys = Some x ->
    follow (Data (Some v)) keys = Some (Data (Some x)).
Proof.
  induction keys as [|k r IH]; intros v x H; simpl in *.
  - now injection H as ->.
  - destruct v as [| | | |l|kvs]; try discriminate.
    + cbn [is_object truthy typeof_object andb member].
      simpl in H. destruct (at_index l k) as [y|]; [now apply IH|discriminate].
    + cbn [is_object truthy typeof_object andb member].
      simpl in H. destruct (lookup k kvs) as [y|]; [now apply IH|discriminate].
Qed.

Lemma follow_undefined (keys : list string) :
  match follow (Data None) keys with
  | Some cur => is_object cur = false
  | None => True
  end.
Proof. destruct keys; simpl; reflexivity || exact I. Qed.

(** Where the document holds nothing under the keys, and no key is
    [__proto__], the loop ends on [undefined]. *)
Lemma follow_missing (keys : list string) :
  forall v,
    valueAt v keys = None ->
    ~ In "__proto__" keys ->
    match follow (Data (Some v)) keys with
    | Some cur => is_object cur = false
    | None => True
    end.
Proof.
  induction keys as [|k r IH]; intros v H Hp; [discriminate|].
  assert (Hk : (k =? "__proto__") = false).
  { apply String.eqb_neq. intros ->. apply Hp. now left. }
  assert (Hr : ~ In "__proto__" r) by (intros HIn; apply Hp; now right).
  cbn [follow]. rewrite is_object_isObject.
  destruct v as [| | | |l|kvs]; try exact I; cbn [isObject member].
  - simpl in H. destruct (at_index l k) as [y|].
    + now apply IH.
    + rewrite Hk. apply follow_undefined.
  - simpl in H. destruct (lookup k kvs) as [y|].
    + now apply IH.
    + rewrite Hk. apply follow_undefined.
Qed.

Lemma resolveRef_found (doc : json) (ref : string) (x : json) :
  startsWith ref "#/" = true ->
  valueAt doc (segments ref) = Some x ->
  resolveRef doc ref = if isObject x then Some x else None.
Proof.
  intros Hs H. unfold resolveRef. rewrite Hs. cbn [negb].
  fold (segments ref). rewrite (follow_valueAt _ _ _ H).
  rewrite is_object_isObject. reflexivity.
Qed.

Lemma resolveRef_missing (doc : json) (ref : string) :
  valueAt doc (segments ref) = None ->
  ~ In "__proto__" (segments ref) ->
  resolveRef doc ref = None.
Proof.
  intros H Hp. unfold resolveRef.
  destruct (negb (startsWith ref "#/")); [reflexivity|].
  fold (segments ref). pose proof (follow_missing _ _ H Hp) as Hf.
  destruct (follow (Data (Some doc)) (segments ref)) as [cur|]; [|reflexivity].
  now rewrite Hf.
Qed.

(** *** Writes of the resolver *)

Lemma update_other (a b : nat) (f : Heap.object -> Heap.object) (h : Heap.heap) :
  b <> a -> nth_error (Heap.update a f h) b = nth_error h b.
Proof.
  revert a b. induction h as [|o r IH]; intros [|a] [|b] H; simpl;
    try reflexivity; try congruence.
  apply IH. congruence.
Qed.

Lemma update_length (a : nat) (f : Heap.object -> Heap.object) (h : Heap.heap) :
  List.length (Heap.update a f h) = List.length h.
Proof.
  revert a. induction h as [|o r IH]; intros [|a]; simpl; try reflexivity.
  now rewrite IH.
Qed.

Lemma assignAll_other (target b : nat) (source : list (string * Heap.hval)) :
  forall h,
    b <> target ->
    nth_error (Heap.assignAll target source h) b = nth_error h b.
Proof.
  unfold Heap.assignAll.
  induction source as [|kv r IH]; intros h H; simpl; [reflexivity|].
  rewrite IH by exact H. unfold Heap.setProperty. now apply update_other.
Qed.

Lemma assignAll_length (target : nat) (source : list (string * Heap.hval)) :
  forall h, List.length (Heap.assignAll target source h) = List.length h.
Proof.
  unfold Heap.assignAll.
  induction source as [|kv r IH]; intros h; simpl; [reflexivity|].
  rewrite IH. unfold Heap.setProperty. apply update_length.
Qed.

(** A call of [resolveSchema] leaves every object of the heap as it was,
    and returns the node itself or the object it has made. *)
Lemma resolveSchema_frame (h h' : Heap.heap) (doc schema r : Heap.hval) :
  Heap.resolveSchema h doc schema = Ret (h', r) ->
  (forall a o, nth_error h a = Some o -> nth_error h' a = Some o)
  /\ (r = schema /\ h' = h
      \/ r = Heap.HRef (List.length h) /\ List.length h' = S (List.length h)).
Proof.
  unfold Heap.resolveSchema. intros H.
  assert (Hsame : Ret (h, schema) = Ret (h', r) ->
                  (forall a o, nth_error h a = Some o -> nth_error h' a = Some o)
                  /\ (r = schema /\ h' = h
                      \/ r = Heap.HRef (List.length h)
                         /\ List.length h' = S (List.length h))).
  { intros E. injection E as <- <-. split; [auto|now left]. }
  destruct schema as [|b|n|s|a]; try discriminate;
    destruct (negb (Heap.truthy (Heap.refOf h _))); try (now apply Hsame);
    destruct (Heap.refOf h _) as [[| | |ref|]|]; try discriminate;
    destruct (Heap.resolveRef h doc ref) as [direct|]; try (now apply Hsame);
    injection H as <- <-; (split; [|right; split; [reflexivity|]]).
  all: try (intros a' o Ho;
            assert (Hlt : a' < List.length h)
              by (apply nth_error_Some; congruence);
            unfold Heap.deleteProperty;
            rewrite update_other by lia;
            rewrite !assignAll_other by lia;
            rewrite nth_error_app1 by exact Hlt; exact Ho).
  all: unfold Heap.deleteProperty;
    rewrite update_length, !assignAll_length, length_app; simpl; lia.
Qed.




(** ** Cyclic schemas *)

(** One call of the renderer on a reference to [Nested] is a call on the
    same reference, one level deeper. *)
Lemma schemaToTypeText_Nested_step (n : nat) :
  schemaToTypeText (S n) Samples.nested_doc (Some (Samples.ref "Nested"))
  = t <- schemaToTypeText n Samples.nested_doc (Some (Samples.ref "Nested")) ;;
    Ret (t ++ "[]").
Proof. reflexivity. Qed.

(** C3 fails on the code: the renderer has no guard against cycles.  On a
    reference to an array schema whose items are that schema again, no
    budget lets [schemaToTypeText] return: the source recurses until the
    stack overflows.  Nor does a malformed node always render as
    [unknown]: on an [allOf] that is a string the source calls a method the
    string does not have, and raises. *)
Theorem schemaToTypeText_diverges_on_cycle :
  (forall n,
      schemaToTypeText n Samples.nested_doc (Some (Samples.ref "Nested"))
      = OutOfFuel)
  /\ schemaToTypeText 1 Samples.nested_doc (Some Samples.malformed_allOf) = Throw.
Proof.
  split; [|reflexivity].
  induction n as [|n IH]; [reflexivity|].
  rewrite schemaToTypeText_Nested_step, IH. reflexivity.
Qed.

(** Walking [A] is walking [A] again under the prefix of its property: the
    child was resolved before the call, so the node that [walkSchema]
    receives carries no reference and the guard on [visitedRefs] is never
    consulted. *)
Lemma walkSchema_A_step (n : nat) (prefix : string) (req : bool) (st : walk_state) :
  walkSchema (S n) Samples.self_doc (Some Samples.A) prefix req st
  = st' <- walkSchema n Samples.self_doc (Some Samples.A)
             (childName prefix "self") (req && false) st ;;
    Ret st'.
Proof. reflexivity. Qed.

Lemma walkSchema_A_diverges (n : nat) :
  forall prefix req st,
    walkSchema n Samples.self_doc (Some Samples.A) prefix req st = OutOfFuel.
Proof.
  induction n as [|n IH]; intros prefix req st; [reflexivity|].
  rewrite walkSchema_A_step, IH. reflexivity.
Qed.

(** C1 fails on the code: for the schema [A] whose property [self] refers
    to [A], no budget lets [flattenSchemaFields] return, whether it is given
    [A] itself or a reference to it. *)
Theorem flattenSchemaFields_diverges_on_self_reference (n : nat) :
  flattenSchemaFields n Samples.self_doc Samples.A = OutOfFuel
  /\ flattenSchemaFields n Samples.self_doc (Samples.ref "A") = OutOfFuel.
Proof.
  unfold flattenSchemaFields.
  change (resolveSchema Samples.self_doc Samples.A) with (Ret Samples.A).
  change (resolveSchema Samples.self_doc (Samples.ref "A")) with (Ret Samples.A).
  simpl bind. rewrite walkSchema_A_diverges. split; reflexivity.
Qed.

(** ** Unions *)




(** ** The documented response *)

Lemma enumerate_head_lookup (kvs : list (string * json)) (k : string) (v : json)
  (r : list (string * json)) :
  unique_keys kvs -> enumerate kvs = (k, v) :: r -> lookup k kvs = Some v.
Proof.
  intros ND E. apply In_lookup; [exact ND|].
  eapply Permutation_in; [apply enumerate_Permutation|].
  rewrite E. now left.
Qed.

Lemma firstResponse_enumerate (kvs : list (string * json)) :
  unique_keys kvs ->
  firstResponse (JObj kvs) = option_map snd (hd_error (enumerate kvs)).
Proof.
  intros ND. unfold firstResponse, keys, entries.
  destruct (enumerate kvs) as [|[k v] r] eqn:E; [reflexivity|].
  simpl. exact (enumerate_head_lookup _ _ _ _ ND E).
Qed.

(** C6 as stated fails twice.  A content entry keyed
    [application/hal+json] is never read, the third key being the literal
    text [application/*+json]: the section stays empty where the claim
    expects the entry's schema.  And the fall-back response is the first one
    the object enumerates, which for status codes is the smallest: with
    [404] declared before [302] the section documents [302]. *)
Lemma response_choice_is_literal_and_enumerated :
  buildResponseLines 3 Samples.empty_doc Samples.hal_operation = Ret []
  /\ hd_error Samples.declared_404_302
     = Some ("404", JObj [("schema", Samples.string_t)])
  /\ buildResponseLines 3 Samples.empty_doc Samples.error_operation
     = Ret ["- (root): integer (必填)"].
Proof. repeat split; reflexivity. Qed.

(** C6, amended: the response documented is the entry [200] if it is
    present (not [undefined], not [null]), else [201], else [default], else
    the first entry in the enumeration order of the responses object
    (numeric keys ascending, then the other keys as declared).  Its schema
    is the truthy [schema] of the first present content entry among the
    literal keys [application/json], [*/*] and [application/*+json], no
    other key being read, and otherwise the truthy bare [schema] of the
    response; the section is the flattening of that schema. *)
Theorem response_section_choice (kvs : list (string * json)) :
  unique_keys kvs ->
  preferredResponse (JObj kvs)
  = (if present (lookup "200" kvs) then lookup "200" kvs
     else if present (lookup "201" kvs) then lookup "201" kvs
     else if present (lookup "default" kvs) then lookup "default" kvs
     else option_map snd (hd_error (enumerate kvs)))
  /\ (forall rkvs ckvs,
         lookup "content" rkvs = Some (JObj ckvs) ->
         let entry :=
           if present (lookup "application/json" ckvs)
           then lookup "application/json" ckvs
           else if present (lookup "*/*" ckvs) then lookup "*/*" ckvs
           else lookup "application/*+json" ckvs in
         extractResponseSchema (JObj rkvs)
         = if truthy (opt_prop entry "schema") then opt_prop entry "schema"
           else if truthy (lookup "schema" rkvs) then lookup "schema" rkvs
           else None)
  /\ (forall rkvs,
         nullish (lookup "content" rkvs) = true ->
         extractResponseSchema (JObj rkvs)
         = if truthy (lookup "schema" rkvs) then lookup "schema" rkvs else None)
  /\ (forall n doc okvs preferred schema,
         lookup "responses" okvs = Some (JObj kvs) ->
         preferredResponse (JObj kvs) = Some preferred ->
         extractResponseSchema preferred = Some schema ->
         buildResponseLines n doc (JObj okvs)
         = fields <- flattenSchemaFields n doc schema ;;
           match fields with
           | [] => t <- schemaToTypeText n doc (Some schema) ;; Ret ["- " ++ t]
           | _ => Ret (map fieldLine fields)
           end).
Proof.
  intros ND. repeat split.
  - unfold preferredResponse, coalesce, present. simpl.
    rewrite (firstResponse_enumerate _ ND).
    destruct (nullish (lookup "200" kvs)); [|reflexivity].
    destruct (nullish (lookup "201" kvs)); [|reflexivity].
    destruct (nullish (lookup "default" kvs)); reflexivity.
  - intros rkvs ckvs Hc entry. subst entry.
    unfold extractResponseSchema, jsonContent, coalesce, present. simpl.
    rewrite Hc. simpl.
    destruct (nullish (lookup "application/json" ckvs)); [|reflexivity].
    destruct (nullish (lookup "*/*" ckvs)); reflexivity.
  - intros rkvs Hc. unfold extractResponseSchema. simpl.
    assert (E : or_empty (lookup "content" rkvs) = JObj []).
    { destruct (lookup "content" rkvs) as [[]|]; try discriminate; reflexivity. }
    rewrite E. reflexivity.
  - intros n doc okvs preferred schema Hr Hp Hs.
    unfold buildResponseLines. simpl. rewrite Hr. simpl. rewrite Hp.
    assert (Ht : truthy (Some preferred) = true).
    { unfold extractResponseSchema in Hs.
      destruct preferred; try reflexivity; simpl in Hs; discriminate. }
    simpl in Ht. rewrite Ht, Hs. reflexivity.
Qed.

Lemma response_section_choice_sample :
  preferredResponse (JObj Samples.declared_404_302)
  = Some (JObj [("schema", Samples.integer_t)]).
Proof.
  apply (response_section_choice Samples.declared_404_302).
  apply unique_keys_dec_true. reflexivity.
Defined.

(** ** Operations *)

Lemma eachMethod_unfold (pathKey : string) (kv : string * json)
  (out : list ApiOperation) :
  eachMethod pathKey kv out
  = if recognised kv
    then if isNull (snd kv) then Throw
         else Ret (out ++ [recordOf (pathKey, fst kv, snd kv)])%list
    else Ret out.
Proof.
  unfold eachMethod, recognised.
  destruct (has httpMethods (toLowerCase (fst kv))); [|reflexivity].
  simpl. destruct (snd kv); reflexivity.
Qed.

Lemma forEach_eachMethod (pathKey : string) (es : list (string * json)) :
  forall out,
    forEach (eachMethod pathKey) es out
    = if existsb (fun kv => recognised kv && isNull (snd kv)) es then Throw
      else Ret (out ++ map recordOf
                         (map (fun mo => (pathKey, fst mo, snd mo))
                            (filter recognised es)))%list.
Proof.
  induction es as [|kv r IH]; intros out; simpl.
  - now rewrite app_nil_r.
  - rewrite eachMethod_unfold.
    destruct (recognised kv); simpl.
    + destruct (isNull (snd kv)); simpl; [reflexivity|].
      rewrite IH. destruct (existsb _ r); [reflexivity|].
      now rewrite <- app_assoc.
    + apply IH.
Qed.

Lemma existsb_nullOperation (pathKey : string) (es : list (string * json)) :
  existsb nullOperation
    (map (fun mo => (pathKey, fst mo, snd mo)) (filter recognised es))
  = existsb (fun kv => recognised kv && isNull (snd kv)) es.
Proof.
  induction es as [|kv r IH]; simpl; [reflexivity|].
  destruct (recognised kv); simpl; now rewrite IH.
Qed.

Lemma forEach_eachPath (ps : list (string * json)) :
  forall out,
    forEach eachPath ps out
    = if existsb nullOperation (flat_map methodsOf ps) then Throw
      else Ret (out ++ map recordOf (flat_map methodsOf ps))%list.
Proof.
  induction ps as [|kv r IH]; intros out; simpl.
  - now rewrite app_nil_r.
  - rewrite existsb_app, map_app. unfold eachPath, methodsOf.
    destruct (negb (truthy (Some (snd kv))) || negb (typeof_object (Some (snd kv)))).
    + simpl. apply IH.
    + rewrite forEach_eachMethod, existsb_nullOperation.
      destruct (existsb _ (entries (snd kv))); simpl; [reflexivity|].
      rewrite IH. destruct (existsb _ (flat_map _ r)); [reflexivity|].
      now rewrite <- app_assoc.
Qed.

(** [buildOperations] in one equation: it raises when a method key holds
    [null], and otherwise sorts the records of the entries. *)
Lemma buildOperations_unfold lc (doc : json) :
  doc <> JNull ->
  buildOperations lc doc
  = if existsb nullOperation (methodEntries doc) then Throw
    else Ret (sort lc (map recordOf (methodEntries doc))).
Proof.
  intros Hn. unfold buildOperations, methodEntries.
  rewrite forEach_eachPath.
  destruct doc; try congruence;
    now destruct (existsb nullOperation _).
Qed.

Section Sorting.

Variable lc : string -> string -> Z.

(** The collation is consistent, and it tells apart the paths of the
    records that are sorted. *)
Hypothesis lc_consistent : consistent lc.

Variable records : list ApiOperation.

Hypothesis paths_apart : tellsApart lc (map path records).

Lemma inOrder_compare (a b : ApiOperation) :
  inOrder lc a b <-> (compareOperations lc a b <= 0)%Z.
Proof.
  unfold inOrder, compareOperations.
  destruct (String.eqb_spec (path a) (path b)); intuition congruence.
Qed.

Lemma inOrder_total (a b : ApiOperation) :
  (0 <= compareOperations lc a b)%Z -> inOrder lc b a.
Proof.
  destruct lc_consistent as (lc_total & _ & _).
  intros H. apply inOrder_compare. revert H. unfold compareOperations.
  rewrite (String.eqb_sym (path b)).
  destruct (path a =? path b); apply lc_total.
Qed.

(** Two strings that come before each other compare as equal. *)
Lemma lc_tie (a b : string) :
  (lc a b <= 0)%Z -> (lc b a <= 0)%Z -> lc a b = 0%Z.
Proof.
  destruct lc_consistent as (_ & lc_skew & _).
  intros H1 H2. apply lc_skew in H2. lia.
Qed.

Lemma inOrder_trans (a b c : ApiOperation) :
  In a records -> In b records ->
  inOrder lc a b -> inOrder lc b c -> inOrder lc a c.
Proof.
  destruct lc_consistent as (_ & _ & lc_trans).
  unfold inOrder.
  intros Ha Hb [[E1 H1]|[N1 H1]] [[E2 H2]|[N2 H2]].
  - left. split; [congruence|eauto].
  - right. rewrite E1. auto.
  - right. rewrite <- E2. auto.
  - destruct (string_dec (path a) (path c)) as [E|N].
    + exfalso. apply N1.
      apply paths_apart; [now apply in_map|now apply in_map|].
      apply lc_tie; [exact H1|]. now rewrite E.
    + right. split; [exact N|eauto].
Qed.

Lemma insertSorted_Permutation (x : ApiOperation) (l : list ApiOperation) :
  Permutation (insertSorted lc x l) (x :: l).
Proof.
  induction l as [|y r IH]; simpl; [reflexivity|].
  destruct (compareOperations lc x y <? 0)%Z; [reflexivity|].
  rewrite IH. apply perm_swap.
Qed.

Lemma insertSorted_sorted (x : ApiOperation) (l : list ApiOperation) :
  In x records -> incl l records ->
  StronglySorted (inOrder lc) l -> StronglySorted (inOrder lc) (insertSorted lc x l).
Proof.
  intros Hx Hl H. induction H as [|y r Hr IH Hy]; simpl.
  - repeat constructor.
  - assert (Hyr : In y records) by (apply Hl; now left).
    assert (Hrr : incl r records) by (intros z Hz; apply Hl; now right).
    destruct (compareOperations lc x y <? 0)%Z eqn:E.
    + apply Z.ltb_lt in E.
      assert (Hxy : inOrder lc x y) by (apply inOrder_compare; lia).
      constructor; [now constructor|].
      constructor; [exact Hxy|].
      eapply Forall_impl; [|exact Hy]. intros z. now apply inOrder_trans.
    + apply Z.ltb_ge in E. constructor; [now apply IH|].
      eapply Permutation_Forall.
      * apply Permutation_sym, insertSorted_Permutation.
      * constructor; [now apply inOrder_total|exact Hy].
Qed.

Lemma sort_from_Permutation (l : list ApiOperation) :
  forall acc,
    Permutation (fold_left (fun acc x => insertSorted lc x acc) l acc)
      (acc ++ l)%list.
Proof.
  induction l as [|x l IH]; intros acc; simpl.
  - now rewrite app_nil_r.
  - rewrite IH, insertSorted_Permutation. now apply Permutation_cons_app.
Qed.

Lemma sort_from_sorted (l : list ApiOperation) :
  forall acc,
    incl l records -> incl acc records ->
    StronglySorted (inOrder lc) acc ->
    StronglySorted (inOrder lc) (fold_left (fun acc x => insertSorted lc x acc) l acc).
Proof.
  induction l as [|x l IH]; intros acc Hl Hacc Hs; simpl; [exact Hs|].
  assert (Hx : In x records) by (apply Hl; now left).
  apply IH.
  - intros z Hz. apply Hl. now right.
  - intros z Hz. apply (Permutation_in _ (insertSorted_Permutation x acc)) in Hz.
    destruct Hz as [<-|Hz]; [exact Hx|now apply Hacc].
  - now apply insertSorted_sorted.
Qed.

Lemma sort_sorted (l : list ApiOperation) :
  incl l records -> StronglySorted (inOrder lc) (sort lc l).
Proof.
  intros Hl. apply sort_from_sorted; [exact Hl|intros z []|constructor].
Qed.

(** Two records that come before each other agree on the path, and their
    methods compare as equal. *)
Lemma inOrder_tie (a b : ApiOperation) :
  In a records -> In b records ->
  inOrder lc a b -> inOrder lc b a ->
  path a = path b /\ lc (method a) (method b) = 0%Z.
Proof.
  unfold inOrder.
  intros Ha Hb [[E1 H1]|[N1 H1]] [[E2 H2]|[N2 H2]]; try congruence.
  - split; [exact E1|now apply lc_tie].
  - exfalso. apply N1.
    apply paths_apart; [now apply in_map|now apply in_map|].
    now apply lc_tie.
Qed.

End Sorting.

Lemma sort_Permutation lc (l : list ApiOperation) : Permutation (sort lc l) l.
Proof. apply (sort_from_Permutation lc l []). Qed.


(** Two sorted lists with the same elements are equal when no two distinct
    elements tie. *)
Lemma StronglySorted_Permutation_eq {A : Type} (R : A -> A -> Prop)
  (l1 : list A) :
  forall l2,
    (forall a b, In a l1 -> In b l1 -> R a b -> R b a -> a = b) ->
    StronglySorted R l1 -> StronglySorted R l2 -> Permutation l1 l2 ->
    l1 = l2.
Proof.
  induction l1 as [|a r1 IH]; intros l2 Hanti S1 S2 P.
  - apply Permutation_nil in P. now subst.
  - destruct l2 as [|b r2].
    + apply Permutation_sym, Permutation_nil in P. discriminate.
    + apply StronglySorted_inv in S1 as [S1 F1].
      apply StronglySorted_inv in S2 as [S2 F2].
      assert (E : a = b).
      { assert (Hb : In b (a :: r1)).
        { eapply Permutation_in; [apply Permutation_sym, P|now left]. }
        assert (Ha : In a (b :: r2)).
        { eapply Permutation_in; [exact P|now left]. }
        destruct Hb as [Hb|Hb]; [exact Hb|].
        destruct Ha as [Ha|Ha]; [now symmetry|].
        rewrite Forall_forall in F1, F2.
        apply Hanti; [now left|now right|now apply F1|now apply F2]. }
      subst b. f_equal. apply Permutation_cons_inv in P.
      apply IH; try assumption.
      intros x y Hx Hy. apply Hanti; now right.
Qed.

Lemma NoDup_map_injective {A B : Type} (f : A -> B) (l : list A) :
  NoDup (map f l) ->
  forall a b, In a l -> In b l -> f a = f b -> a = b.
Proof.
  induction l as [|x r IH]; simpl; intros ND a b Ha Hb E; [contradiction|].
  inversion ND as [|? ? Hnot ND']; subst.
  destruct Ha as [->|Ha], Hb as [->|Hb]; try reflexivity.
  - exfalso. apply Hnot. rewrite E. now apply in_map.
  - exfalso. apply Hnot. rewrite <- E. now apply in_map.
  - now apply IH.
Qed.

Lemma existsb_Permutation {A : Type} (f : A -> bool) (l l' : list A) :
  Permutation l l' -> existsb f l = existsb f l'.
Proof.
  induction 1; simpl; try congruence.
  - destruct (f x), (f y); reflexivity.
Qed.

Lemma no_null_Forall (l : list (string * string * json)) :
  Forall (fun e => snd e <> JNull) l <-> existsb nullOperation l = false.
Proof.
  induction l as [|e r IH]; simpl.
  - split; [reflexivity|constructor].
  - unfold nullOperation at 1. split.
    + intros H. inversion H as [|? ? He Hr]; subst.
      apply IH in Hr. rewrite Hr. destruct (snd e); try reflexivity.
      congruence.
    + intros H. apply orb_false_iff in H as [He Hr].
      constructor; [|now apply IH].
      intros E. rewrite E in He. discriminate.
Qed.

Lemma codeUnitCompare_total (a b : string) :
  (0 <= codeUnitCompare a b)%Z -> (codeUnitCompare b a <= 0)%Z.
Proof.
  unfold codeUnitCompare. rewrite (String.compare_antisym a b).
  destruct (String.compare b a); simpl; lia.
Qed.

Lemma codeUnitCompare_antisym (a b : string) :
  (codeUnitCompare a b <= 0)%Z -> (codeUnitCompare b a <= 0)%Z -> a = b.
Proof.
  unfold codeUnitCompare. rewrite (String.compare_antisym a b).
  destruct (String.compare b a) eqn:E; simpl; try lia.
  intros _ _. symmetry. now apply String.compare_eq_iff.
Qed.

Lemma codeUnitCompare_le (a b : string) :
  (codeUnitCompare a b <= 0)%Z <-> a = b \/ String_as_OT.lt a b.
Proof.
  unfold codeUnitCompare.
  destruct (String.compare a b) eqn:E.
  - apply String.compare_eq_iff in E. intuition lia.
  - apply String_as_OT.cmp_lt in E. intuition lia.
  - split; [lia|]. intros [H|H].
    + apply String_as_OT.cmp_eq in H. unfold String_as_OT.cmp in H. congruence.
    + apply String_as_OT.cmp_lt in H. unfold String_as_OT.cmp in H. congruence.
Qed.

Lemma codeUnitCompare_trans (a b c : string) :
  (codeUnitCompare a b <= 0)%Z -> (codeUnitCompare b c <= 0)%Z ->
  (codeUnitCompare a c <= 0)%Z.
Proof.
  rewrite !codeUnitCompare_le.
  intros [->|H1] [->|H2]; auto.
  right. eapply String_as_OT.lt_trans; eassumption.
Qed.

Lemma codeUnitCompare_zero (a b : string) : codeUnitCompare a b = 0%Z -> a = b.
Proof.
  unfold codeUnitCompare. destruct (String.compare a b) eqn:E; try discriminate.
  intros _. now apply String.compare_eq_iff.
Qed.

Lemma codeUnitCompare_consistent : consistent codeUnitCompare.
Proof.
  split; [exact codeUnitCompare_total|]. split; [|exact codeUnitCompare_trans].
  intros a b. unfold codeUnitCompare. rewrite (String.compare_antisym b a).
  destruct (String.compare a b); simpl; lia.
Qed.

Lemma codeUnitCompare_tellsApart (l : list string) : tellsApart codeUnitCompare l.
Proof. intros a b _ _. apply codeUnitCompare_zero. Qed.

Lemma path_recordOf (e : string * string * json) :
  path (recordOf e) = fst (entryKey e).
Proof. now destruct e as [[p k] o]. Qed.

Lemma method_recordOf (e : string * string * json) :
  method (recordOf e) = snd (entryKey e).
Proof. now destruct e as [[p k] o]. Qed.







(** ** Budgets *)

Lemma below_refl {A : Type} (a : outcome A) : below a a.
Proof. now right. Qed.

Lemma bind_below {A B : Type} (a b : outcome A) (f g : A -> outcome B) :
  below a b -> (forall x, a = Ret x -> below (f x) (g x)) ->
  below (bind a f) (bind b g).
Proof.
  intros [->| <-] H; [now left|].
  destruct a; simpl; [now apply H|now right|now left].
Qed.

Lemma mapM_below {A B : Type} (f g : A -> outcome B) (l : list A) :
  (forall x, below (f x) (g x)) -> below (mapM f l) (mapM g l).
Proof.
  intros H. induction l as [|x r IH]; simpl; [apply below_refl|].
  apply bind_below; [apply H|]. intros y _.
  apply bind_below; [exact IH|]. intros ys _. apply below_refl.
Qed.

#[local] Ltac below_step :=
  first
    [ apply below_refl
    | apply bind_below; [|intros ? ?]
    | apply mapM_below; intros ?
    | match goal with
      | |- below (if ?c then _ else _) (if ?c then _ else _) => destruct c
      | |- below (match ?x with _ => _ end) (match ?x with _ => _ end) =>
          destruct x
      end ].

(** A larger budget does not change what the renderer returns. *)
Lemma schemaToTypeText_below (n : nat) (doc : json) :
  forall m schema,
    n <= m ->
    below (schemaToTypeText n doc schema) (schemaToTypeText m doc schema).
Proof.
  induction n as [|n IH]; intros m schema Hle; [now left|].
  destruct m as [|m]; [lia|].
  cbn [schemaToTypeText].
  destruct schema as [sch|]; [|apply below_refl].
  repeat below_step; apply IH; lia.
Qed.

(** ** The guard on visited references *)

(** What [resolveSchema] returns is a node it returns unchanged. *)
Lemma resolveSchema_idempotent (doc x y : json) :
  resolveSchema doc x = Ret y -> resolveSchema doc y = Ret y.
Proof.
  intros H.
  destruct (truthy (prop x "$ref")) eqn:Ht.
  - destruct (prop x "$ref") as [[| | |ref| |]|] eqn:Hp;
      try (unfold resolveSchema in H; rewrite Hp in H; simpl in H, Ht;
           rewrite ?Ht in H; destruct x; discriminate).
    destruct (resolveRef doc ref) as [direct|] eqn:Hr.
    + rewrite (resolveSchema_resolved _ _ _ _ Hp Hr) in H. injection H as <-.
      apply resolveSchema_unchanged; [discriminate|]. left. simpl.
      now rewrite lookup_obj_delete, String.eqb_refl.
    + assert (Hx : x <> JNull) by (intros ->; discriminate Hp).
      assert (E : resolveSchema doc x = Ret x).
      { apply resolveSchema_unchanged; [exact Hx|]. right. now exists ref. }
      congruence.
  - assert (Hx : x <> JNull) by (intros ->; discriminate H).
    assert (E : resolveSchema doc x = Ret x).
    { apply resolveSchema_unchanged; [exact Hx|]. now left. }
    congruence.
Qed.

(** A node that survives resolution with its reference has a reference that
    does not resolve. *)
Lemma resolved_ref_is_dangling (doc s : json) :
  resolveSchema doc s = Ret s ->
  truthy (prop s "$ref") = true ->
  exists ref, prop s "$ref" = Some (JStr ref).
Proof.
  intros H Ht. unfold resolveSchema in H. rewrite Ht in H. simpl in H.
  destruct (prop s "$ref") as [[| | |ref| |]|]; try (destruct s; discriminate).
  now exists ref.
Qed.

Lemma has_head (ref : string) (refs : list string) : has (ref :: refs) ref = true.
Proof. unfold has. simpl. now rewrite String.eqb_refl. Qed.

(** On a node whose reference does not resolve, [walkSchema] emits nothing:
    it marks the reference, resolves the node to itself and stops at the
    guard one call deeper. *)
Lemma walkSchema_dangling (n : nat) (doc s : json) (ref : string)
  (prefix : string) (req : bool) (st : walk_state) :
  resolveSchema doc s = Ret s ->
  prop s "$ref" = Some (JStr ref) ->
  truthy (prop s "$ref") = true ->
  walkSchema (S (S n)) doc (Some s) prefix req st
  = Ret (if has (visitedRefs st) ref then st else add ref st).
Proof.
  intros Hres Hp Ht.
  assert (Hs : truthy (Some s) = true) by exact (prop_Some_truthy _ _ _ Hp).
  cbn [walkSchema]. rewrite Hs, Ht, Hp, Hres. cbn [negb bind].
  destruct (has (visitedRefs st) ref); [reflexivity|].
  rewrite Hs, Ht, Hp. cbn [negb add visitedRefs]. now rewrite has_head.
Qed.

Lemma walkSchema_dangling_out (n : nat) (doc s : json) (ref : string)
  (prefix : string) (req : bool) (st st' : walk_state) :
  resolveSchema doc s = Ret s ->
  prop s "$ref" = Some (JStr ref) ->
  truthy (prop s "$ref") = true ->
  walkSchema n doc (Some s) prefix req st = Ret st' ->
  out st' = out st.
Proof.
  intros Hres Hp Ht H.
  assert (Hs : truthy (Some s) = true) by exact (prop_Some_truthy _ _ _ Hp).
  destruct n as [|[|n]]; [discriminate| |].
  - cbn [walkSchema] in H. rewrite Hs, Ht, Hp, Hres in H. cbn [negb bind] in H.
    destruct (has (visitedRefs st) ref); [|discriminate].
    now injection H as <-.
  - rewrite (walkSchema_dangling n doc s ref prefix req st Hres Hp Ht) in H.
    injection H as <-. now destruct (has (visitedRefs st) ref).
Qed.

Lemma sameFields_Ret (st1 st2 : walk_state) :
  out st1 = out st2 -> sameFields (Ret st1) (Ret st2).
Proof. intros E. now exists st2. Qed.

Lemma sameFields_push (f : FieldInfo) (st1 st2 : walk_state) :
  out st1 = out st2 -> sameFields (Ret (push f st1)) (Ret (push f st2)).
Proof. intros E. apply sameFields_Ret. simpl. now rewrite E. Qed.

Lemma sameFields_bind_below {A : Type} (a b : outcome A)
  (f g : A -> outcome walk_state) :
  below a b -> (forall x, a = Ret x -> sameFields (f x) (g x)) ->
  sameFields (bind a f) (bind b g).
Proof.
  intros [->| <-] H; [exact I|].
  destruct a; simpl; [now apply H|reflexivity|exact I].
Qed.

Lemma sameFields_bind (a b : outcome walk_state)
  (f g : walk_state -> outcome walk_state) :
  sameFields a b ->
  (forall s1 s2, out s1 = out s2 -> sameFields (f s1) (g s2)) ->
  sameFields (bind a f) (bind b g).
Proof.
  intros Hab H. destruct a as [s1| |]; simpl in *.
  - destruct Hab as (s2 & -> & E). simpl. now apply H.
  - now subst b.
  - exact I.
Qed.

Lemma sameFields_forEach {A : Type} (b1 b2 : A -> walk_state -> outcome walk_state)
  (l : list A) :
  (forall x s1 s2, out s1 = out s2 -> sameFields (b1 x s1) (b2 x s2)) ->
  forall s1 s2,
    out s1 = out s2 -> sameFields (forEach b1 l s1) (forEach b2 l s2).
Proof.
  intros H. induction l as [|x r IH]; intros s1 s2 E; simpl.
  - now apply sameFields_Ret.
  - apply sameFields_bind; [now apply H|exact IH].
Qed.

#[local] Ltac fields_step :=
  cbv beta zeta;
  first
    [ apply sameFields_Ret; assumption
    | apply sameFields_push; assumption
    | reflexivity
    | apply sameFields_bind_below;
      [ first [ apply below_refl
              | apply mapM_below; intros ?; apply schemaToTypeText_below; lia
              | apply schemaToTypeText_below; lia ]
      | intros ? ? ]
    | apply sameFields_forEach; [intros ? ? ? ?|assumption]
    | match goal with
      | |- sameFields (if ?c then _ else _) (if ?c then _ else _) => destruct c
      | |- sameFields (match ?x with _ => _ end) (match ?x with _ => _ end) =>
          destruct x
      end ].

(** The fields a walk emits do not depend on the set of references it
    starts from, for a node as [walkSchema] receives it: resolved. *)
Lemma walkSchema_sameFields (n : nat) :
  forall m doc s prefix req st1 st2,
    n < m ->
    resolveSchema doc s = Ret s ->
    out st1 = out st2 ->
    sameFields (walkSchema n doc (Some s) prefix req st1)
      (walkSchema m doc (Some s) prefix req st2).
Proof.
  induction n as [|n IH]; intros m doc s prefix req st1 st2 Hlt Hres E;
    [exact I|].
  destruct m as [|m]; [lia|].
  destruct (truthy (prop s "$ref")) eqn:Ht.
  - destruct (resolved_ref_is_dangling doc s Hres Ht) as [ref Hp].
    destruct m as [|m]; [lia|].
    rewrite (walkSchema_dangling m doc s ref prefix req st2 Hres Hp Ht).
    destruct (walkSchema (S n) doc (Some s) prefix req st1) as [st1'| |] eqn:H1.
    + exists (if has (visitedRefs st2) ref then st2 else add ref st2).
      split; [reflexivity|].
      rewrite (walkSchema_dangling_out _ _ _ _ _ _ _ _ Hres Hp Ht H1).
      now destruct (has (visitedRefs st2) ref).
    + exfalso. revert H1. cbn [walkSchema].
      rewrite (prop_Some_truthy _ _ _ Hp), Ht, Hp, Hres. cbn [negb bind].
      destruct (has (visitedRefs st1) ref); [discriminate|].
      destruct n as [|n]; [discriminate|].
      cbn [walkSchema].
      rewrite (prop_Some_truthy _ _ _ Hp), Ht, Hp. cbn [negb add visitedRefs].
      now rewrite has_head.
    + exact I.
  - cbn [walkSchema]. rewrite Ht.
    destruct (negb (truthy (Some s))); [now apply sameFields_Ret|].
    repeat fields_step;
      try (apply IH; [lia|eapply resolveSchema_idempotent; eassumption|assumption]).
Qed.

Lemma marksKept_weaken (st st1 : walk_state) (o : outcome walk_state) :
  incl (visitedRefs st) (visitedRefs st1) -> marksKept st1 o -> marksKept st o.
Proof.
  intros Hi. destruct o; simpl; auto. intros H. eapply incl_tran; eassumption.
Qed.

Lemma marksKept_bind {A : Type} (st : walk_state) (a : outcome A)
  (f : A -> outcome walk_state) :
  (forall x, a = Ret x -> marksKept st (f x)) -> marksKept st (bind a f).
Proof. intros H. destruct a; simpl; auto. Qed.

Lemma marksKept_forEach {A : Type} (body : A -> walk_state -> outcome walk_state)
  (l : list A) :
  (forall x st, marksKept st (body x st)) ->
  forall st, marksKept st (forEach body l st).
Proof.
  intros H. induction l as [|x r IH]; intros st; simpl; [apply incl_refl|].
  specialize (H x st). destruct (body x st) as [st1| |]; simpl in *; auto.
  eapply marksKept_weaken; [exact H|apply IH].
Qed.

#[local] Ltac marks_step :=
  cbv beta zeta;
  first
    [ apply incl_refl
    | apply marksKept_forEach; intros ? ?
    | apply marksKept_bind; intros ? ?
    | match goal with
      | |- marksKept _ (Ret _) => cbn [marksKept push visitedRefs]
      | |- marksKept _ Throw => exact I
      | |- marksKept _ (if ?c then _ else _) => destruct c
      | |- marksKept _ (match ?x with _ => _ end) => destruct x
      end ].

(** Nothing is ever removed from the set of references. *)
Lemma walkSchema_marksKept (n : nat) :
  forall doc schema prefix req st,
    marksKept st (walkSchema n doc schema prefix req st).
Proof.
  induction n as [|n IH]; intros doc schema prefix req st; [exact I|].
  cbn [walkSchema].
  destruct schema as [sch|]; [|apply incl_refl].
  destruct (negb (truthy (Some sch))); [apply incl_refl|].
  destruct (truthy (prop sch "$ref")).
  - destruct (prop sch "$ref") as [[| | |ref| |]|]; try exact I.
    destruct (has (visitedRefs st) ref); [apply incl_refl|].
    apply marksKept_bind. intros resolved _.
    apply (marksKept_weaken st (add ref st)); [apply incl_tl, incl_refl|apply IH].
  - repeat marks_step; apply IH.
Qed.

(** C2 as stated fails: the set of references is one object shared by
    every branch of a run, and nothing is ever removed from it.  In [Pair]
    the properties [tag] and [label] are siblings and hold the same
    reference.  Walking [tag] leaves the reference in the set; [label],
    entered with that set, is stopped by the guard in its first call;
    entered with the set as it was before [tag], the same node is marked
    and resolved first, which takes a second call. *)
Lemma reference_marked_by_a_sibling_is_blocked :
  walkSchema 2 Samples.pair_doc (Some (JObj Samples.missing_ref)) "tag" false
    Samples.start
  = Ret {| out := []; visitedRefs := ["#/components/schemas/Missing"] |}
  /\ walkSchema 1 Samples.pair_doc (Some (JObj Samples.missing_ref)) "label" false
       {| out := []; visitedRefs := ["#/components/schemas/Missing"] |}
     = Ret {| out := []; visitedRefs := ["#/components/schemas/Missing"] |}
  /\ walkSchema 1 Samples.pair_doc (Some (JObj Samples.missing_ref)) "label" false
       Samples.start
     = OutOfFuel.
Proof. repeat split; reflexivity. Qed.

(** C2, amended: the set is shared and only grows, and yet the fields a
    branch yields do not depend on the references that were marked before
    the branch was entered.  Whatever set [v] the walk of a resolved node
    starts from (the set an earlier sibling left behind, the set before
    that sibling ran, or any other) it returns the same result array, and
    hands on a set that still holds [v].  Only references that do not
    resolve are ever marked, and they yield no field on any branch; a
    reference that resolves is expanded on every branch where it occurs. *)
Theorem walk_fields_independent_of_visited (n : nat) (doc s : json)
  (prefix : string) (req : bool) (st st' : walk_state) (v : list string) :
  resolveSchema doc s = Ret s ->
  walkSchema n doc (Some s) prefix req st = Ret st' ->
  exists v',
    walkSchema (S n) doc (Some s) prefix req
      {| out := out st; visitedRefs := v |}
    = Ret {| out := out st'; visitedRefs := v' |}
    /\ incl v v'.
Proof.
  intros Hres H.
  pose proof (walkSchema_sameFields n (S n) doc s prefix req st
                {| out := out st; visitedRefs := v |}
                (Nat.lt_succ_diag_r n) Hres eq_refl) as Hsim.
  rewrite H in Hsim. destruct Hsim as ([o2 v2] & E & Eo).
  exists v2. simpl in Eo. subst o2. split; [exact E|].
  pose proof (walkSchema_marksKept (S n) doc (Some s) prefix req
                {| out := out st; visitedRefs := v |}) as K.
  now rewrite E in K.
Qed.

Lemma walk_fields_independent_of_visited_sample :
  exists v',
    walkSchema 4 Samples.pair_doc (Some Samples.Pair) "" true
      {| out := [];
         visitedRefs := ["#/components/schemas/Point";
                         "#/components/schemas/Missing"] |}
    = Ret {| out := [ {| name := "from.x"; type := "integer"; required := true;
                         description := None |};
                      {| name := "to.x"; type := "integer"; required := false;
                         description := None |} ];
             visitedRefs := v' |}
    /\ incl ["#/components/schemas/Point"; "#/components/schemas/Missing"] v'.
Proof.
  apply (walk_fields_independent_of_visited 3 Samples.pair_doc Samples.Pair ""
           true Samples.start
           {| out := [ {| name := "from.x"; type := "integer"; required := true;
                          description := None |};
                       {| name := "to.x"; type := "integer"; required := false;
                          description := None |} ];
              visitedRefs := ["#/components/schemas/Missing"] |});
    reflexivity.
Defined.

(** ** Required-ness *)

Lemma requiredOf_nil (r : bool) : requiredOf r [] = r.
Proof. unfold requiredOf. simpl. apply andb_true_r. Qed.

Lemma requiredOf_inner (r : bool) (chain : containment) (set : list json)
  (key : string) :
  requiredOf r (chain ++ [(set, key)])%list
  = requiredOf r chain && set_has set key.
Proof.
  unfold requiredOf. rewrite forallb_app. simpl.
  now rewrite andb_true_r, andb_assoc.
Qed.

Lemma bind_ext {A B : Type} (a : outcome A) (f g : A -> outcome B) :
  (forall x, a = Ret x -> f x = g x) -> bind a f = bind a g.
Proof. intros H. destruct a; simpl; auto. Qed.

Lemma forEach_ext {A S : Type} (b1 b2 : A -> S -> outcome S) (l : list A) :
  (forall x st, b1 x st = b2 x st) ->
  forall st, forEach b1 l st = forEach b2 l st.
Proof.
  intros H. induction l as [|x r IH]; intros st; simpl; [reflexivity|].
  rewrite H. apply bind_ext. intros st' _. apply IH.
Qed.

#[local] Ltac chain_step :=
  cbv beta zeta;
  first
    [ reflexivity
    | apply bind_ext; intros ? ?
    | apply forEach_ext; intros ? ?
    | match goal with
      | |- (if ?c then _ else _) = (if ?c then _ else _) => destruct c
      | |- (match ?x with _ => _ end) = (match ?x with _ => _ end) => destruct x
      end ].

(** The flag [walkSchema] carries is the rule applied to the chain. *)
Lemma walkSchema_walkChain (fuel : nat) :
  forall doc schema prefix r chain st,
    walkSchema fuel doc schema prefix (requiredOf r chain) st
    = walkChain fuel doc schema prefix r chain st.
Proof.
  induction fuel as [|fuel IH]; intros doc schema prefix r chain st;
    [reflexivity|].
  cbn [walkSchema walkChain].
  repeat chain_step; rewrite <- ?requiredOf_inner; try reflexivity; apply IH.
Qed.

Lemma keeps_bind {A : Type} (P : list FieldInfo -> Prop) (a : outcome A)
  (f : A -> outcome walk_state) :
  (forall x, a = Ret x -> keeps P (f x)) -> keeps P (bind a f).
Proof. intros H. destruct a; simpl; auto. Qed.

Lemma keeps_forEach {A : Type} (P : list FieldInfo -> Prop)
  (body : A -> walk_state -> outcome walk_state) (l : list A) :
  (forall x st, P (out st) -> keeps P (body x st)) ->
  forall st, P (out st) -> keeps P (forEach body l st).
Proof.
  intros H. induction l as [|x r IH]; intros st HP; simpl; [exact HP|].
  specialize (H x st HP). destruct (body x st); simpl in *; auto.
Qed.

Lemma optional_push (f : FieldInfo) (st : walk_state) :
  required f = false -> optional (out st) -> optional (out (push f st)).
Proof.
  intros Hf H. unfold optional, push. simpl.
  apply Forall_app. split; [exact H|]. now constructor.
Qed.

#[local] Ltac keeps_step :=
  cbv beta zeta;
  first
    [ assumption
    | apply optional_push; [reflexivity|assumption]
    | apply keeps_forEach; [intros ? ? ?|assumption]
    | apply keeps_bind; intros ? ?
    | match goal with
      | |- keeps _ (Ret _) => cbn [keeps]
      | |- keeps _ Throw => exact I
      | |- keeps _ (if ?c then _ else _) => destruct c
      | |- keeps _ (match ?x with _ => _ end) => destruct x
      end ].

(** Walked as optional, a node yields only optional fields. *)
Lemma walkSchema_optional (fuel : nat) :
  forall doc schema prefix st,
    optional (out st) ->
    keeps optional (walkSchema fuel doc schema prefix false st).
Proof.
  induction fuel as [|fuel IH]; intros doc schema prefix st Hst; [exact I|].
  cbn [walkSchema andb].
  repeat keeps_step; apply IH; assumption.
Qed.

(** C4: required-ness is a conjunction down the containment chain.  The
    flag of every descriptor [walkSchema] emits is the root's flag and, for
    each enclosing object on the way to the field, the presence of the
    property name in that object's [required] list: the walk equals
    [walkChain], which computes the flag by that rule.  In particular a
    node walked as optional yields no required field, whatever the inner
    objects mark. *)
Theorem required_is_conjunction_down_the_chain :
  (forall fuel doc schema prefix rootRequired st,
      walkSchema fuel doc schema prefix rootRequired st
      = walkChain fuel doc schema prefix rootRequired [] st)
  /\ (forall fuel doc schema prefix st st',
         optional (out st) ->
         walkSchema fuel doc schema prefix false st = Ret st' ->
         optional (out st')).
Proof.
  split.
  - intros fuel doc schema prefix r st.
    rewrite <- (walkSchema_walkChain fuel doc schema prefix r [] st).
    now rewrite requiredOf_nil.
  - intros fuel doc schema prefix st st' Hst H.
    pose proof (walkSchema_optional fuel doc schema prefix st Hst) as K.
    now rewrite H in K.
Qed.

Lemma required_is_conjunction_down_the_chain_sample :
  walkSchema 3 Samples.empty_doc (Some Samples.A_requires_b) "a" true
    Samples.start
  = Ret {| out := [ {| name := "a.b.c"; type := "string"; required := true;
                       description := None |} ];
           visitedRefs := [] |}
  /\ walkSchema 3 Samples.empty_doc (Some Samples.A_requires_b) "a" false
       Samples.start
     = Ret {| out := [ {| name := "a.b.c"; type := "string"; required := false;
                          description := None |} ];
              visitedRefs := [] |}
  /\ optional [ {| name := "a.b.c"; type := "string"; required := false;
                   description := None |} ].
Proof.
  destruct required_is_conjunction_down_the_chain as [Hchain Hopt].
  split; [|split].
  - rewrite Hchain. reflexivity.
  - rewrite Hchain. reflexivity.
  - apply (Hopt 3 Samples.empty_doc (Some Samples.A_requires_b) "a"
             Samples.start
             {| out := [ {| name := "a.b.c"; type := "string";
                            required := false; description := None |} ];
                visitedRefs := [] |}).
    + constructor.
    + reflexivity.
Defined.

(** ** The examples of the specification *)

Example int64_renders_as_string :
  schemaToTypeText 1 Samples.empty_doc
    (Some (JObj [("type", JStr "integer"); ("format", JStr "int64")]))
  = Ret "string".
Proof. reflexivity. Qed.

Example int32_keeps_its_format :
  schemaToTypeText 1 Samples.empty_doc
    (Some (JObj [("type", JStr "integer"); ("format", JStr "int32")]))
  = Ret "integer(int32)".
Proof. reflexivity. Qed.

Example array_renders_its_items :
  schemaToTypeText 2 Samples.empty_doc
    (Some (JObj [("type", JStr "array"); ("items", Samples.string_t)]))
  = Ret "string[]".
Proof. reflexivity. Qed.

Example array_property_is_one_field :
  flattenSchemaFields 3 Samples.empty_doc
    (Samples.object_t []
       [("tags", JObj [("type", JStr "array"); ("items", Samples.string_t)])])
  = Ret [ {| name := "tags"; type := "string[]"; required := false;
             description := None |} ].
Proof. reflexivity. Qed.

Example absent_schema_is_unknown (doc : json) :
  schemaToTypeText 1 doc None = Ret "unknown".
Proof. reflexivity. Qed.

Example shared_definition_is_expanded_twice :
  flattenSchemaFields 4 Samples.pair_doc (Samples.ref "Pair")
  = Ret [ {| name := "from.x"; type := "integer"; required := true;
             description := None |};
          {| name := "to.x"; type := "integer"; required := false;
             description := None |} ].
Proof. reflexivity. Qed.

Example end_to_end_response_section :
  buildResponseLines 3 Samples.e2e_doc Samples.getUser
  = Ret ["- id: string (必填)"; "- age: integer"].
Proof. reflexivity. Qed.

(** ** Further facts about the code *)



(** With an empty [oneOf] beside a non-empty [anyOf], a node the
    flattener is called on passes the test on the lengths, and the members
    are then read from [oneOf]: the one descriptor emitted has the empty
    type, where the renderer gives the types of the [anyOf] members. *)
Theorem empty_oneOf_hides_anyOf
  (n : nat) (doc s : json) (members : list json) (prefix : string)
  (req : bool) (st : walk_state) :
  truthy (prop s "$ref") = false ->
  has_length (prop s "allOf") = false ->
  prop s "oneOf" = Some (JArr []) ->
  prop s "anyOf" = Some (JArr members) ->
  members <> [] ->
  walkSchema (S n) doc (Some s) prefix req st
  = Ret (push {| name := rootName prefix;
                 type := "";
                 required := req;
                 description := prop s "description" |} st)
  /\ flattenSchemaFields (S n) doc s
     = Ret [ {| name := "(root)"; type := ""; required := true;
                description := prop s "description" |} ]
  /\ (truthy (prop s "type") = false ->
      schemaToTypeText (S n) doc (Some s)
      = (ts <- mapM (fun x => schemaToTypeText n doc (Some x)) members ;;
         Ret (String.concat " | " ts))).
Proof.
  intros Hr Ha Ho Hy Hm.
  assert (Hs : truthy (Some s) = true) by exact (prop_Some_truthy _ _ _ Ho).
  assert (Hnn : s <> JNull) by (intros ->; discriminate).
  assert (Hres : resolveSchema doc s = Ret s)
    by exact (resolveSchema_unchanged doc s Hnn (or_introl Hr)).
  assert (Hlen : has_length (Some (JArr members)) = true)
    by (destruct members; [congruence|reflexivity]).
  assert (Hwalk : forall p r st0,
             walkSchema (S n) doc (Some s) p r st0
             = Ret (push {| name := rootName p;
                            type := "";
                            required := r;
                            description := prop s "description" |} st0)).
  { intros p r st0. cbn [walkSchema].
    rewrite Hs, Hr, Ha, Ho, Hy, Hlen. reflexivity. }
  split; [apply Hwalk|]. split.
  - unfold flattenSchemaFields. rewrite Hres. cbn [bind].
    now rewrite Hwalk.
  - intros Ht. cbn [schemaToTypeText].
    rewrite Hs, Hres. cbn [negb bind].
    rewrite Ht, Ha, Ho, Hy, Hlen. reflexivity.
Qed.

Lemma empty_oneOf_hides_anyOf_sample :
  walkSchema 2 Samples.empty_doc (Some Samples.empty_oneOf_beside_anyOf)
    "data" false Samples.start
  = Ret (push {| name := rootName "data";
                 type := "";
                 required := false;
                 description :=
                   prop Samples.empty_oneOf_beside_anyOf "description" |}
           Samples.start)
  /\ flattenSchemaFields 2 Samples.empty_doc Samples.empty_oneOf_beside_anyOf
     = Ret [ {| name := "(root)"; type := ""; required := true;
                description :=
                  prop Samples.empty_oneOf_beside_anyOf "description" |} ]
  /\ schemaToTypeText 2 Samples.empty_doc
       (Some Samples.empty_oneOf_beside_anyOf)
     = Ret "string".
Proof.
  destruct (empty_oneOf_hides_anyOf 1 Samples.empty_doc
              Samples.empty_oneOf_beside_anyOf [Samples.string_t] "data" false
              Samples.start)
    as (Hwalk & Hflat & Htext); try reflexivity; [discriminate|].
  split; [exact Hwalk|]. split; [exact Hflat|].
  rewrite Htext; reflexivity.
Defined.

(** ** Pointers and names *)

Lemma split_lacks (sep : ascii) (s : string) :
  lacks sep s = true -> split sep s = [s].
Proof.
  induction s as [|c r IH]; simpl; [reflexivity|].
  intros H. apply andb_true_iff in H as [Hc Hr].
  apply negb_true_iff in Hc. rewrite Hc, (IH Hr). reflexivity.
Qed.

Lemma split_nonempty (sep : ascii) (s : string) : split sep s <> [].
Proof.
  destruct s as [|c r]; simpl; [discriminate|].
  destruct (Ascii.eqb c sep); [discriminate|].
  destruct (split sep r); discriminate.
Qed.

Lemma split_app (sep : ascii) (s1 s2 : string) :
  split sep (s1 ++ String sep s2) = (split sep s1 ++ split sep s2)%list.
Proof.
  induction s1 as [|c r IH]; simpl.
  - now rewrite Ascii.eqb_refl.
  - destruct (Ascii.eqb c sep); simpl; [now rewrite IH|].
    rewrite IH. pose proof (split_nonempty sep r) as Hne.
    destruct (split sep r); [congruence|reflexivity].
Qed.

(** Splitting the joined keys gives the keys back. *)
Lemma split_concat (keys : list string) :
  keys <> [] ->
  Forall (fun k => lacks "/" k = true) keys ->
  split "/" (String.concat "/" keys) = keys.
Proof.
  induction keys as [|k r IH]; [congruence|]. intros _ H.
  inversion H as [|? ? Hk Hr]; subst.
  destruct r as [|k' r'].
  - simpl. now apply split_lacks.
  - change (String.concat "/" (k :: k' :: r'))
      with (k ++ String "/" (String.concat "/" (k' :: r'))).
    rewrite split_app, (split_lacks _ _ Hk), IH; [reflexivity|discriminate|exact Hr].
Qed.

Lemma follow_getPath (keys : list string) :
  forall v def,
    isObject v = true ->
    getPath v keys = Some def ->
    isObject def = true ->
    follow (Data (Some v)) keys = Some (Data (Some def)).
Proof.
  induction keys as [|k r IH]; intros v def Hv Hg Hd; simpl in *.
  - now injection Hg as ->.
  - destruct v as [| | | | |kvs]; try discriminate. simpl.
    destruct (lookup k kvs) as [x|] eqn:Hx; [|discriminate].
    destruct r as [|k' r'].
    + simpl in *. now injection Hg as ->.
    + apply IH; try assumption.
      simpl in Hg. destruct x; try discriminate. reflexivity.
Qed.

Lemma slice_append (a b : string) : slice (String.length a) (a ++ b) = b.
Proof. induction a as [|c r IH]; simpl; [now destruct b|exact IH]. Qed.

(** A value stored in the document under a path of keys is what the
    pointer spelling those keys resolves to, provided no key holds a slash
    and the value is an object: [resolveRef] splits the pointer at every
    slash and decodes nothing.  A definition whose name holds a slash is
    therefore out of reach of the pointer that spells its name, when the
    part of the name before the slash is no key of the table. *)
Theorem resolveRef_follows_the_keys (doc : json) (keys : list string) (def : json) :
  keys <> [] ->
  Forall (fun k => lacks "/" k = true) keys ->
  isObject doc = true ->
  getPath doc keys = Some def ->
  isObject def = true ->
  resolveRef doc (pointer keys) = Some def
  /\ (forall skvs a b,
         getPath doc ["components"; "schemas"] = Some (JObj skvs) ->
         lacks "/" a = true ->
         lookup a skvs = None ->
         a <> "__proto__" ->
         resolveRef doc (pointer ["components"; "schemas"; a ++ "/" ++ b]) = None).
Proof.
  intros Hne Hkeys Hdoc Hget Hdef. split.
  - unfold resolveRef, pointer.
    change (startsWith ("#/" ++ String.concat "/" keys) "#/")
      with (prefix "" (String.concat "/" keys)).
    change (slice 2 ("#/" ++ String.concat "/" keys))
      with (String.concat "/" keys).
    rewrite (split_concat keys Hne Hkeys).
    rewrite (follow_getPath keys doc def Hdoc Hget Hdef).
    destruct (String.concat "/" keys); destruct def; try discriminate; reflexivity.
  - intros skvs a b Hs Ha Hl Hp.
    unfold resolveRef, pointer.
    change (startsWith ("#/" ++ String.concat "/" ["components"; "schemas"; a ++ "/" ++ b]) "#/")
      with true.
    change (slice 2 ("#/" ++ String.concat "/" ["components"; "schemas"; a ++ "/" ++ b]))
      with ("components/schemas/" ++ (a ++ "/" ++ b)).
    change ("components/schemas/" ++ (a ++ "/" ++ b))
      with ("components" ++ String "/" ("schemas" ++ String "/" (a ++ String "/" b))).
    rewrite !split_app, (split_lacks _ a Ha).
    change (split "/" "components") with ["components"].
    change (split "/" "schemas") with ["schemas"].
    simpl app.
    destruct doc as [| | | | |dkvs]; try discriminate. simpl in Hs |- *.
    destruct (lookup "components" dkvs) as [[| | | | |ckvs]|]; try discriminate.
    simpl. destruct (lookup "schemas" ckvs) as [sv|]; [|discriminate].
    injection Hs as ->. simpl. rewrite Hl.
    apply String.eqb_neq in Hp. rewrite Hp.
    destruct (split "/" b); reflexivity.
Qed.

Lemma resolveRef_follows_the_keys_sample :
  resolveRef MoreSamples.slash_doc (pointer ["components"; "schemas"])
  = Some (JObj [("geo/Point", Samples.string_t)])
  /\ lookup "geo/Point" [("geo/Point", Samples.string_t)] = Some Samples.string_t
  /\ resolveRef MoreSamples.slash_doc
       (pointer ["components"; "schemas"; "geo" ++ "/" ++ "Point"])
     = None.
Proof.
  destruct (resolveRef_follows_the_keys MoreSamples.slash_doc
              ["components"; "schemas"]
              (JObj [("geo/Point", Samples.string_t)]))
    as [Hfound Hslash]; try reflexivity.
  - discriminate.
  - repeat constructor.
  - split; [exact Hfound|]. split; [reflexivity|].
    apply (Hslash [("geo/Point", Samples.string_t)] "geo" "Point");
      try reflexivity. discriminate.
Defined.

Lemma lastIndexOf_lacks (c : ascii) (s : string) :
  lastIndexOf c s = None <-> lacks c s = true.
Proof.
  induction s as [|d r IH]; simpl; [tauto|].
  destruct (lastIndexOf c r).
  - split; [discriminate|]. intros H. apply andb_true_iff in H as [_ H].
    apply IH in H. discriminate.
  - destruct (Ascii.eqb d c); simpl; split; try discriminate; try reflexivity.
    intros _. now apply IH.
Qed.

(** [refToName] cuts a reference after its last slash: the name holds no
    slash, and the reference is the name itself or ends in a slash followed
    by the name. *)
Theorem refToName_is_the_last_segment (ref : string) :
  lacks "/" (refToName ref) = true
  /\ (ref = refToName ref \/ exists q, ref = q ++ "/" ++ refToName ref).
Proof.
  induction ref as [|d r [IHl IHr]]; [split; [reflexivity|now left]|].
  unfold refToName in *. cbn [lastIndexOf].
  destruct (lastIndexOf "/" r) as [i|] eqn:Hi.
  - cbn [slice]. split; [exact IHl|]. right.
    destruct IHr as [Heq|[q Hq]].
    + rewrite <- Heq in IHl. apply lastIndexOf_lacks in IHl. congruence.
    + exists (String d q). simpl. f_equal. exact Hq.
  - destruct (Ascii.eqb d "/") eqn:Hd.
    + apply Ascii.eqb_eq in Hd. subst d. cbn [slice]. split; [exact IHl|].
      right. now exists "".
    + split; [|now left]. simpl. rewrite Hd. exact IHl.
Qed.

(** A node whose reference does not resolve, and that holds nothing else to
    render, is rendered as the last segment of the reference; flattening it
    gives no field, so a response made of it is the one line of that name. *)
Theorem dangling_reference_is_shown_by_name
  (n : nat) (doc s : json) (ref : string) :
  prop s "$ref" = Some (JStr ref) ->
  ref <> "" ->
  resolveRef doc ref = None ->
  truthy (prop s "type") = false ->
  has_length (prop s "allOf") = false ->
  has_length (prop s "oneOf") = false ->
  has_length (prop s "anyOf") = false ->
  truthy (prop s "properties") = false ->
  schemaToTypeText (S n) doc (Some s) = Ret (refToName ref)
  /\ flattenSchemaFields (S (S n)) doc s = Ret []
  /\ forall op r,
       op <> JNull ->
       preferredResponse (or_empty (prop op "responses")) = Some r ->
       truthy (Some r) = true ->
       extractResponseSchema r = Some s ->
       buildResponseLines (S (S n)) doc op = Ret ["- " ++ refToName ref].
Proof.
  intros Hp Hne Hr Hty Ha Ho Hy Hpr.
  assert (Ht : truthy (prop s "$ref") = true).
  { rewrite Hp. destruct ref; [congruence|reflexivity]. }
  assert (Hs : truthy (Some s) = true) by exact (prop_Some_truthy _ _ _ Hp).
  assert (Hnn : s <> JNull) by (intros ->; discriminate).
  assert (Hres : resolveSchema doc s = Ret s).
  { apply resolveSchema_unchanged; [exact Hnn|]. right. now exists ref. }
  assert (Htext : forall m, schemaToTypeText (S m) doc (Some s) = Ret (refToName ref)).
  { intros m. cbn [schemaToTypeText]. rewrite Hs, Hres. cbn [negb bind].
    now rewrite Hty, Ha, Ho, Hy, Hpr, Ht, Hp. }
  assert (Hflat : flattenSchemaFields (S (S n)) doc s = Ret []).
  { unfold flattenSchemaFields. rewrite Hres. cbn [bind].
    rewrite (walkSchema_dangling n doc s ref "" true _ Hres Hp Ht).
    reflexivity. }
  split; [apply Htext|]. split; [exact Hflat|].
  intros op r Hop Hpref Htr Hex.
  unfold buildResponseLines. rewrite Hpref, Htr, Hex, Hflat. cbn [negb bind].
  rewrite Htext. now destruct op.
Qed.

Lemma dangling_reference_is_shown_by_name_sample :
  schemaToTypeText 1 Samples.empty_doc
    (Some MoreSamples.external) = Ret "Pet"
  /\ flattenSchemaFields 2 Samples.empty_doc MoreSamples.external = Ret []
  /\ buildResponseLines 2 Samples.empty_doc MoreSamples.external_response
     = Ret ["- Pet"].
Proof.
  destruct (dangling_reference_is_shown_by_name 0 Samples.empty_doc
              MoreSamples.external "common.json#/definitions/Pet")
    as (Htext & Hflat & Hresp); try reflexivity; [discriminate|].
  split; [exact Htext|]. split; [exact Hflat|].
  apply (Hresp MoreSamples.external_response
           (JObj [("schema", MoreSamples.external)]));
    try reflexivity. discriminate.
Defined.

(** ** What a walk adds to the result array *)

Lemma append_assoc (a b c : string) : (a ++ b) ++ c = a ++ (b ++ c).
Proof. induction a as [|x r IH]; simpl; [reflexivity|now rewrite IH]. Qed.

Lemma extends_refl (p : string) (l : list FieldInfo) : extends p l l.
Proof. exists []. split; [now rewrite app_nil_r|constructor]. Qed.

Lemma extends_trans (p : string) (a b c : list FieldInfo) :
  extends p a b -> extends p b c -> extends p a c.
Proof.
  intros (n1 & -> & H1) (n2 & -> & H2). exists (n1 ++ n2)%list.
  split; [now rewrite app_assoc|]. apply Forall_app. now split.
Qed.

Lemma extends_push (p : string) (old : list FieldInfo) (f : FieldInfo)
  (st : walk_state) :
  under p f -> extends p old (out st) -> extends p old (out (push f st)).
Proof.
  intros Hf H. apply (extends_trans p old (out st)); [exact H|].
  exists [f]. split; [reflexivity|]. now constructor.
Qed.

Lemma under_child (p k : string) (f : FieldInfo) :
  under (childName p k) f -> under p f.
Proof.
  unfold under, childName, rootName.
  destruct (p =? "") eqn:Hp; [intros _; right; now exists (name f)|].
  assert (Hc : (p ++ "." ++ k =? "") = false).
  { destruct p; [discriminate|reflexivity]. }
  rewrite Hc. intros [H|[key H]]; right.
  - now exists k.
  - exists (k ++ "." ++ key). rewrite H.
    rewrite append_assoc. reflexivity.
Qed.

Lemma extends_child (p k : string) (a b : list FieldInfo) :
  extends (childName p k) a b -> extends p a b.
Proof.
  intros (new & -> & H). exists new. split; [reflexivity|].
  eapply Forall_impl; [|exact H]. intros f. apply under_child.
Qed.

Lemma keeps_weaken (P Q : list FieldInfo -> Prop) (o : outcome walk_state) :
  (forall l, P l -> Q l) -> keeps P o -> keeps Q o.
Proof. intros H. destruct o; simpl; auto. Qed.

#[local] Ltac extends_step :=
  cbv beta zeta;
  first
    [ assumption
    | apply extends_push;
      [first [left; reflexivity | right; eexists; reflexivity]|assumption]
    | apply keeps_forEach; [intros ? ? ?|assumption]
    | apply keeps_bind; intros ? ?
    | match goal with
      | |- keeps _ (Ret _) => cbn [keeps]
      | |- keeps _ Throw => exact I
      | |- keeps _ (if ?c then _ else _) => destruct c
      | |- keeps _ (match ?x with _ => _ end) => destruct x
      end ].

Lemma walkSchema_extends (fuel : nat) :
  forall doc schema prefix req st old,
    extends prefix old (out st) ->
    keeps (extends prefix old) (walkSchema fuel doc schema prefix req st).
Proof.
  induction fuel as [|fuel IH]; intros doc schema prefix req st old Hst;
    [exact I|].
  cbn [walkSchema].
  repeat extends_step;
    match goal with
    | |- keeps (extends ?p ?old) (walkSchema _ _ _ ?p' _ ?s) =>
        apply (keeps_weaken (extends p' (out s)));
        [ let l := fresh "l" in let Hl := fresh "Hl" in
          intros l Hl; apply (extends_trans p old (out s) l);
          [assumption|first [exact Hl|exact (extends_child _ _ _ _ Hl)]]
        | apply IH; apply extends_refl ]
    end.
Qed.

(** A walk only appends to the result array, and every field it appends is
    named for the prefix it was given or for something below it: the prefix
    itself, or the prefix, a dot and a property path. *)
Theorem walkSchema_appends_under_its_prefix
  (fuel : nat) (doc : json) (schema : value) (prefix : string) (req : bool)
  (st st' : walk_state) :
  prefix <> "" ->
  walkSchema fuel doc schema prefix req st = Ret st' ->
  exists new,
    out st' = (out st ++ new)%list
    /\ Forall (fun f => name f = prefix
                        \/ exists path, name f = prefix ++ "." ++ path) new.
Proof.
  intros Hp H.
  pose proof (walkSchema_extends fuel doc schema prefix req st (out st)
                (extends_refl _ _)) as Hk.
  rewrite H in Hk. destruct Hk as (new & Hout & Hnew).
  exists new. split; [exact Hout|].
  eapply Forall_impl; [|exact Hnew].
  apply String.eqb_neq in Hp.
  unfold under, rootName, childName. rewrite Hp. tauto.
Qed.

Lemma walkSchema_appends_under_its_prefix_sample :
  exists new,
    [ {| name := "id"; type := "string"; required := true; description := None |};
      {| name := "data.b.c"; type := "string"; required := true;
         description := None |} ]
    = ([ {| name := "id"; type := "string"; required := true;
            description := None |} ] ++ new)%list
    /\ Forall (fun f => name f = "data"
                        \/ exists path, name f = "data" ++ "." ++ path) new.
Proof.
  apply (walkSchema_appends_under_its_prefix 3 Samples.empty_doc
           (Some Samples.A_requires_b) "data" true
           {| out := [ {| name := "id"; type := "string"; required := true;
                          description := None |} ];
              visitedRefs := [] |}
           {| out := [ {| name := "id"; type := "string"; required := true;
                          description := None |};
                       {| name := "data.b.c"; type := "string"; required := true;
                          description := None |} ];
              visitedRefs := [] |});
    [discriminate|reflexivity].
Defined.

(** ** Identifiers of operations *)

Lemma lower_ascii_colon (c : ascii) :
  Ascii.eqb (lower_ascii c) ":" = Ascii.eqb c ":".
Proof. destruct c as [[] [] [] [] [] [] [] []]; reflexivity. Qed.

Lemma lacks_colon_toLowerCase (s : string) :
  lacks ":" (toLowerCase s) = lacks ":" s.
Proof.
  induction s as [|c r IH]; simpl; [reflexivity|].
  now rewrite lower_ascii_colon, IH.
Qed.

(** A method key holds no colon. *)
Lemma recognised_lacks_colon (k : string) :
  has httpMethods (toLowerCase k) = true -> lacks ":" k = true.
Proof.
  intros H. rewrite <- lacks_colon_toLowerCase.
  unfold has, httpMethods in H. simpl in H.
  repeat (apply orb_true_iff in H; destruct H as [H|H]);
    try discriminate; apply String.eqb_eq in H; rewrite H; reflexivity.
Qed.

Lemma append_colon_inj (a b x y : string) :
  lacks ":" a = true -> lacks ":" b = true ->
  a ++ ":" ++ x = b ++ ":" ++ y -> a = b /\ x = y.
Proof.
  revert b. induction a as [|c r IH]; intros [|d s] Ha Hb E; simpl in *.
  - injection E as ->. now split.
  - injection E as <- _. discriminate.
  - injection E as -> _. discriminate.
  - injection E as -> E.
    apply andb_true_iff in Ha as [_ Ha]. apply andb_true_iff in Hb as [_ Hb].
    destruct (IH s Ha Hb E) as [-> ->]. now split.
Qed.

Lemma methodEntries_recognised (doc : json) (e : string * string * json) :
  In e (methodEntries doc) -> has httpMethods (toLowerCase (snd (fst e))) = true.
Proof.
  unfold methodEntries. intros H.
  apply in_flat_map in H as (kv & _ & H). unfold methodsOf in H.
  destruct (negb (truthy (Some (snd kv))) || negb (typeof_object (Some (snd kv))));
    [contradiction|].
  apply in_map_iff in H as (mo & <- & H).
  apply filter_In in H as [_ H]. exact H.
Qed.

Lemma NoDup_map_determined {A B C : Type} (f : A -> B) (g : A -> C)
  (l : list A) :
  (forall a b, In a l -> In b l -> f a = f b -> g a = g b) ->
  NoDup (map g l) -> NoDup (map f l).
Proof.
  induction l as [|x r IH]; simpl; intros H ND; [constructor|].
  inversion ND as [|? ? Hnot ND']; subst. constructor.
  - intros HIn. apply in_map_iff in HIn as (y & E & Hy).
    apply Hnot. rewrite <- (H y x); auto. now apply in_map.
  - apply IH; auto.
Qed.

Lemma buildOperations_Ret lc (doc : json) (ops : list ApiOperation) :
  buildOperations lc doc = Ret ops ->
  ops = sort lc (map recordOf (methodEntries doc)).
Proof.
  intros H.
  assert (Hdoc : doc <> JNull) by (intros ->; discriminate).
  rewrite (buildOperations_unfold lc doc Hdoc) in H.
  destruct (existsb nullOperation (methodEntries doc)); [discriminate|].
  now injection H as <-.
Qed.

(** In a document whose operations carry no [operationId], the identifiers
    of the records are pairwise distinct: a method key holds no colon, so
    [method:path] determines the key and the path. *)
Theorem identifiers_distinct_without_operationId
  (lc : string -> string -> Z) (doc : json) (ops : list ApiOperation) :
  buildOperations lc doc = Ret ops ->
  NoDup (map fst (methodEntries doc)) ->
  Forall (fun e => truthy (prop (snd e) "operationId") = false)
    (methodEntries doc) ->
  NoDup (map id ops).
Proof.
  intros H ND Hno. rewrite (buildOperations_Ret lc doc ops H).
  eapply Permutation_NoDup.
  - apply Permutation_map, Permutation_sym, sort_Permutation.
  - rewrite map_map.
    apply (NoDup_map_determined _ fst); [|exact ND].
    intros [[p1 k1] o1] [[p2 k2] o2] H1 H2 E.
    rewrite Forall_forall in Hno.
    pose proof (Hno _ H1) as N1. pose proof (Hno _ H2) as N2.
    pose proof (methodEntries_recognised _ _ H1) as R1.
    pose proof (methodEntries_recognised _ _ H2) as R2.
    simpl in *. rewrite N1, N2 in E.
    destruct (append_colon_inj k1 k2 p1 p2) as [-> ->];
      auto using recognised_lacks_colon.
Qed.

Lemma identifiers_distinct_without_operationId_sample :
  NoDup ["get:/a"; "GET:/a"].
Proof.
  apply (identifiers_distinct_without_operationId codeUnitCompare
           Samples.get_then_GET
           [recordOf ("/a", "get", JObj []); recordOf ("/a", "GET", JObj [])]).
  - reflexivity.
  - repeat constructor; simpl; intuition discriminate.
  - repeat constructor.
Defined.

Lemma enumerate_single (kv : string * json) : enumerate [kv] = [kv].
Proof.
  unfold enumerate, index_entries, is_index_key. simpl.
  destruct (array_index (fst kv)); reflexivity.
Qed.

Lemma toggle_selects (opId : string) (checked : bool) (prev : selection) :
  isSelected (toggle opId checked prev) opId = checked.
Proof.
  unfold isSelected, toggle. rewrite lookup_obj_set, String.eqb_refl.
  now destruct checked.
Qed.

Lemma append_longer (p : string) (c : ascii) (x : string) :
  p <> p ++ String c x.
Proof.
  induction p as [|d r IH]; simpl; [discriminate|].
  intros H. injection H as H. now apply IH.
Qed.

(** With an [operationId] the identifier is not unique: the operation
    [o] of a path [p] and an operation without [operationId] under the
    path [p:o], on the same method key, get one identifier.  The selection
    is keyed by identifier, so ticking either of the two selects both. *)
Theorem identifier_collides_with_colon_path
  (lc : string -> string -> Z) (p key o : string) :
  has httpMethods (toLowerCase key) = true ->
  o <> "" ->
  exists r1 r2 ops,
    buildOperations lc (MoreSamples.colon_doc p key o) = Ret ops
    /\ Permutation ops [r1; r2]
    /\ path r1 = p /\ path r2 = p ++ ":" ++ o
    /\ path r1 <> path r2
    /\ id r1 = id r2
    /\ forall prev, chosen ops (toggle (id r1) true prev) = ops.
Proof.
  intros Hkey Ho.
  set (op1 := JObj [("operationId", JStr o)]).
  set (e1 := (p, key, op1)). set (e2 := (p ++ ":" ++ o, key, JObj [])).
  assert (P : Permutation (methodEntries (MoreSamples.colon_doc p key o)) [e1; e2]).
  { unfold methodEntries, MoreSamples.colon_doc.
    cbn [prop lookup String.eqb Ascii.eqb Bool.eqb or_empty entries].
    rewrite (Permutation_flat_map methodsOf (enumerate_Permutation _)).
    cbn [flat_map]. unfold methodsOf.
    cbn [snd fst truthy typeof_object negb orb entries].
    rewrite !enumerate_single. cbn [filter]. unfold recognised at 1 2.
    cbn [fst]. rewrite Hkey. reflexivity. }
  assert (Hdoc : MoreSamples.colon_doc p key o <> JNull) by discriminate.
  assert (Hid : id (recordOf e1) = id (recordOf e2)).
  { unfold e1, e2, op1. simpl. destruct o as [|c r]; [congruence|]. simpl.
    reflexivity. }
  exists (recordOf e1), (recordOf e2), (sort lc (map recordOf
            (methodEntries (MoreSamples.colon_doc p key o)))).
  split.
  { rewrite (buildOperations_unfold lc _ Hdoc).
    now rewrite (existsb_Permutation _ _ _ P). }
  assert (P' : Permutation
                 (sort lc (map recordOf
                    (methodEntries (MoreSamples.colon_doc p key o))))
                 [recordOf e1; recordOf e2]).
  { rewrite sort_Permutation. exact (Permutation_map recordOf P). }
  split; [exact P'|]. split; [reflexivity|]. split; [reflexivity|].
  split; [apply append_longer|]. split; [exact Hid|].
  intros prev. unfold chosen.
  apply forallb_filter_id. apply forallb_forall. intros r Hr.
  apply (Permutation_in _ P') in Hr.
  destruct Hr as [<-|[<-|[]]]; rewrite <- ?Hid; apply toggle_selects.
Qed.

Lemma identifier_collides_with_colon_path_sample :
  exists r1 r2 ops,
    buildOperations codeUnitCompare
      (MoreSamples.colon_doc "/v1/jobs" "post" "cancel") = Ret ops
    /\ Permutation ops [r1; r2]
    /\ path r1 = "/v1/jobs" /\ path r2 = "/v1/jobs" ++ ":" ++ "cancel"
    /\ path r1 <> path r2
    /\ id r1 = id r2
    /\ forall prev, chosen ops (toggle (id r1) true prev) = ops.
Proof.
  apply (identifier_collides_with_colon_path codeUnitCompare
           "/v1/jobs" "post" "cancel"); [reflexivity|discriminate].
Defined.

(** ** The request section *)

Lemma groupStep_groupable (p : json) (gs : groups) :
  groupStep p gs
  = if groupable p then Ret (pushTo (locationOf p) p gs) else Throw.
Proof.
  unfold groupStep, groupable.
  destruct p; cbv beta zeta; cbn [isNull negb andb]; try reflexivity;
    match goal with |- context [has objectPrototypeNames ?k] =>
      destruct (has objectPrototypeNames k); reflexivity
    end.
Qed.

Lemma forEach_groupStep (ps : list json) :
  forall gs,
    forEach groupStep ps gs
    = if forallb groupable ps
      then Ret (fold_left (fun gs p => pushTo (locationOf p) p gs) ps gs)
      else Throw.
Proof.
  induction ps as [|p r IH]; intros gs; simpl; [reflexivity|].
  rewrite groupStep_groupable. destruct (groupable p); simpl; [apply IH|reflexivity].
Qed.

Lemma groupOf_pushTo (k key : string) (p : json) (gs : groups) :
  groupOf k (pushTo key p gs)
  = if key =? k then (groupOf k gs ++ [p])%list else groupOf k gs.
Proof.
  unfold groupOf. induction gs as [|[k0 ps0] r IH]; simpl.
  - destruct (key =? k); reflexivity.
  - destruct (String.eqb_spec k0 key) as [->|Hk0]; simpl.
    + destruct (key =? k); reflexivity.
    + destruct (String.eqb_spec k0 k) as [->|Hk].
      * apply String.eqb_neq in Hk0. rewrite String.eqb_sym in Hk0.
        now rewrite Hk0.
      * exact IH.
Qed.

Lemma keys_pushTo (k key : string) (p : json) (gs : groups) :
  In k (map fst (pushTo key p gs)) <-> k = key \/ In k (map fst gs).
Proof.
  induction gs as [|[k0 ps0] r IH]; simpl.
  - intuition.
  - destruct (String.eqb_spec k0 key) as [->|Hk0]; simpl; intuition.
Qed.

Lemma NoDup_pushTo (key : string) (p : json) (gs : groups) :
  NoDup (map fst gs) -> NoDup (map fst (pushTo key p gs)).
Proof.
  induction gs as [|[k0 ps0] r IH]; simpl; intros ND.
  - repeat constructor. intros [].
  - inversion ND as [|? ? Hnot ND']; subst.
    destruct (String.eqb_spec k0 key) as [->|Hk0]; simpl.
    + now constructor.
    + constructor; [|now apply IH].
      intros HIn. apply keys_pushTo in HIn as [->|HIn]; congruence.
Qed.

Lemma grouping_invariant (ps : list json) :
  forall gs,
    let G := fold_left (fun gs p => pushTo (locationOf p) p gs) ps gs in
    (forall k, groupOf k G = (groupOf k gs ++ parametersIn k ps)%list)
    /\ (forall k, In k (map fst G)
                  <-> In k (map fst gs) \/ exists p, In p ps /\ locationOf p = k)
    /\ (NoDup (map fst gs) -> NoDup (map fst G)).
Proof.
  induction ps as [|p r IH]; intros gs; simpl.
  - split; [intros k; now rewrite app_nil_r|]. split; [|auto].
    intros k. split; [auto|]. intros [H|(p & [] & _)]. exact H.
  - destruct (IH (pushTo (locationOf p) p gs)) as (Hg & Hk & Hn).
    split; [|split].
    + intros k. rewrite Hg, groupOf_pushTo. unfold parametersIn. simpl.
      destruct (locationOf p =? k); [|reflexivity].
      now rewrite <- app_assoc.
    + intros k. rewrite Hk, keys_pushTo. split.
      * intros [[->|H]|(q & Hq & E)]; eauto.
      * intros [H|(q & [->|Hq] & E)]; eauto.
    + intros ND. apply Hn. now apply NoDup_pushTo.
Qed.

Lemma insertKey_Permutation (k : string) (l : list string) :
  Permutation (insertKey k l) (k :: l).
Proof.
  induction l as [|y r IH]; simpl; [reflexivity|].
  destruct (String.ltb k y); [reflexivity|].
  rewrite IH. apply perm_swap.
Qed.

Lemma sortKeys_from_Permutation (l : list string) :
  forall acc,
    Permutation (fold_left (fun acc k => insertKey k acc) l acc) (acc ++ l)%list.
Proof.
  induction l as [|x l IH]; intros acc; simpl.
  - now rewrite app_nil_r.
  - rewrite IH, insertKey_Permutation. now apply Permutation_cons_app.
Qed.

Lemma sortKeys_Permutation (l : list string) : Permutation (sortKeys l) l.
Proof. apply (sortKeys_from_Permutation l []). Qed.

Lemma ltb_false_le (a b : string) :
  String.ltb a b = false <-> (codeUnitCompare b a <= 0)%Z.
Proof.
  unfold String.ltb, codeUnitCompare. rewrite (String.compare_antisym b a).
  destruct (String.compare a b); simpl; split; intros; try reflexivity;
    try discriminate; lia.
Qed.

Lemma insertKey_sorted (k : string) (l : list string) :
  StronglySorted (fun a b => String.ltb b a = false) l ->
  StronglySorted (fun a b => String.ltb b a = false) (insertKey k l).
Proof.
  induction 1 as [|y r Hr IH Hy]; simpl.
  - repeat constructor.
  - destruct (String.ltb k y) eqn:E.
    + assert (Hky : String.ltb y k = false).
      { unfold String.ltb in *. rewrite (String.compare_antisym y k).
        destruct (String.compare k y); simpl; congruence. }
      constructor; [now constructor|]. constructor; [exact Hky|].
      eapply Forall_impl; [|exact Hy]. intros z Hz. simpl in Hz.
      apply ltb_false_le. apply ltb_false_le in Hky, Hz.
      eapply codeUnitCompare_trans; eassumption.
    + constructor; [exact IH|].
      eapply Permutation_Forall;
        [apply Permutation_sym, insertKey_Permutation|].
      now constructor.
Qed.

Lemma sortKeys_from_sorted (l : list string) :
  forall acc,
    StronglySorted (fun a b => String.ltb b a = false) acc ->
    StronglySorted (fun a b => String.ltb b a = false)
      (fold_left (fun acc k => insertKey k acc) l acc).
Proof.
  induction l as [|x l IH]; intros acc Hs; simpl; [exact Hs|].
  apply IH. now apply insertKey_sorted.
Qed.

(** Distinct keys come out in strictly ascending order. *)
Lemma sortKeys_ascending (l : list string) :
  NoDup l -> StronglySorted (fun a b => String.ltb a b = true) (sortKeys l).
Proof.
  intros ND.
  assert (Hs : StronglySorted (fun a b => String.ltb b a = false) (sortKeys l)).
  { apply sortKeys_from_sorted. constructor. }
  assert (ND' : NoDup (sortKeys l)).
  { eapply Permutation_NoDup; [|exact ND].
    apply Permutation_sym, sortKeys_Permutation. }
  induction Hs as [|a r Hr IH Ha]; [constructor|].
  inversion ND' as [|? ? Hnot ND'']; subst.
  constructor; [now apply IH|].
  rewrite Forall_forall in *. intros b Hb.
  specialize (Ha b Hb). simpl in Ha.
  unfold String.ltb in *. rewrite (String.compare_antisym b a) in Ha.
  destruct (String.compare a b) eqn:E; simpl in Ha; try congruence.
  apply String.compare_eq_iff in E. subst b. contradiction.
Qed.

Lemma forEach_push_mapM {A : Type} (f : A -> outcome string) (l : list A) :
  forall lines,
    forEach (fun x lines => line <- f x ;; Ret (lines ++ [line])%list) l lines
    = (ls <- mapM f l ;; Ret (lines ++ ls)%list).
Proof.
  induction l as [|x r IH]; intros lines; simpl.
  - now rewrite app_nil_r.
  - destruct (f x) as [y| |]; simpl; try reflexivity.
    rewrite IH. destruct (mapM f r); simpl; try reflexivity.
    now rewrite <- app_assoc.
Qed.

Lemma forEach_blocks_mapM {A : Type} (g : A -> outcome (list string))
  (body : A -> list string -> outcome (list string)) (l : list A) :
  (forall x lines, body x lines = (b <- g x ;; Ret (lines ++ b)%list)) ->
  forall lines,
    forEach body l lines
    = (bs <- mapM g l ;; Ret (lines ++ List.concat bs)%list).
Proof.
  intros Hbody. induction l as [|x r IH]; intros lines; simpl.
  - now rewrite app_nil_r.
  - rewrite Hbody. destruct (g x) as [b| |]; simpl; try reflexivity.
    rewrite IH. destruct (mapM g r); simpl; try reflexivity.
    now rewrite <- app_assoc.
Qed.

Lemma mapM_ext {A B : Type} (f g : A -> outcome B) (l : list A) :
  (forall x, In x l -> f x = g x) -> mapM f l = mapM g l.
Proof.
  induction l as [|x r IH]; intros H; simpl; [reflexivity|].
  rewrite (H x (or_introl eq_refl)), IH; auto.
  intros y Hy. apply H. now right.
Qed.

Lemma groupLines_block (fuel : nat) (doc : json) (gs : groups) (key : string)
  (lines : list string) :
  groupLines fuel doc gs key lines
  = (b <- (ls <- mapM (parameterLine fuel doc) (groupOf key gs) ;;
           Ret (("- " ++ key ++ ":") :: ls)) ;;
     Ret (lines ++ b)%list).
Proof.
  unfold groupLines. rewrite forEach_push_mapM.
  destruct (mapM _ _); simpl; try reflexivity.
  now rewrite <- app_assoc.
Qed.

(** The parameter lines of an operation, for parameters that can be
    grouped. *)
Lemma parameter_lines (fuel : nat) (doc : json) (ps : list json) :
  forallb groupable ps = true ->
  exists keys,
    (gs <- groupParameters ps ;;
     forEach (groupLines fuel doc gs) (sortKeys (map fst gs)) [])
    = parameterSection fuel doc ps keys
    /\ StronglySorted (fun a b => String.ltb a b = true) keys
    /\ (forall k, In k keys <-> exists p, In p ps /\ locationOf p = k).
Proof.
  intros Hg. unfold groupParameters. rewrite forEach_groupStep, Hg.
  destruct (grouping_invariant ps []) as (Hgroup & Hkeys & Hnd).
  set (G := fold_left (fun gs p => pushTo (locationOf p) p gs) ps []) in *.
  exists (sortKeys (map fst G)). split; [|split].
  - cbn [bind].
    rewrite (forEach_blocks_mapM _ _ _ (groupLines_block fuel doc G)).
    unfold parameterSection. f_equal.
    apply mapM_ext. intros k _. now rewrite Hgroup.
  - apply sortKeys_ascending, Hnd. constructor.
  - intros k. split.
    + intros H. apply (Permutation_in _ (sortKeys_Permutation _)) in H.
      apply Hkeys in H as [[]|H]. exact H.
    + intros H. apply (Permutation_in _ (Permutation_sym (sortKeys_Permutation _))).
      apply Hkeys. now right.
Qed.

Lemma buildRequestLines_sections (fuel : nat) (doc op : json) :
  op <> JNull ->
  buildRequestLines fuel doc op
  = (ps <- elements (prop op "parameters") ;;
     lines <- (gs <- groupParameters ps ;;
               forEach (groupLines fuel doc gs) (sortKeys (map fst gs)) []) ;;
     b <- bodySection fuel doc op ;;
     Ret (lines ++ b)%list).
Proof.
  intros Hop.
  assert (E : buildRequestLines fuel doc op
              = (params <- elements (prop op "parameters") ;;
                 gs <- groupParameters params ;;
                 lines <- forEach (groupLines fuel doc gs) (sortKeys (map fst gs)) [] ;;
                 match extractRequestBodySchema op with
                 | Some bodySchema =>
                     if negb (truthy (Some bodySchema)) then Ret lines
                     else
                       fields <- flattenSchemaFields fuel doc bodySchema ;;
                       match fields with
                       | [] =>
                           t <- schemaToTypeText fuel doc (Some bodySchema) ;;
                           Ret ((lines ++ ["- body:"]) ++ [("  - " ++ t)%string])%list
                       | _ => Ret ((lines ++ ["- body:"]) ++ map bodyFieldLine fields)%list
                       end
                 | None => Ret lines
                 end)).
  { destruct op; try congruence; reflexivity. }
  rewrite E.
  destruct (elements (prop op "parameters")) as [ps| |]; cbn [bind];
    try reflexivity.
  destruct (groupParameters ps) as [gs| |]; cbn [bind]; try reflexivity.
  destruct (forEach _ _ _) as [lines| |]; cbn [bind]; try reflexivity.
  unfold bodySection.
  destruct (extractRequestBodySchema op) as [s|]; cbn [bind];
    [|now rewrite app_nil_r].
  destruct (truthy (Some s)); cbn [negb bind]; [|now rewrite app_nil_r].
  destruct (flattenSchemaFields fuel doc s) as [[|f fs]| |]; cbn [bind];
    try reflexivity.
  - destruct (schemaToTypeText fuel doc (Some s)); cbn [bind]; try reflexivity.
    now rewrite <- app_assoc.
  - now rewrite <- app_assoc.
Qed.

Lemma parameterSection_nil (fuel : nat) (doc : json) (ps : list json)
  (keys : list string) :
  parameterSection fuel doc ps keys = Ret [] -> keys = [].
Proof.
  destruct keys as [|k r]; [reflexivity|].
  unfold parameterSection. cbn [mapM].
  destruct (mapM (parameterLine fuel doc) (parametersIn k ps)); cbn [bind];
    try discriminate.
  destruct (mapM _ r); cbn [bind]; discriminate.
Qed.

Lemma bodySection_nil (fuel : nat) (doc op : json) :
  bodySection fuel doc op = Ret [] <->
  truthy (extractRequestBodySchema op) = false.
Proof.
  unfold bodySection.
  destruct (extractRequestBodySchema op) as [s|]; [|split; reflexivity].
  destruct (truthy (Some s)); [|split; reflexivity].
  split; [|discriminate].
  destruct (flattenSchemaFields fuel doc s) as [[|f fs]| |]; cbn [bind];
    try discriminate.
  destruct (schemaToTypeText fuel doc (Some s)); cbn [bind]; discriminate.
Qed.

Lemma namedLocation_ascii (p : json) :
  namedLocation p = true -> asciiText (locationOf p) = true.
Proof.
  unfold namedLocation, locationOf.
  destruct (prop p "in") as [[| | |s| |]|]; try discriminate;
    try (intros _; reflexivity).
  intros H. exact H.
Qed.

(** The request section of an operation whose parameters can be grouped,
    and are located by ASCII names, is laid out by location: for each
    location that some parameter declares, once and in ascending order of
    the names, a header line followed by one line per parameter of that
    location in declaration order; the body lines come last.  The outcome
    is that of rendering the parameters in this order. *)
Theorem request_section_is_grouped_by_location
  (fuel : nat) (doc op : json) (ps : list json) :
  op <> JNull ->
  elements (prop op "parameters") = Ret ps ->
  forallb groupable ps = true ->
  forallb namedLocation ps = true ->
  exists keys,
    buildRequestLines fuel doc op
    = (lines <- parameterSection fuel doc ps keys ;;
       b <- bodySection fuel doc op ;;
       Ret (lines ++ b)%list)
    /\ Forall (fun k => asciiText k = true) keys
    /\ StronglySorted (fun a b => String.ltb a b = true) keys
    /\ (forall k, In k keys <-> exists p, In p ps /\ locationOf p = k).
Proof.
  intros Hop Hps Hg Hn.
  destruct (parameter_lines fuel doc ps Hg) as (keys & E & Hs & Hk).
  exists keys. split; [|split; [|now split]].
  - rewrite (buildRequestLines_sections fuel doc op Hop), Hps. cbn [bind].
    now rewrite E.
  - apply Forall_forall. intros k HIn.
    apply Hk in HIn as (p & Hp & <-).
    apply namedLocation_ascii.
    rewrite forallb_forall in Hn. now apply Hn.
Qed.

Lemma request_section_is_grouped_by_location_sample :
  exists keys,
    buildRequestLines 1 Samples.empty_doc MoreSamples.search
    = (lines <- parameterSection 1 Samples.empty_doc
                  MoreSamples.search_parameters keys ;;
       b <- bodySection 1 Samples.empty_doc MoreSamples.search ;;
       Ret (lines ++ b)%list)
    /\ Forall (fun k => asciiText k = true) keys
    /\ StronglySorted (fun a b => String.ltb a b = true) keys
    /\ (forall k, In k keys
                  <-> exists p, In p MoreSamples.search_parameters
                                /\ locationOf p = k).
Proof.
  apply (request_section_is_grouped_by_location 1 Samples.empty_doc
           MoreSamples.search MoreSamples.search_parameters);
    [discriminate|reflexivity|reflexivity|reflexivity].
Defined.

(** A parameter that is [null], or whose location is the name of a member
    every object inherits ([constructor], [toString], [__proto__], ...),
    makes the request section raise before anything is rendered, and with
    it the report of any selection that starts with the operation. *)
Theorem request_section_raises_on_inherited_location
  (fuel : nat) (doc : json) (o : ApiOperation) (rest : list ApiOperation)
  (ps : list json) :
  elements (prop (operation o) "parameters") = Ret ps ->
  forallb groupable ps = false ->
  buildRequestLines fuel doc (operation o) = Throw
  /\ buildExportText fuel doc (o :: rest) = Throw.
Proof.
  intros Hps Hg.
  assert (E : buildRequestLines fuel doc (operation o) = Throw).
  { destruct (operation o) eqn:Hop; try reflexivity;
      rewrite <- Hop in *;
      (rewrite (buildRequestLines_sections fuel doc (operation o));
       [|rewrite Hop; discriminate]);
      rewrite Hps; cbn [bind]; unfold groupParameters;
      now rewrite forEach_groupStep, Hg. }
  split; [exact E|].
  unfold buildExportText. cbn [forEach]. unfold exportBlock at 1.
  cbv zeta. rewrite E.
  destruct (has_length (tags o)); [|reflexivity].
  unfold as_array. destruct (tags o) as [[| | | | |]|]; reflexivity.
Qed.

Lemma request_section_raises_on_inherited_location_sample :
  buildRequestLines 0 Samples.empty_doc MoreSamples.inherited_location = Throw
  /\ buildExportText 0 Samples.empty_doc
       [recordOf ("/a", "get", MoreSamples.inherited_location)] = Throw.
Proof.
  apply (request_section_raises_on_inherited_location 0 Samples.empty_doc
           (recordOf ("/a", "get", MoreSamples.inherited_location)) []
           [JObj [("name", JStr "q"); ("in", JStr "constructor")]]);
    reflexivity.
Defined.

(** The request section is empty, so that the report prints its
    placeholder, exactly for an operation that declares no parameter and
    has no truthy body schema; rendering is not involved, so no budget is
    needed. *)
Theorem request_section_is_empty_iff (fuel : nat) (doc op : json) :
  buildRequestLines fuel doc op = Ret [] <->
  op <> JNull
  /\ elements (prop op "parameters") = Ret []
  /\ truthy (extractRequestBodySchema op) = false.
Proof.
  split.
  - intros H.
    assert (Hop : op <> JNull) by (intros ->; discriminate).
    split; [exact Hop|].
    rewrite (buildRequestLines_sections fuel doc op Hop) in H.
    destruct (elements (prop op "parameters")) as [ps| |]; try discriminate.
    cbn [bind] in H.
    destruct (forallb groupable ps) eqn:Hg.
    + destruct (parameter_lines fuel doc ps Hg) as (keys & E & _ & Hk).
      rewrite E in H.
      destruct (parameterSection fuel doc ps keys) as [lines| |] eqn:Hl;
        try discriminate.
      cbn [bind] in H.
      destruct (bodySection fuel doc op) as [b| |] eqn:Hb; try discriminate.
      cbn [bind] in H. injection H as H.
      apply app_eq_nil in H as [-> ->].
      apply parameterSection_nil in Hl. subst keys.
      split; [|now apply (bodySection_nil fuel doc op)].
      destruct ps as [|p r]; [reflexivity|].
      exfalso. apply (Hk (locationOf p)). exists p. split; [now left|reflexivity].
    + unfold groupParameters in H. rewrite forEach_groupStep, Hg in H.
      discriminate.
  - intros (Hop & Hps & Hb).
    rewrite (buildRequestLines_sections fuel doc op Hop), Hps.
    apply (bodySection_nil fuel doc op) in Hb. cbn. now rewrite Hb.
Qed.

Lemma request_section_is_empty_iff_sample :
  buildRequestLines 0 Samples.empty_doc (JObj [("summary", JStr "ping")]) = Ret [].
Proof.
  apply (request_section_is_empty_iff 0 Samples.empty_doc
           (JObj [("summary", JStr "ping")])).
  split; [discriminate|]. split; reflexivity.
Defined.

(** The body of a request is reported as a response made of the same
    schema is: after the header [- body:], the lines of the response
    section, each moved right by two spaces. *)
Theorem body_section_mirrors_the_response_section
  (fuel : nat) (doc request response r s : json) :
  request <> JNull ->
  response <> JNull ->
  elements (prop request "parameters") = Ret [] ->
  extractRequestBodySchema request = Some s ->
  truthy (Some s) = true ->
  preferredResponse (or_empty (prop response "responses")) = Some r ->
  truthy (Some r) = true ->
  extractResponseSchema r = Some s ->
  buildRequestLines fuel doc request
  = (ls <- buildResponseLines fuel doc response ;;
     Ret ("- body:" :: map (fun l => "  " ++ l) ls)).
Proof.
  intros Hq Hr Hps Hb Hs Hpref Htr Hex.
  rewrite (buildRequestLines_sections fuel doc request Hq), Hps.
  cbn [bind groupParameters forEach map sortKeys fold_left app].
  unfold bodySection. rewrite Hb, Hs.
  assert (E : buildResponseLines fuel doc response
              = (fields <- flattenSchemaFields fuel doc s ;;
                 match fields with
                 | [] => t <- schemaToTypeText fuel doc (Some s) ;; Ret ["- " ++ t]
                 | _ => Ret (map fieldLine fields)
                 end)).
  { unfold buildResponseLines. rewrite Hpref, Htr, Hex. now destruct response. }
  rewrite E.
  destruct (flattenSchemaFields fuel doc s) as [[|f fs]| |]; cbn [bind];
    try reflexivity.
  - destruct (schemaToTypeText fuel doc (Some s)); reflexivity.
  - f_equal. cbn [map]. f_equal. f_equal.
    rewrite map_map. apply map_ext. reflexivity.
Qed.

Lemma body_section_mirrors_the_response_section_sample :
  buildRequestLines 2 Samples.empty_doc MoreSamples.putUser
  = (ls <- buildResponseLines 2 Samples.empty_doc MoreSamples.putUser ;;
     Ret ("- body:" :: map (fun l => "  " ++ l) ls)).
Proof.
  apply (body_section_mirrors_the_response_section 2 Samples.empty_doc
           MoreSamples.putUser MoreSamples.putUser MoreSamples.user_content
           MoreSamples.user_schema);
    try reflexivity; discriminate.
Defined.

(** ** The report *)

Lemma exportBlock_frame (fuel : nat) (doc : json) (op : ApiOperation)
  (lines : list string) :
  exportBlock fuel doc op lines
  = (b <- exportBlock fuel doc op [] ;; Ret (lines ++ b)%list).
Proof.
  unfold exportBlock. cbv zeta.
  generalize (buildRequestLines fuel doc (operation op))
             (buildResponseLines fuel doc (operation op)).
  intros rq rs.
  destruct (truthy (summary op)), (has_length (tags op));
    destruct rq as [[|r rq']| |], rs as [[|q rs']| |];
    try (unfold as_array; destruct (tags op) as [[| | | | |]|]);
    cbn [bind]; try (apply f_equal); rewrite <- ?app_assoc, ?app_nil_l;
    reflexivity.
Qed.

Lemma exportBlock_shape (fuel : nat) (doc : json) (op : ApiOperation)
  (b : list string) :
  exportBlock fuel doc op [] = Ret b ->
  exists mid, b = (headerLine op :: mid ++ [""])%list.
Proof.
  unfold exportBlock, headerLine. cbv zeta.
  generalize (buildRequestLines fuel doc (operation op))
             (buildResponseLines fuel doc (operation op)).
  intros rq rs H.
  destruct (truthy (summary op)), (has_length (tags op));
    destruct rq as [[|r rq']| |], rs as [[|q rs']| |];
    try (unfold as_array in H; destruct (tags op) as [[| | | | |]|]);
    cbn [bind] in H; try discriminate H;
    match type of H with
    | Ret (?Y ++ [""])%list = Ret _ =>
        exists (tl Y); symmetry; injection H as H; exact H
    end.
Qed.

Lemma forEach_exportBlock (fuel : nat) (doc : json) (ops : list ApiOperation)
  (lines : list string) :
  forEach (exportBlock fuel doc) ops lines
  = (bs <- mapM (fun op => exportBlock fuel doc op []) ops ;;
     Ret (lines ++ List.concat bs)%list).
Proof.
  apply forEach_blocks_mapM. intros op ls. apply exportBlock_frame.
Qed.

Lemma space2_bytes (b c : ascii) :
  space2 b c = true -> spaceByte b = true /\ spaceByte c = true.
Proof.
  unfold space2, spaceByte. intros H.
  apply andb_true_iff in H as [Hb Hc].
  apply N.eqb_eq in Hb, Hc. rewrite Hb, Hc.
  split; apply orb_true_r.
Qed.

Lemma space3_bytes (a b c : ascii) :
  space3 a b c = true ->
  spaceByte a = true /\ spaceByte b = true /\ spaceByte c = true.
Proof.
  unfold space3, spaceByte. cbv zeta. intros H.
  assert (Hx : (128 <=? N_of_ascii a)%N = true
               /\ (128 <=? N_of_ascii b)%N = true
               /\ (128 <=? N_of_ascii c)%N = true).
  { repeat rewrite ?orb_true_iff, ?andb_true_iff, ?N.eqb_eq, ?N.leb_le in H.
    repeat rewrite N.leb_le. lia. }
  destruct Hx as (-> & -> & ->). rewrite !orb_true_r. auto.
Qed.

(** What [dropSpaces] removes entirely is made of white space bytes. *)
Lemma dropSpaces_nil (n : nat) :
  forall l, List.length l <= n -> dropSpaces l = [] ->
            forallb spaceByte l = true.
Proof.
  induction n as [|n IH]; intros l Hn H.
  - destruct l; [reflexivity|simpl in Hn; lia].
  - destruct l as [|c r]; [reflexivity|]. simpl in Hn. cbn [dropSpaces] in H.
    destruct (space1 c) eqn:H1.
    + cbn [forallb]. unfold spaceByte at 1. rewrite H1. cbn [orb andb].
      apply IH; [lia|exact H].
    + destruct r as [|b r']; [discriminate|]. simpl in Hn.
      destruct (space2 b c) eqn:H2.
      * apply space2_bytes in H2 as [Hb Hc]. cbn [forallb].
        rewrite Hb, Hc. cbn [andb]. apply IH; [lia|exact H].
      * destruct r' as [|a r'']; [discriminate|]. simpl in Hn.
        destruct (space3 a b c) eqn:H3; [|discriminate].
        apply space3_bytes in H3 as (Ha & Hb & Hc). cbn [forallb].
        rewrite Ha, Hb, Hc. cbn [andb]. apply IH; [lia|exact H].
Qed.

(** What [dropSpaces] leaves has nothing more to drop. *)
Lemma dropSpaces_idempotent (n : nat) :
  forall l, List.length l <= n -> dropSpaces (dropSpaces l) = dropSpaces l.
Proof.
  induction n as [|n IH]; intros l Hn.
  - destruct l; [reflexivity|simpl in Hn; lia].
  - destruct l as [|c r]; [reflexivity|]. simpl in Hn.
    cbn [dropSpaces].
    destruct (space1 c) eqn:H1; [apply IH; lia|].
    destruct r as [|b r'].
    + cbn [dropSpaces]. now rewrite H1.
    + simpl in Hn. destruct (space2 b c) eqn:H2; [apply IH; lia|].
      destruct r' as [|a r''].
      * cbn [dropSpaces]. now rewrite H1, H2.
      * simpl in Hn. destruct (space3 a b c) eqn:H3; [apply IH; lia|].
        cbn [dropSpaces]. now rewrite H1, H2, H3.
Qed.

Lemma trimEnd_idempotent (s : string) : trimEnd (trimEnd s) = trimEnd s.
Proof.
  unfold trimEnd.
  rewrite list_ascii_of_string_of_list_ascii, rev_involutive.
  now rewrite (dropSpaces_idempotent _ _ (le_n _)).
Qed.

Lemma trimEnd_keeps_text (c : ascii) (s : string) :
  spaceByte c = false -> trimEnd (String c s) <> "".
Proof.
  intros Hc. unfold trimEnd. cbn [list_ascii_of_string rev].
  destruct (dropSpaces (rev (list_ascii_of_string s) ++ [c])) as [|x r] eqn:E.
  - apply (dropSpaces_nil _ _ (le_n _)) in E.
    rewrite forallb_app in E. cbn [forallb] in E. rewrite Hc in E.
    rewrite andb_false_r in E. discriminate.
  - cbn [rev]. intros H.
    apply (f_equal list_ascii_of_string) in H.
    rewrite list_ascii_of_string_of_list_ascii in H.
    destruct (rev r); discriminate.
Qed.

Lemma concat_head (sep : string) (c : ascii) (s : string) (r : list string) :
  exists t, String.concat sep (String c s :: r) = String c t.
Proof. destruct r; simpl; eexists; reflexivity. Qed.

Lemma report_text_not_empty (sep h : string) (r : list string) :
  trimEnd (String.concat sep (String "[" h :: r)) <> "".
Proof.
  destruct (concat_head sep "[" h r) as [x ->].
  now apply trimEnd_keeps_text.
Qed.

Lemma buildExportText_blocks (fuel : nat) (doc : json)
  (ops : list ApiOperation) :
  buildExportText fuel doc ops
  = (bs <- mapM (fun op => exportBlock fuel doc op []) ops ;;
     Ret (trimEnd (String.concat newline (List.concat bs)))).
Proof.
  destruct ops as [|o rest]; [reflexivity|].
  unfold buildExportText. rewrite forEach_exportBlock.
  destruct (mapM _ (o :: rest)); reflexivity.
Qed.

Lemma blocks_shape (fuel : nat) (doc : json) (ops : list ApiOperation) :
  forall bs,
    mapM (fun op => exportBlock fuel doc op []) ops = Ret bs ->
    Forall2 (fun op b => exists mid, b = (headerLine op :: mid ++ [""])%list)
      ops bs.
Proof.
  induction ops as [|o rest IH]; intros bs H; cbn [mapM] in H.
  - injection H as <-. constructor.
  - destruct (exportBlock fuel doc o []) as [b| |] eqn:Hb; try discriminate.
    cbn [bind] in H.
    destruct (mapM _ rest) as [bs'| |]; try discriminate.
    cbn [bind] in H. injection H as <-.
    constructor; [now apply (exportBlock_shape fuel doc)|now apply IH].
Qed.

(** The report is made of one block per selected operation, in the order of
    the selection: the lines of the blocks joined by line feeds, with the
    white space at the end removed.  Each block starts with the header line
    of its operation and ends with an empty line, so two blocks are
    separated by a blank line. *)
Theorem report_is_the_blocks_in_order
  (fuel : nat) (doc : json) (ops : list ApiOperation) (bs : list (list string)) :
  mapM (fun op => exportBlock fuel doc op []) ops = Ret bs ->
  buildExportText fuel doc ops
  = Ret (trimEnd (String.concat newline (List.concat bs)))
  /\ Forall2 (fun op b => exists mid, b = (headerLine op :: mid ++ [""])%list)
       ops bs.
Proof.
  intros H. split.
  - now rewrite buildExportText_blocks, H.
  - now apply (blocks_shape fuel doc).
Qed.

Lemma report_is_the_blocks_in_order_sample :
  buildExportText 0 Samples.empty_doc
    [recordOf ("/a", "get", JObj []); recordOf ("/b", "post", JObj [])]
  = Ret (trimEnd
           (String.concat newline
              (List.concat
                 [["[GET] /a"; "请求参数:"; "- 无"; "响应参数:"; "- 无"; ""];
                  ["[POST] /b"; "请求参数:"; "- 无"; "响应参数:"; "- 无"; ""]])))
  /\ Forall2 (fun op b => exists mid, b = (headerLine op :: mid ++ [""])%list)
       [recordOf ("/a", "get", JObj []); recordOf ("/b", "post", JObj [])]
       [["[GET] /a"; "请求参数:"; "- 无"; "响应参数:"; "- 无"; ""];
        ["[POST] /b"; "请求参数:"; "- 无"; "响应参数:"; "- 无"; ""]].
Proof.
  apply (report_is_the_blocks_in_order 0 Samples.empty_doc
           [recordOf ("/a", "get", JObj []); recordOf ("/b", "post", JObj [])]).
  reflexivity.
Defined.

(** A report never ends in white space, and it is empty for the empty
    selection only. *)
Theorem report_is_trimmed_and_empty_for_no_operation
  (fuel : nat) (doc : json) (ops : list ApiOperation) (t : string) :
  buildExportText fuel doc ops = Ret t ->
  trimEnd t = t /\ (t = "" <-> ops = []).
Proof.
  intros H. rewrite buildExportText_blocks in H.
  destruct (mapM (fun op => exportBlock fuel doc op []) ops) as [bs| |] eqn:Hbs;
    try discriminate.
  cbn [bind] in H. injection H as <-.
  split; [apply trimEnd_idempotent|].
  pose proof (blocks_shape fuel doc ops bs Hbs) as Hshape.
  split.
  - intros Ht. destruct Hshape as [|o b rest bs' (mid & ->) _]; [reflexivity|].
    exfalso. revert Ht.
    exact (report_text_not_empty newline
             (toUpperCase (method o) ++ "] " ++ path o)
             ((mid ++ [""]) ++ List.concat bs')%list).
  - intros ->. inversion Hshape; subst. reflexivity.
Qed.

Lemma report_is_trimmed_and_empty_for_no_operation_sample :
  trimEnd ("[GET] /a" ++ newline ++ "请求参数:" ++ newline ++ "- 无" ++ newline
           ++ "响应参数:" ++ newline ++ "- 无")
  = "[GET] /a" ++ newline ++ "请求参数:" ++ newline ++ "- 无" ++ newline
    ++ "响应参数:" ++ newline ++ "- 无"
  /\ ("[GET] /a" ++ newline ++ "请求参数:" ++ newline ++ "- 无" ++ newline
      ++ "响应参数:" ++ newline ++ "- 无" = ""
      <-> [recordOf ("/a", "get", JObj [])] = []).
Proof.
  apply (report_is_trimmed_and_empty_for_no_operation 0 Samples.empty_doc
           [recordOf ("/a", "get", JObj [])]).
  reflexivity.
Defined.

(** ** The selection *)

Lemma keys_obj_set (k k' : string) (v : json) (kvs : list (string * json)) :
  In k' (map fst (obj_set k v kvs)) <-> k' = k \/ In k' (map fst kvs).
Proof.
  induction kvs as [|[k0 v0] r IH]; simpl.
  - intuition.
  - destruct (String.eqb_spec k0 k) as [->|Hk0]; simpl; intuition.
Qed.

Lemma unique_obj_set (k : string) (v : json) (kvs : list (string * json)) :
  unique_keys kvs -> unique_keys (obj_set k v kvs).
Proof.
  unfold unique_keys. induction kvs as [|[k0 v0] r IH]; simpl; intros ND.
  - repeat constructor. intros [].
  - inversion ND as [|? ? Hnot ND']; subst.
    destruct (String.eqb_spec k0 k) as [->|Hk0]; simpl.
    + now constructor.
    + constructor; [|now apply IH].
      intros HIn. apply keys_obj_set in HIn as [->|HIn]; congruence.
Qed.

Lemma unique_assigned (es : list (string * json)) :
  forall target,
    unique_keys target ->
    unique_keys (fold_left (fun acc kv => obj_set (fst kv) (snd kv) acc) es target).
Proof.
  induction es as [|e r IH]; intros target H; simpl; [exact H|].
  apply IH. now apply unique_obj_set.
Qed.

Lemma unique_spread (prev : selection) : unique_keys (spread [] (JObj prev)).
Proof. unfold spread. apply unique_assigned. constructor. Qed.

Lemma lookup_copy (k : string) (prev : selection) :
  unique_keys prev -> lookup k (spread [] (JObj prev)) = lookup k prev.
Proof.
  intros H. rewrite (lookup_spread k [] prev H).
  now destruct (lookup k prev).
Qed.

Lemma isSelected_toggle (opId i : string) (checked : bool) (prev : selection) :
  unique_keys prev ->
  isSelected (toggle opId checked prev) i
  = if opId =? i then checked else isSelected prev i.
Proof.
  intros H. unfold isSelected, toggle.
  rewrite lookup_obj_set, (lookup_copy i prev H).
  destruct (opId =? i); [now destruct checked|reflexivity].
Qed.

(** Ticking or clearing one operation: the selection then answers the new
    value for its identifier and what it answered before for every other
    one, and it is again an object with one entry per key. *)
Theorem toggle_sets_one_identifier
  (opId i : string) (checked : bool) (prev : selection) :
  unique_keys prev ->
  isSelected (toggle opId checked prev) i
  = (if opId =? i then checked else isSelected prev i)
  /\ unique_keys (toggle opId checked prev).
Proof.
  intros H. split; [now apply isSelected_toggle|].
  unfold toggle. apply unique_obj_set, unique_spread.
Qed.

Lemma toggle_sets_one_identifier_sample :
  isSelected (toggle "get:/a" false [("get:/a", JBool true); ("get:/b", JBool true)])
    "get:/b"
  = (if "get:/a" =? "get:/b" then false
     else isSelected [("get:/a", JBool true); ("get:/b", JBool true)] "get:/b")
  /\ unique_keys
       (toggle "get:/a" false [("get:/a", JBool true); ("get:/b", JBool true)]).
Proof.
  apply (toggle_sets_one_identifier "get:/a" "get:/b" false
           [("get:/a", JBool true); ("get:/b", JBool true)]).
  repeat constructor; simpl; intuition discriminate.
Defined.

Lemma lookup_assigned (i : string) (v : json) (ops : list ApiOperation) :
  has (map id ops) "__proto__" = false ->
  forall next,
    lookup i (fold_left (fun next op => assign (id op) v next) ops next)
    = if has (map id ops) i then Some v else lookup i next.
Proof.
  unfold has. induction ops as [|o r IH]; intros Hp next; [reflexivity|].
  cbn [map existsb] in Hp. apply orb_false_iff in Hp as [Ho Hr].
  cbn [fold_left map existsb]. rewrite (IH Hr).
  assert (E : assign (id o) v next = obj_set (id o) v next).
  { unfold assign. rewrite String.eqb_sym in Ho. rewrite Ho.
    now destruct (lookup (id o) next). }
  rewrite E, lookup_obj_set. rewrite (String.eqb_sym i (id o)).
  destruct (id o =? i); [|reflexivity].
  now destruct (existsb (String.eqb i) (map id r)).
Qed.

(** Ticking or clearing the operations on display: the selection then
    answers the new value for the identifier of every such operation and
    what it answered before for every other identifier.  An identifier
    [__proto__] is excluded: the assignment would reach the inherited
    setter and store nothing. *)
Theorem setVisibleChecked_sets_the_visible
  (visible : list ApiOperation) (checked : bool) (prev : selection)
  (i : string) :
  unique_keys prev ->
  has (map id visible) "__proto__" = false ->
  isSelected (setVisibleChecked visible checked prev) i
  = if has (map id visible) i then checked else isSelected prev i.
Proof.
  intros H Hp. unfold isSelected, setVisibleChecked.
  rewrite (lookup_assigned i (JBool checked) visible Hp), (lookup_copy i prev H).
  destruct (has (map id visible) i); [now destruct checked|reflexivity].
Qed.

Lemma setVisibleChecked_sets_the_visible_sample :
  isSelected
    (setVisibleChecked
       [recordOf ("/a", "get", JObj []); recordOf ("/b", "get", JObj [])]
       true [("get:/a", JBool false)])
    "get:/b"
  = if has (map id [recordOf ("/a", "get", JObj []);
                    recordOf ("/b", "get", JObj [])]) "get:/b"
    then true
    else isSelected [("get:/a", JBool false)] "get:/b".
Proof.
  apply (setVisibleChecked_sets_the_visible
           [recordOf ("/a", "get", JObj []); recordOf ("/b", "get", JObj [])]
           true [("get:/a", JBool false)] "get:/b").
  - repeat constructor. intros [].
  - reflexivity.
Defined.

Lemma onExport_ext (fuel : nat) (lc : string -> string -> Z) (doc : value)
  (s1 s2 : selection) (old : string) :
  (forall i, isSelected s1 i = isSelected s2 i) ->
  onExport fuel lc doc s1 old = onExport fuel lc doc s2 old.
Proof.
  intros H. unfold onExport.
  destruct doc as [d|]; [|reflexivity].
  destruct (negb (truthy (Some d))); [reflexivity|].
  destruct (buildOperations lc d) as [ops| |]; cbn [bind]; try reflexivity.
  f_equal. unfold chosen. apply filter_ext. intros op. apply H.
Qed.

(** The report does not depend on the order in which two operations were
    ticked or cleared: the selection records the value of each identifier
    and not the order of the clicks. *)
Theorem export_ignores_the_order_of_ticking
  (fuel : nat) (lc : string -> string -> Z) (doc : value)
  (a b : string) (x y : bool) (prev : selection) (old : string) :
  unique_keys prev ->
  a <> b ->
  onExport fuel lc doc (toggle a x (toggle b y prev)) old
  = onExport fuel lc doc (toggle b y (toggle a x prev)) old.
Proof.
  intros H Hab. apply onExport_ext. intros i.
  assert (Ua : unique_keys (toggle a x prev))
    by (unfold toggle; apply unique_obj_set, unique_spread).
  assert (Ub : unique_keys (toggle b y prev))
    by (unfold toggle; apply unique_obj_set, unique_spread).
  rewrite (isSelected_toggle a i x _ Ub), (isSelected_toggle b i y _ H).
  rewrite (isSelected_toggle b i y _ Ua), (isSelected_toggle a i x _ H).
  destruct (String.eqb_spec a i) as [->|Ha], (String.eqb_spec b i) as [->|Hb];
    congruence.
Qed.

Lemma export_ignores_the_order_of_ticking_sample :
  onExport 2 codeUnitCompare (Some Samples.pets_then_owners)
    (toggle "get:/pets:listPets" true (toggle "post:/owners" true []))
    "old"
  = onExport 2 codeUnitCompare (Some Samples.pets_then_owners)
      (toggle "post:/owners" true (toggle "get:/pets:listPets" true []))
      "old".
Proof.
  apply (export_ignores_the_order_of_ticking 2 codeUnitCompare
           (Some Samples.pets_then_owners)
           "get:/pets:listPets" "post:/owners" true true [] "old").
  - constructor.
  - discriminate.
Defined.

Lemma lacks_colon_append (a b : string) : lacks ":" (a ++ ":" ++ b) = false.
Proof.
  induction a as [|c r IH]; [reflexivity|].
  change (lacks ":" (String c r ++ ":" ++ b))
    with (negb (Ascii.eqb c ":") && lacks ":" (r ++ ":" ++ b)).
  rewrite IH. apply andb_false_r.
Qed.

Lemma inherited_name_lacks_colon (s : string) :
  has objectPrototypeNames s = true -> lacks ":" s = true.
Proof.
  intros H. unfold has, objectPrototypeNames in H. simpl in H.
  repeat (apply orb_true_iff in H; destruct H as [H|H]);
    try discriminate; apply String.eqb_eq in H; rewrite H; reflexivity.
Qed.

(** No identifier made by [buildOperations] is the name of an inherited
    member. *)
Lemma identifier_not_inherited (e : string * string * json) :
  has objectPrototypeNames (id (recordOf e)) = false.
Proof.
  destruct (has objectPrototypeNames (id (recordOf e))) eqn:E; [|reflexivity].
  apply inherited_name_lacks_colon in E.
  destruct e as [[p k] o]. unfold recordOf in E. cbn [id] in E.
  destruct (truthy (prop o "operationId")); now rewrite lacks_colon_append in E.
Qed.

(** With no entry of the selection ticked, exporting a loaded document
    gives the empty report, whatever the document holds: the identifiers
    hold a colon, so that none of them reads an inherited member of the
    selection object. *)
Theorem export_of_nothing_ticked
  (fuel : nat) (lc : string -> string -> Z) (d : json)
  (ops : list ApiOperation) (selected : selection) (old : string) :
  truthy (Some d) = true ->
  buildOperations lc d = Ret ops ->
  selectedCount selected = 0 ->
  onExport fuel lc (Some d) selected old = Ret "".
Proof.
  intros Hd Hops Hcount. unfold onExport. rewrite Hd, Hops. cbn [negb bind].
  assert (E : chosen ops selected = []).
  { unfold chosen.
    rewrite (buildOperations_Ret lc d ops Hops).
    assert (Hall : forall op,
               In op (sort lc (map recordOf (methodEntries d))) ->
               isSelected selected (id op) = false).
    { intros op Hop. apply (Permutation_in _ (sort_Permutation lc _)) in Hop.
      apply in_map_iff in Hop as (e & <- & _).
      unfold isSelected.
      destruct (lookup (id (recordOf e)) selected) as [v|] eqn:Hl;
        [|apply identifier_not_inherited].
      apply lookup_In in Hl.
      unfold selectedCount in Hcount. apply length_zero_iff_nil in Hcount.
      destruct (truthy (Some v)) eqn:Hv; [|reflexivity].
      assert (HIn : In (id (recordOf e), v)
                      (filter (fun kv => truthy (Some (snd kv)))
                         (enumerate selected))).
      { apply filter_In. split; [|exact Hv].
        apply (Permutation_in _ (Permutation_sym (enumerate_Permutation _))).
        exact Hl. }
      rewrite Hcount in HIn. destruct HIn. }
    induction (sort lc (map recordOf (methodEntries d))) as [|o r IH];
      [reflexivity|].
    cbn [filter]. rewrite (Hall o (or_introl eq_refl)).
    apply IH. intros op Hop. apply Hall. now right. }
  now rewrite E.
Qed.

Lemma export_of_nothing_ticked_sample :
  onExport 0 codeUnitCompare (Some Samples.pets_then_owners)
    [("get:/pets:listPets", JBool false)] "old"
  = Ret "".
Proof.
  apply (export_of_nothing_ticked 0 codeUnitCompare Samples.pets_then_owners
           (sort codeUnitCompare
              (map recordOf (methodEntries Samples.pets_then_owners)))
           [("get:/pets:listPets", JBool false)] "old");
    reflexivity.
Defined.

Lemma Permutation_count {A : Type} (f : A -> bool) (l l' : list A) :
  Permutation l l' -> List.length (filter f l) = List.length (filter f l').
Proof.
  induction 1 as [|x l l' _ IH|x y l|l l' l'' _ IH1 _ IH2]; cbn [filter].
  - reflexivity.
  - destruct (f x); cbn [List.length]; now rewrite IH.
  - destruct (f x), (f y); reflexivity.
  - now rewrite IH1.
Qed.

Lemma obj_set_fresh (k : string) (v : json) (acc : list (string * json)) :
  ~ In k (map fst acc) -> obj_set k v acc = (acc ++ [(k, v)])%list.
Proof.
  induction acc as [|[k0 v0] r IH]; cbn [obj_set map fst In app]; intros H.
  - reflexivity.
  - destruct (String.eqb_spec k0 k) as [->|Hk]; [tauto|].
    rewrite IH; [reflexivity|tauto].
Qed.

Lemma assigned_fresh (l : list (string * json)) :
  forall acc,
    NoDup (map fst (acc ++ l)) ->
    fold_left (fun acc kv => obj_set (fst kv) (snd kv) acc) l acc
    = (acc ++ l)%list.
Proof.
  induction l as [|[k v] r IH]; intros acc ND; cbn [fold_left fst snd].
  - now rewrite app_nil_r.
  - rewrite obj_set_fresh.
    + rewrite IH; rewrite <- app_assoc; [reflexivity|exact ND].
    + rewrite map_app in ND. apply NoDup_app_remove_r in ND as ND'.
      intros HIn. apply NoDup_remove_2 in ND. apply ND.
      apply in_or_app. now left.
Qed.

(** Copying a selection gives its entries in enumeration order. *)
Lemma spread_copy (prev : selection) :
  unique_keys prev -> spread [] (JObj prev) = enumerate prev.
Proof.
  intros H. unfold spread. cbn [entries].
  apply (assigned_fresh (enumerate prev) []). cbn [app].
  now apply enumerate_unique.
Qed.

Lemma count_obj_set (k : string) (v : json) (l : list (string * json)) :
  List.length (filter (fun kv => truthy (Some (snd kv))) (obj_set k v l))
  + (if truthy (lookup k l) then 1 else 0)
  = List.length (filter (fun kv => truthy (Some (snd kv))) l)
    + (if truthy (Some v) then 1 else 0).
Proof.
  induction l as [|[k0 v0] r IH]; cbn [obj_set lookup filter snd].
  - change (truthy None) with false.
    destruct (truthy (Some v)); cbn [List.length]; lia.
  - destruct (String.eqb_spec k0 k) as [->|Hk]; cbn [filter snd].
    + destruct (truthy (Some v)), (truthy (Some v0)); cbn [List.length]; lia.
    + destruct (truthy (Some v0)); cbn [List.length]; lia.
Qed.

(** The counter of the selection follows the clicks: ticking an operation
    that was not selected adds one, clearing one that was selected takes
    one away, and any other click leaves the count as it was. *)
Theorem toggle_moves_the_count
  (opId : string) (checked : bool) (prev : selection) :
  unique_keys prev ->
  selectedCount (toggle opId checked prev)
  + (if truthy (lookup opId prev) then 1 else 0)
  = selectedCount prev + (if checked then 1 else 0).
Proof.
  intros H. unfold selectedCount, toggle.
  rewrite (Permutation_count _ _ _ (enumerate_Permutation _)).
  rewrite (spread_copy prev H).
  rewrite <- (lookup_enumerate opId prev H).
  rewrite (count_obj_set opId (JBool checked) (enumerate prev)).
  now destruct checked.
Qed.

Lemma toggle_moves_the_count_sample :
  selectedCount (toggle "get:/b" true [("get:/a", JBool true)])
  + (if truthy (lookup "get:/b" [("get:/a", JBool true)]) then 1 else 0)
  = selectedCount [("get:/a", JBool true)] + (if true then 1 else 0).
Proof.
  apply (toggle_moves_the_count "get:/b" true [("get:/a", JBool true)]).
  repeat constructor. intros [].
Defined.

(** ** Flat objects *)

Lemma forEach_fields_mapM {A : Type} (f : A -> outcome FieldInfo)
  (body : A -> walk_state -> outcome walk_state) (l : list A) :
  (forall x st, In x l -> body x st = (fld <- f x ;; Ret (push fld st))) ->
  forall st,
    forEach body l st
    = (fs <- mapM f l ;;
       Ret {| out := (out st ++ fs)%list; visitedRefs := visitedRefs st |}).
Proof.
  induction l as [|x r IH]; intros Hbody st.
  - cbn. rewrite app_nil_r. now destruct st.
  - cbn [forEach mapM]. rewrite (Hbody x st (or_introl eq_refl)).
    destruct (f x) as [fld| |]; cbn [bind]; try reflexivity.
    rewrite IH by (intros y st' Hy; apply Hbody; now right).
    destruct (mapM f r); cbn [bind]; try reflexivity.
    unfold push. cbn [out visitedRefs]. now rewrite <- app_assoc.
Qed.

Lemma plainProperty_body (fuel : nat) (doc : json) (req : list json)
  (kv : string * json) (st : walk_state) :
  plainProperty (snd kv) = true ->
  (resolvedChild <- resolveSchema doc (snd kv) ;;
   let isLeaf :=
     negb (truthy (prop resolvedChild "$ref"))
     && negb (truthy (prop resolvedChild "properties"))
     && negb (is_str (prop resolvedChild "type") "object")
     && negb (is_str (prop resolvedChild "type") "array") in
   if isLeaf then
     t <- schemaToTypeText fuel doc (Some resolvedChild) ;;
     Ret (push {| name := childName "" (fst kv);
                  type := t;
                  required := true && set_has req (fst kv);
                  description := prop resolvedChild "description" |} st)
   else if is_str (prop resolvedChild "type") "array" then
     t <- schemaToTypeText fuel doc (Some resolvedChild) ;;
     Ret (push {| name := childName "" (fst kv);
                  type := t;
                  required := true && set_has req (fst kv);
                  description := prop resolvedChild "description" |} st)
   else
     walkSchema fuel doc (Some resolvedChild) (childName "" (fst kv))
       (true && set_has req (fst kv)) st)
  = (fld <- propertyField fuel doc req kv ;; Ret (push fld st)).
Proof.
  unfold plainProperty, propertyField. intros H.
  repeat (apply andb_true_iff in H; destruct H as [H ?]).
  rewrite negb_true_iff in *.
  rewrite (resolveSchema_unchanged doc (snd kv));
    [|now destruct (snd kv)|now left].
  cbn [bind]. cbv zeta.
  match goal with
  | Hr : truthy (prop _ "$ref") = false,
    Hp : truthy (prop _ "properties") = false,
    Ho : is_str (prop _ "type") "object" = false |- _ =>
      rewrite Hr, Hp, Ho
  end.
  cbn [negb andb].
  destruct (is_str (prop (snd kv) "type") "array"); cbn [negb];
    destruct (schemaToTypeText fuel doc (Some (snd kv))); reflexivity.
Qed.

(** Flattening an object none of whose properties is a reference or an
    object gives one field per property, in the enumeration order of the
    properties: named by the key, typed by the rendering of the property,
    required exactly when the key is in the object's [required] list, and
    with the property's own description. *)
Theorem flat_object_has_one_field_per_property
  (n : nat) (doc s : json) (props : list (string * json)) (req : list json) :
  truthy (prop s "$ref") = false ->
  has_length (prop s "allOf") = false ->
  has_length (prop s "oneOf") = false ->
  has_length (prop s "anyOf") = false ->
  is_str (prop s "type") "object" || negb (truthy (prop s "type")) = true ->
  prop s "properties" = Some (JObj props) ->
  props <> [] ->
  newSet (prop s "required") = Ret req ->
  Forall (fun kv => plainProperty (snd kv) = true) props ->
  flattenSchemaFields (S n) doc s
  = mapM (propertyField n doc req) (enumerate props).
Proof.
  intros Hr Ha Ho Hy Ht Hp Hne Hreq Hplain.
  assert (Hs : truthy (Some s) = true) by exact (prop_Some_truthy _ _ _ Hp).
  assert (Hnn : s <> JNull) by (intros ->; discriminate).
  unfold flattenSchemaFields.
  rewrite (resolveSchema_unchanged doc s Hnn (or_introl Hr)). cbn [bind].
  cbn [walkSchema]. rewrite Hs, Hr, Ha, Ho, Hy, Hp, Hreq. cbn [negb orb bind].
  assert (Hc : is_str (prop s "type") "object"
               || negb (truthy (prop s "type")) && truthy (Some (JObj props))
               = true).
  { cbn [truthy]. now rewrite andb_true_r. }
  rewrite Hc.
  cbn [or_empty entries].
  assert (Hen : enumerate props <> []).
  { intros E. apply Hne. apply Permutation_nil.
    rewrite <- E. apply enumerate_Permutation. }
  destruct (enumerate props) as [|e es] eqn:E; [congruence|].
  rewrite (forEach_fields_mapM (propertyField n doc req)).
  - destruct (mapM (propertyField n doc req) (e :: es)); reflexivity.
  - intros kv st HIn. apply plainProperty_body.
    rewrite Forall_forall in Hplain. apply Hplain.
    apply (Permutation_in _ (enumerate_Permutation props)).
    now rewrite E.
Qed.

Lemma flat_object_has_one_field_per_property_sample :
  flattenSchemaFields 2 Samples.empty_doc
    (Samples.object_t ["id"]
       [("id", Samples.string_t); ("age", Samples.integer_t)])
  = mapM (propertyField 1 Samples.empty_doc [JStr "id"])
      (enumerate [("id", Samples.string_t); ("age", Samples.integer_t)]).
Proof.
  apply (flat_object_has_one_field_per_property 1 Samples.empty_doc
           (Samples.object_t ["id"]
              [("id", Samples.string_t); ("age", Samples.integer_t)])
           [("id", Samples.string_t); ("age", Samples.integer_t)]
           [JStr "id"]);
    try reflexivity.
  - discriminate.
  - repeat constructor.
Defined.

(** ** Parameters described without a schema *)



(** ** Keys of a path entry that name no method *)

Lemma letter_key_not_index (c : ascii) (r : string) :
  existsb (Ascii.eqb (lower_ascii c)) ["g"; "p"; "d"; "h"; "o"; "t"]%char = true ->
  array_index (String c r) = None.
Proof.
  destruct c as [[] [] [] [] [] [] [] []]; intros H; cbv in H;
    try discriminate H; reflexivity.
Qed.

(** A method key is no array index: it is enumerated in creation order. *)
Lemma recognised_not_index (kv : string * json) :
  recognised kv = true -> is_index_key (fst kv) = false.
Proof.
  unfold recognised, is_index_key. destruct (fst kv) as [|c r]; [discriminate|].
  intros H. rewrite letter_key_not_index; [reflexivity|].
  unfold has, httpMethods in H. cbn [toLowerCase existsb] in H.
  repeat (apply orb_true_iff in H; destruct H as [H|H]);
    try discriminate; apply String.eqb_eq in H; injection H as H _;
    rewrite H; reflexivity.
Qed.

Lemma index_entries_keys (kvs : list (string * json)) :
  Forall (fun e => is_index_key (fst (snd e)) = true) (index_entries kvs).
Proof.
  induction kvs as [|kv r IH]; simpl; [constructor|].
  destruct (array_index (fst kv)) as [n|] eqn:E; [|exact IH].
  assert (P : Permutation (insert_by_index (n, kv) (index_entries r))
                ((n, kv) :: index_entries r))
    by apply insert_by_index_Permutation.
  eapply Permutation_Forall; [apply Permutation_sym, P|].
  constructor; [|exact IH]. unfold is_index_key. simpl. now rewrite E.
Qed.

Lemma filter_recognised_enumerate (kvs : list (string * json)) :
  filter recognised (enumerate kvs) = filter recognised kvs.
Proof.
  unfold enumerate. rewrite filter_app.
  assert (E1 : filter recognised (map snd (index_entries kvs)) = []).
  { pose proof (index_entries_keys kvs) as H.
    induction H as [|e l He Hl IH]; [reflexivity|]. cbn [map filter].
    destruct (recognised (snd e)) eqn:R; [|exact IH].
    apply recognised_not_index in R. congruence. }
  rewrite E1. cbn [app]. clear E1.
  induction kvs as [|kv r IH]; [reflexivity|]. cbn [filter].
  destruct (recognised kv) eqn:R.
  - rewrite (recognised_not_index kv R). cbn [negb filter]. rewrite R.
    now rewrite IH.
  - destruct (negb (is_index_key (fst kv))); cbn [filter]; rewrite ?R; exact IH.
Qed.

Lemma filter_recognised_obj_set (k : string) (v : json)
  (kvs : list (string * json)) :
  has httpMethods (toLowerCase k) = false ->
  filter recognised (obj_set k v kvs) = filter recognised kvs.
Proof.
  intros H. induction kvs as [|[k0 v0] r IH]; cbn [obj_set filter].
  - unfold recognised. cbn [fst]. now rewrite H.
  - destruct (String.eqb_spec k0 k) as [->|Hk]; cbn [filter].
    + unfold recognised. cbn [fst]. now rewrite H.
    + now rewrite IH.
Qed.

Lemma eachPath_methods (p : string) (item : list (string * json))
  (out : list ApiOperation) :
  eachPath (p, JObj item) out
  = if existsb nullOperation
         (map (fun mo => (p, fst mo, snd mo)) (filter recognised item))
    then Throw
    else Ret (out ++ map recordOf
                       (map (fun mo => (p, fst mo, snd mo))
                          (filter recognised item)))%list.
Proof.
  unfold eachPath. cbn [fst snd truthy typeof_object negb orb entries].
  rewrite forEach_eachMethod, <- (existsb_nullOperation p).
  now rewrite filter_recognised_enumerate.
Qed.

Lemma enumerate_related (R : string * json -> string * json -> Prop)
  (l l' : list (string * json)) :
  (forall a b, R a b -> fst a = fst b) ->
  Forall2 R l l' -> Forall2 R (enumerate l) (enumerate l').
Proof.
  intros Hkey H. unfold enumerate. apply Forall2_app.
  - assert (Hidx : Forall2 (fun x y => fst x = fst y /\ R (snd x) (snd y))
                     (index_entries l) (index_entries l')).
    { induction H as [|a b l l' Hab Hl IH]; cbn [index_entries fold_right];
        [constructor|].
      fold (index_entries l). fold (index_entries l').
      rewrite <- (Hkey a b Hab).
      destruct (array_index (fst a)) as [n|]; [|exact IH].
      clear Hl. induction IH as [|x y m m' Hxy Hm IHm]; cbn [insert_by_index].
      - repeat constructor. exact Hab.
      - cbn [fst]. destruct Hxy as [Hf Hs]. rewrite <- Hf.
        destruct (n <? fst x)%N.
        + constructor; [now split|]. constructor; [now split|exact Hm].
        + constructor; [now split|exact IHm]. }
    induction Hidx as [|x y m m' [_ Hxy] _ IH]; cbn [map]; constructor; auto.
  - induction H as [|a b l l' Hab Hl IH]; cbn [filter]; [constructor|].
    rewrite <- (Hkey a b Hab).
    destruct (negb (is_index_key (fst a))); [constructor|]; auto.
Qed.

Lemma Forall2_same {A : Type} (R : A -> A -> Prop) (l : list A) :
  (forall a, R a a) -> Forall2 R l l.
Proof. intros H. induction l; constructor; auto. Qed.

Lemma forEach_related {A S : Type} (R : A -> A -> Prop)
  (body : A -> S -> outcome S) (l l' : list A) :
  (forall a b st, R a b -> body a st = body b st) ->
  Forall2 R l l' ->
  forall st, forEach body l st = forEach body l' st.
Proof.
  intros Hbody H. induction H as [|a b l l' Hab Hl IH]; intros st;
    cbn [forEach]; [reflexivity|].
  rewrite (Hbody a b st Hab). destruct (body b st); cbn [bind]; auto.
Qed.

(** A key of a path entry that names no method has no effect on the
    operations of the document: setting [parameters], [summary],
    [servers] or any such key on a path entry, to any value, leaves the
    outcome of [buildOperations] as it was. *)
Theorem path_entry_keys_other_than_methods_are_ignored
  (lc : string -> string -> Z) (dkvs dkvs' l1 l2 : list (string * json))
  (p k : string) (v : json) (item : list (string * json)) :
  has httpMethods (toLowerCase k) = false ->
  lookup "paths" dkvs = Some (JObj (l1 ++ (p, JObj item) :: l2)) ->
  lookup "paths" dkvs' = Some (JObj (l1 ++ (p, JObj (obj_set k v item)) :: l2)) ->
  buildOperations lc (JObj dkvs') = buildOperations lc (JObj dkvs).
Proof.
  intros Hk Hd Hd'. unfold buildOperations.
  cbn [prop]. rewrite Hd, Hd'. cbn [or_empty entries].
  rewrite (forEach_related
             (fun a b => fst a = fst b /\ forall out, eachPath a out = eachPath b out)
             eachPath
             (enumerate (l1 ++ (p, JObj (obj_set k v item)) :: l2))
             (enumerate (l1 ++ (p, JObj item) :: l2))).
  - reflexivity.
  - intros a b st [_ H]. apply H.
  - apply enumerate_related; [now intros a b [H _]|].
    apply Forall2_app.
    + apply Forall2_same. now split.
    + constructor.
      * split; [reflexivity|]. intros out.
        rewrite !eachPath_methods. now rewrite filter_recognised_obj_set.
      * apply Forall2_same. now split.
Qed.

Lemma path_entry_keys_other_than_methods_are_ignored_sample :
  buildOperations codeUnitCompare
    (JObj [("paths",
            JObj ([] ++ ("/a", JObj (obj_set "parameters"
                                       (JArr [MoreSamples.sort_parameter])
                                       [("get", JObj [])])) :: [])%list)])
  = buildOperations codeUnitCompare
      (JObj [("paths", JObj ([] ++ ("/a", JObj [("get", JObj [])]) :: [])%list)]).
Proof.
  apply (path_entry_keys_other_than_methods_are_ignored codeUnitCompare
           [("paths", JObj [("/a", JObj [("get", JObj [])])])]
           [("paths",
             JObj [("/a", JObj (obj_set "parameters"
                                  (JArr [MoreSamples.sort_parameter])
                                  [("get", JObj [])]))])]
           [] [] "/a" "parameters" (JArr [MoreSamples.sort_parameter])
           [("get", JObj [])]);
    reflexivity.
Defined.

(** ** Members of an [allOf] *)

Lemma continues_Ret (pre : list FieldInfo) (st1 st2 : walk_state) :
  out st2 = (pre ++ out st1)%list -> continues pre (Ret st1) (Ret st2).
Proof. intros E. now exists st2. Qed.

Lemma continues_push (pre : list FieldInfo) (f : FieldInfo)
  (st1 st2 : walk_state) :
  out st2 = (pre ++ out st1)%list ->
  continues pre (Ret (push f st1)) (Ret (push f st2)).
Proof.
  intros E. apply continues_Ret. simpl. now rewrite E, app_assoc.
Qed.

Lemma continues_bind_below {A : Type} (pre : list FieldInfo) (a b : outcome A)
  (f g : A -> outcome walk_state) :
  below a b -> (forall x, a = Ret x -> continues pre (f x) (g x)) ->
  continues pre (bind a f) (bind b g).
Proof.
  intros [->| <-] H; [exact I|].
  destruct a; simpl; [now apply H|reflexivity|exact I].
Qed.

Lemma continues_bind (pre : list FieldInfo) (a b : outcome walk_state)
  (f g : walk_state -> outcome walk_state) :
  continues pre a b ->
  (forall s1 s2, out s2 = (pre ++ out s1)%list -> continues pre (f s1) (g s2)) ->
  continues pre (bind a f) (bind b g).
Proof.
  intros Hab H. destruct a as [s1| |]; simpl in *.
  - destruct Hab as (s2 & -> & E). simpl. now apply H.
  - now subst b.
  - exact I.
Qed.

Lemma continues_forEach {A : Type} (pre : list FieldInfo)
  (b1 b2 : A -> walk_state -> outcome walk_state) (l : list A) :
  (forall x s1 s2, out s2 = (pre ++ out s1)%list ->
                   continues pre (b1 x s1) (b2 x s2)) ->
  forall s1 s2,
    out s2 = (pre ++ out s1)%list ->
    continues pre (forEach b1 l s1) (forEach b2 l s2).
Proof.
  intros H. induction l as [|x r IH]; intros s1 s2 E; simpl.
  - now apply continues_Ret.
  - apply continues_bind; [now apply H|exact IH].
Qed.

#[local] Ltac continues_step :=
  cbv beta zeta;
  first
    [ apply continues_Ret; assumption
    | apply continues_push; assumption
    | reflexivity
    | apply continues_bind_below;
      [ first [ apply below_refl
              | apply mapM_below; intros ?; apply schemaToTypeText_below; lia
              | apply schemaToTypeText_below; lia ]
      | intros ? ? ]
    | apply continues_forEach; [intros ? ? ? ?|assumption]
    | match goal with
      | |- continues _ (if ?c then _ else _) (if ?c then _ else _) => destruct c
      | |- continues _ (match ?x with _ => _ end) (match ?x with _ => _ end) =>
          destruct x
      end ].

(** A walk does not read the result array, and the fields it emits do
    not depend on the references marked before it. *)
Lemma walkSchema_continues (n : nat) :
  forall m doc s prefix req pre st1 st2,
    n < m ->
    resolveSchema doc s = Ret s ->
    out st2 = (pre ++ out st1)%list ->
    continues pre (walkSchema n doc (Some s) prefix req st1)
      (walkSchema m doc (Some s) prefix req st2).
Proof.
  induction n as [|n IH]; intros m doc s prefix req pre st1 st2 Hlt Hres E;
    [exact I|].
  destruct m as [|m]; [lia|].
  destruct (truthy (prop s "$ref")) eqn:Ht.
  - destruct (resolved_ref_is_dangling doc s Hres Ht) as [ref Hp].
    destruct m as [|m]; [lia|].
    rewrite (walkSchema_dangling m doc s ref prefix req st2 Hres Hp Ht).
    destruct (walkSchema (S n) doc (Some s) prefix req st1) as [st1'| |] eqn:H1.
    + exists (if has (visitedRefs st2) ref then st2 else add ref st2).
      split; [reflexivity|].
      rewrite (walkSchema_dangling_out _ _ _ _ _ _ _ _ Hres Hp Ht H1).
      now destruct (has (visitedRefs st2) ref).
    + exfalso. revert H1. cbn [walkSchema].
      rewrite (prop_Some_truthy _ _ _ Hp), Ht, Hp, Hres. cbn [negb bind].
      destruct (has (visitedRefs st1) ref); [discriminate|].
      destruct n as [|n]; [discriminate|].
      cbn [walkSchema].
      rewrite (prop_Some_truthy _ _ _ Hp), Ht, Hp. cbn [negb add visitedRefs].
      now rewrite has_head.
    + exact I.
  - cbn [walkSchema]. rewrite Ht.
    destruct (negb (truthy (Some s))); [now apply continues_Ret|].
    repeat continues_step;
      try (apply IH; [lia|eapply resolveSchema_idempotent; eassumption|assumption]).
Qed.

Lemma flattenSchemaFields_Ret (n : nat) (doc part : json)
  (fs : list FieldInfo) :
  flattenSchemaFields n doc part = Ret fs ->
  exists resolved st,
    resolveSchema doc part = Ret resolved
    /\ walkSchema n doc (Some resolved) "" true
         {| out := []; visitedRefs := [] |} = Ret st
    /\ out st = fs.
Proof.
  unfold flattenSchemaFields. intros H.
  destruct (resolveSchema doc part) as [resolved| |]; try discriminate.
  cbn [bind] in H.
  destruct (walkSchema n doc (Some resolved) "" true _) as [st| |] eqn:Hw;
    try discriminate.
  cbn [bind] in H. injection H as <-. now exists resolved, st.
Qed.

Lemma allOf_members (n : nat) (doc : json) (parts : list json)
  (fss : list (list FieldInfo)) :
  Forall2 (fun part fs => flattenSchemaFields n doc part = Ret fs) parts fss ->
  forall st,
  exists st',
    forEach
      (fun part st =>
         resolved <- resolveSchema doc part ;;
         walkSchema (S n) doc (Some resolved) "" true st)
      parts st = Ret st'
    /\ out st' = (out st ++ List.concat fss)%list.
Proof.
  induction 1 as [|part fs parts fss Hpart _ IH]; intros st.
  - exists st. split; [reflexivity|]. cbn. now rewrite app_nil_r.
  - destruct (flattenSchemaFields_Ret n doc part fs Hpart)
      as (resolved & st0 & Hres & Hw & Hout).
    pose proof (walkSchema_continues n (S n) doc resolved "" true (out st)
                  {| out := []; visitedRefs := [] |} st (Nat.lt_succ_diag_r n)
                  (resolveSchema_idempotent _ _ _ Hres)) as Hc.
    cbn [out] in Hc. rewrite app_nil_r in Hc. specialize (Hc eq_refl).
    rewrite Hw in Hc. destruct Hc as (st1 & Hw1 & Hout1).
    destruct (IH st1) as (st' & Hrest & Hout').
    exists st'. split.
    + cbn [forEach]. rewrite Hres. cbn [bind]. rewrite Hw1. exact Hrest.
    + rewrite Hout', Hout1, Hout. cbn [List.concat]. now rewrite app_assoc.
Qed.

(** Flattening a node with a non-empty [allOf] and no reference gives the
    fields of the members one after the other, in the order of the list:
    each member contributes what flattening it alone gives. *)
Theorem allOf_concatenates_the_fields_of_its_members
  (n : nat) (doc s : json) (parts : list json) (fss : list (list FieldInfo)) :
  truthy (Some s) = true ->
  truthy (prop s "$ref") = false ->
  has_length (prop s "allOf") = true ->
  iterate (prop s "allOf") = Ret parts ->
  Forall2 (fun part fs => flattenSchemaFields n doc part = Ret fs) parts fss ->
  flattenSchemaFields (S (S n)) doc s = Ret (List.concat fss).
Proof.
  intros Hs Hr Ha Hparts Hall.
  assert (Hnn : s <> JNull) by (intros ->; discriminate).
  unfold flattenSchemaFields.
  rewrite (resolveSchema_unchanged doc s Hnn (or_introl Hr)). cbn [bind].
  remember (S n) as m eqn:Hm.
  cbn [walkSchema]. rewrite Hs, Hr, Ha, Hparts. cbn [negb bind]. subst m.
  destruct (allOf_members n doc parts fss Hall {| out := []; visitedRefs := [] |})
    as (st' & Hw & Hout).
  rewrite Hw. cbn [bind]. now rewrite Hout.
Qed.

Lemma allOf_concatenates_the_fields_of_its_members_sample :
  flattenSchemaFields 4 Samples.empty_doc
    (JObj [("allOf",
            JArr [Samples.object_t ["id"] [("id", Samples.string_t)];
                  Samples.object_t [] [("age", Samples.integer_t)]])])
  = Ret (List.concat
           [[ {| name := "id"; type := "string"; required := true;
                 description := None |} ];
            [ {| name := "age"; type := "integer"; required := false;
                 description := None |} ]]).
Proof.
  apply (allOf_concatenates_the_fields_of_its_members 2 Samples.empty_doc
           (JObj [("allOf",
                   JArr [Samples.object_t ["id"] [("id", Samples.string_t)];
                         Samples.object_t [] [("age", Samples.integer_t)]])])
           [Samples.object_t ["id"] [("id", Samples.string_t)];
            Samples.object_t [] [("age", Samples.integer_t)]]);
    try reflexivity.
  repeat constructor.
Defined.

(** ** The [required] list of an object *)

(** An object node whose [required] is a flag, a number or an object, and
    not a list of names, makes the flattener raise: the set of required
    names cannot be built from it. *)
Theorem object_with_required_flag_raises
  (n : nat) (doc s r : json) :
  truthy (prop s "$ref") = false ->
  has_length (prop s "allOf") = false ->
  has_length (prop s "oneOf") = false ->
  has_length (prop s "anyOf") = false ->
  is_str (prop s "type") "object"
  || negb (truthy (prop s "type")) && truthy (prop s "properties") = true ->
  prop s "required" = Some r ->
  notIterable r = true ->
  flattenSchemaFields (S n) doc s = Throw.
Proof.
  intros Hr Ha Ho Hy Ht Hreq Hn.
  assert (Hs : truthy (Some s) = true) by exact (prop_Some_truthy _ _ _ Hreq).
  assert (Hnn : s <> JNull) by (intros ->; discriminate).
  unfold flattenSchemaFields.
  rewrite (resolveSchema_unchanged doc s Hnn (or_introl Hr)). cbn [bind].
  cbn [walkSchema]. rewrite Hs, Hr, Ha, Ho, Hy, Ht, Hreq. cbn [negb orb].
  destruct r; try discriminate; reflexivity.
Qed.

Lemma object_with_required_flag_raises_sample :
  flattenSchemaFields 1 Samples.empty_doc MoreSamples.flagged = Throw.
Proof.
  apply (object_with_required_flag_raises 0 Samples.empty_doc
           MoreSamples.flagged (JBool true));
    reflexivity.
Defined.

(** ** A reference and its definition *)

Lemma enumerate_plain (kvs : list (string * json)) :
  Forall (fun kv => is_index_key (fst kv) = false) kvs -> enumerate kvs = kvs.
Proof.
  intros H. unfold enumerate.
  assert (E1 : index_entries kvs = []).
  { induction H as [|kv r Hkv _ IH]; [reflexivity|].
    cbn [index_entries fold_right]. fold (index_entries r). rewrite IH.
    unfold is_index_key in Hkv. now destruct (array_index (fst kv)). }
  rewrite E1. cbn [map app]. clear E1.
  induction H as [|kv r Hkv _ IH]; [reflexivity|].
  cbn [filter]. rewrite Hkv. cbn [negb]. now rewrite IH.
Qed.

Lemma obj_delete_fresh (k : string) (kvs : list (string * json)) :
  lookup k kvs = None -> obj_delete k kvs = kvs.
Proof.
  unfold obj_delete. induction kvs as [|[k0 v0] r IH]; cbn [lookup filter fst];
    [reflexivity|].
  destruct (k0 =? k); [discriminate|]. intros H. cbn [negb]. now rewrite IH.
Qed.

Lemma lookup_None_not_In (k : string) (kvs : list (string * json)) :
  lookup k kvs = None -> ~ In k (map fst kvs).
Proof.
  induction kvs as [|[k0 v0] r IH]; cbn [lookup map fst In]; [tauto|].
  destruct (String.eqb_spec k0 k) as [->|Hk]; [discriminate|].
  intros H [E|HIn]; [congruence|]. now apply IH.
Qed.

(** A bare reference resolves to its definition itself. *)
Lemma resolveSchema_bare_reference (doc : json) (ref : string)
  (dkvs : list (string * json)) :
  resolveRef doc ref = Some (JObj dkvs) ->
  unique_keys dkvs ->
  lookup "$ref" dkvs = None ->
  Forall (fun kv => is_index_key (fst kv) = false) dkvs ->
  resolveSchema doc (JObj [("$ref", JStr ref)]) = Ret (JObj dkvs).
Proof.
  intros Hr Hu Hl Hp.
  rewrite (resolveSchema_resolved doc (JObj [("$ref", JStr ref)]) ref (JObj dkvs));
    [|reflexivity|exact Hr].
  rewrite (spread_copy dkvs Hu), (enumerate_plain dkvs Hp).
  unfold spread. cbn [entries]. rewrite enumerate_single.
  cbn [fold_left fst snd].
  rewrite (obj_set_fresh "$ref" (JStr ref) dkvs (lookup_None_not_In _ _ Hl)).
  unfold obj_delete. rewrite filter_app. cbn [filter fst String.eqb Ascii.eqb Bool.eqb negb].
  fold (obj_delete "$ref" dkvs). rewrite (obj_delete_fresh _ _ Hl).
  now rewrite app_nil_r.
Qed.

(** A node that is nothing but a reference is rendered and flattened
    exactly as the definition it points to, when that definition is not
    itself a reference: same text, same fields, same failure. *)
Theorem bare_reference_stands_for_its_definition
  (n : nat) (doc : json) (ref : string) (dkvs : list (string * json)) :
  resolveRef doc ref = Some (JObj dkvs) ->
  unique_keys dkvs ->
  lookup "$ref" dkvs = None ->
  Forall (fun kv => is_index_key (fst kv) = false) dkvs ->
  schemaToTypeText n doc (Some (JObj [("$ref", JStr ref)]))
  = schemaToTypeText n doc (Some (JObj dkvs))
  /\ flattenSchemaFields n doc (JObj [("$ref", JStr ref)])
     = flattenSchemaFields n doc (JObj dkvs).
Proof.
  intros Hr Hu Hl Hp.
  pose proof (resolveSchema_bare_reference doc ref dkvs Hr Hu Hl Hp) as E.
  assert (E' : resolveSchema doc (JObj dkvs) = Ret (JObj dkvs)).
  { apply resolveSchema_unchanged; [discriminate|]. left.
    cbn [prop]. now rewrite Hl. }
  split.
  - destruct n as [|n]; [reflexivity|].
    cbn [schemaToTypeText]. rewrite E, E'. reflexivity.
  - unfold flattenSchemaFields. now rewrite E, E'.
Qed.

Lemma bare_reference_stands_for_its_definition_sample :
  schemaToTypeText 3 Samples.pair_doc (Some (Samples.ref "Point"))
  = schemaToTypeText 3 Samples.pair_doc (Some Samples.Point)
  /\ flattenSchemaFields 3 Samples.pair_doc (Samples.ref "Point")
     = flattenSchemaFields 3 Samples.pair_doc Samples.Point.
Proof.
  apply (bare_reference_stands_for_its_definition 3 Samples.pair_doc
           "#/components/schemas/Point"
           [("type", JStr "object");
            ("required", JArr (map JStr ["x"]));
            ("properties", JObj [("x", Samples.integer_t)])]).
  - reflexivity.
  - repeat constructor; simpl; intuition discriminate.
  - reflexivity.
  - repeat constructor.
Defined.
